(** * kntrl: the eBPF control plane (allow list, event decoding, run loop)

    A shallow embedding of the two [Run] entry points (package [kntrl] and
    package [tracer]) and of [parser.parseAllowedIPAddr], together with the
    parts of the Go standard library and of cilium/ebpf they call, and the
    properties of the specification proved or refuted on them.

    Conventions.
    - A Go [[]byte] (also [net.IP], a perf record's [RawSample]) is a
      [list byte]; the nil slice is [[]].
    - A Go [uintN] is a [Z] in [0, 2^N); conversions write the wrap-around.
    - A Go [string] is a [string] (a sequence of 8-bit characters).
    - What the operating system, the kernel or the network decide (root
      privilege, load and attach results, perf reads, reverse DNS) is an
      explicit input of the model. *)

From Stdlib Require Import ZArith List String Ascii Strings.Byte Lia Permutation.
From stdpp Require Import base decidable countable gmap fin_maps fin_sets list.
Import ListNotations.
Local Open Scope Z_scope.

(* ===================================================================== *)
(** * Bytes and fixed-width integers *)
(* ===================================================================== *)

Abbreviation bytes := (list byte).

(** [uintN(b)] for a byte [b]. *)
Definition byte_to_Z (b : byte) : Z := Z.of_N (Byte.to_N b).

(** [byte(z)]: the conversion of an integer to a byte keeps the low 8 bits. *)
Definition byte_of_Z (z : Z) : byte :=
  match Byte.of_N (Z.to_N (z mod 256)) with
  | Some b => b
  | None => x00
  end.

Definition uint16 (z : Z) : Z := z mod 2 ^ 16.
Definition uint32 (z : Z) : Z := z mod 2 ^ 32.
Definition uint64 (z : Z) : Z := z mod 2 ^ 64.

Definition is_uint16 (z : Z) : Prop := 0 <= z < 2 ^ 16.
Definition is_uint32 (z : Z) : Prop := 0 <= z < 2 ^ 32.
Definition is_uint64 (z : Z) : Prop := 0 <= z < 2 ^ 64.

#[global] Instance byte_eq_dec : EqDecision byte.
Proof.
  intros a b. destruct (N.eq_dec (Byte.to_N a) (Byte.to_N b)) as [E | E].
  - left. apply (f_equal Byte.of_N) in E. rewrite !Byte.of_to_N in E.
    congruence.
  - right. intros ->. apply E. reflexivity.
Defined.

#[global] Instance byte_countable : Countable byte :=
  inj_countable Byte.to_N Byte.of_N Byte.of_to_N.

(* ===================================================================== *)
(** * encoding/binary: the little-endian byte order *)
(* ===================================================================== *)

Module LittleEndian.

(** [binary.LittleEndian.Uint16(b)]; [None] is the index-out-of-range
    panic of the bounds check [_ = b[1]]. *)
Definition Uint16 (b : bytes) : option Z :=
  match b with
  | b0 :: b1 :: _ =>
      Some (Z.lor (byte_to_Z b0) (Z.shiftl (byte_to_Z b1) 8))
  | _ => None
  end.

(** [binary.LittleEndian.Uint32(b)]; [None] is the panic of [_ = b[3]]. *)
Definition Uint32 (b : bytes) : option Z :=
  match b with
  | b0 :: b1 :: b2 :: b3 :: _ =>
      Some (Z.lor (Z.lor (Z.lor (byte_to_Z b0)
                                (Z.shiftl (byte_to_Z b1) 8))
                         (Z.shiftl (byte_to_Z b2) 16))
                  (Z.shiftl (byte_to_Z b3) 24))
  | _ => None
  end.

(** [binary.LittleEndian.Uint64(b)]; [None] is the panic of [_ = b[7]]. *)
Definition Uint64 (b : bytes) : option Z :=
  match b with
  | b0 :: b1 :: b2 :: b3 :: b4 :: b5 :: b6 :: b7 :: _ =>
      Some (Z.lor (Z.lor (Z.lor (Z.lor (Z.lor (Z.lor (Z.lor
              (byte_to_Z b0)
              (Z.shiftl (byte_to_Z b1) 8))
              (Z.shiftl (byte_to_Z b2) 16))
              (Z.shiftl (byte_to_Z b3) 24))
              (Z.shiftl (byte_to_Z b4) 32))
              (Z.shiftl (byte_to_Z b5) 40))
              (Z.shiftl (byte_to_Z b6) 48))
              (Z.shiftl (byte_to_Z b7) 56))
  | _ => None
  end.

(** [binary.LittleEndian.PutUint16], as the bytes it stores. *)
Definition PutUint16 (v : Z) : bytes :=
  [byte_of_Z v; byte_of_Z (Z.shiftr v 8)].

(** [binary.LittleEndian.PutUint32], as the bytes it stores. *)
Definition PutUint32 (v : Z) : bytes :=
  [byte_of_Z v; byte_of_Z (Z.shiftr v 8);
   byte_of_Z (Z.shiftr v 16); byte_of_Z (Z.shiftr v 24)].

(** [binary.LittleEndian.PutUint64], as the bytes it stores. *)
Definition PutUint64 (v : Z) : bytes :=
  [byte_of_Z v; byte_of_Z (Z.shiftr v 8);
   byte_of_Z (Z.shiftr v 16); byte_of_Z (Z.shiftr v 24);
   byte_of_Z (Z.shiftr v 32); byte_of_Z (Z.shiftr v 40);
   byte_of_Z (Z.shiftr v 48); byte_of_Z (Z.shiftr v 56)].

End LittleEndian.

(* ===================================================================== *)
(** * The event records *)
(* ===================================================================== *)

(** [type Event struct]: the common header. *)
Record Event := mkEvent {
  TsUs : Z;        (* uint64 *)
  Pid  : Z;        (* uint32 *)
  Af   : Z;        (* uint16, address family *)
  Task : bytes     (* [16]byte *)
}.

(** [type IP4Event struct]: a socket connect event from AF_INET. *)
Record IP4Event := mkIP4Event {
  Header : Event;  (* the embedded [Event] *)
  Daddr  : Z;      (* uint32 *)
  Dport  : Z       (* uint16 *)
}.

(** The values of the Go type: every field within its width, the task name
    exactly 16 bytes. *)
Definition wf_IP4Event (e : IP4Event) : Prop :=
  is_uint64 (TsUs (Header e)) /\ is_uint32 (Pid (Header e)) /\
  is_uint16 (Af (Header e)) /\ length (Task (Header e)) = 16%nat /\
  is_uint32 (Daddr e) /\ is_uint16 (Dport e).

(** [binary.Size(IP4Event{})]: 8 + 4 + 2 + 16 + 4 + 2. *)
Definition IP4Event_size : nat := 36.

(** The errors of [binary.Read] on a buffer: [io.ReadFull] gives [io.EOF]
    when nothing could be read and [io.ErrUnexpectedEOF] when the buffer ends
    inside the value. *)
Inductive read_error := EOF | ErrUnexpectedEOF.

(** The slice [b[lo:lo+n]] of a buffer that is long enough. *)
Definition slice (lo n : nat) (b : bytes) : bytes := take n (drop lo b).

(** The decoder of [binary.Read] on the bytes [bs] it has read: the fields
    in declaration order, each at the offset the ones before it leave. *)
Definition decode_IP4Event (bs : bytes) : read_error + IP4Event :=
  match LittleEndian.Uint64 (slice 0 8 bs),
        LittleEndian.Uint32 (slice 8 4 bs),
        LittleEndian.Uint16 (slice 12 2 bs),
        LittleEndian.Uint32 (slice 30 4 bs),
        LittleEndian.Uint16 (slice 34 2 bs) with
  | Some ts, Some pid, Some af, Some daddr, Some dport =>
      inr {| Header := {| TsUs := ts; Pid := pid; Af := af;
                          Task := slice 14 16 bs |};
             Daddr := daddr; Dport := dport |}
  | _, _, _, _, _ => inl ErrUnexpectedEOF
  end.

(** [binary.Read(bytes.NewBuffer(raw), binary.LittleEndian, &event)].
    [binary.Read] asks [io.ReadFull] for exactly [IP4Event_size] bytes; with
    fewer it fails and leaves [event] alone; with enough it decodes the first
    [IP4Event_size] bytes, and whatever follows them stays unread in the
    buffer. *)
Definition binary_Read (raw : bytes) : read_error + IP4Event :=
  match raw with
  | [] => inl EOF
  | _ =>
      if (length raw <? IP4Event_size)%nat then inl ErrUnexpectedEOF
      else decode_IP4Event (take IP4Event_size raw)
  end.

(** The record layout of section 6 of the specification, written by the
    producer: timestamp u64, pid u32, address family u16, task name 16 bytes,
    destination address u32, destination port u16, little-endian, no
    padding. This is the encoder the round-trip law is stated against. *)
Definition encode_IP4Event (e : IP4Event) : bytes :=
  LittleEndian.PutUint64 (TsUs (Header e)) ++
  LittleEndian.PutUint32 (Pid (Header e)) ++
  LittleEndian.PutUint16 (Af (Header e)) ++
  Task (Header e) ++
  LittleEndian.PutUint32 (Daddr e) ++
  LittleEndian.PutUint16 (Dport e).

(* ===================================================================== *)
(** * strings: [Contains] and [Split] *)
(* ===================================================================== *)

Module strings.

(** [strings.Contains(s, substr)]: [substr] occurs in [s] at some offset;
    the empty string occurs in every string. *)
Fixpoint Contains (s substr : string) : bool :=
  String.prefix substr s ||
  match s with
  | EmptyString => false
  | String _ s' => Contains s' substr
  end.

(** The fields of [s] between occurrences of [sep], the current field
    [cur] being accumulated in reverse. *)
Fixpoint split_from (sep : ascii) (cur : string) (s : string)
  : list string :=
  match s with
  | EmptyString => [cur]
  | String c s' =>
      if Ascii.eqb c sep then cur :: split_from sep EmptyString s'
      else split_from sep (cur ++ String c EmptyString) s'
  end.

(** [strings.Split(s, sep)] for a one-character separator: [n] separators
    give [n + 1] fields, and the empty string gives one empty field. *)
Definition Split (s : string) (sep : ascii) : list string :=
  split_from sep EmptyString s.

End strings.

(* ===================================================================== *)
(** * net: [IP], [ParseIP], [To4] *)
(* ===================================================================== *)

(** The parsers follow those of Go's net package ([parseIPv4], [parseIPv6],
    [dtoi] and [xtoi]), statement by statement; the loops become recursive
    functions. *)

Module net.

(** [type IP []byte]. *)
Abbreviation IP := (list byte).

Definition IPv4len : nat := 4.
Definition IPv6len : nat := 16.

Definition char_code (c : ascii) : Z := Z.of_N (N_of_ascii c).

(** [const big = 0xFFFFFF]: bigger than anything the parsers accept. *)
Definition big : Z := 16777215.

(** The loop of [dtoi]: [n] the number so far, [i] the characters consumed. *)
Fixpoint dtoi_from (s : string) (n : Z) (i : nat) : Z * nat * bool :=
  match s with
  | String c s' =>
      if (48 <=? char_code c) && (char_code c <=? 57) then
        let n' := n * 10 + (char_code c - 48) in
        if big <=? n' then (big, i, false) else dtoi_from s' n' (S i)
      else if Nat.eqb i 0 then (0, 0%nat, false) else (n, i, true)
  | EmptyString => if Nat.eqb i 0 then (0, 0%nat, false) else (n, i, true)
  end.

(** [dtoi(s)]: decimal to integer; number, characters consumed, success. *)
Definition dtoi (s : string) : Z * nat * bool := dtoi_from s 0 0%nat.

(** The value of a hexadecimal digit. *)
Definition hex_digit (c : ascii) : option Z :=
  let k := char_code c in
  if (48 <=? k) && (k <=? 57) then Some (k - 48)
  else if (97 <=? k) && (k <=? 102) then Some (k - 97 + 10)
  else if (65 <=? k) && (k <=? 70) then Some (k - 65 + 10)
  else None.

(** The loop of [xtoi]. *)
Fixpoint xtoi_from (s : string) (n : Z) (i : nat) : Z * nat * bool :=
  match s with
  | String c s' =>
      match hex_digit c with
      | Some d =>
          let n' := n * 16 + d in
          if big <=? n' then (0, i, false) else xtoi_from s' n' (S i)
      | None => if Nat.eqb i 0 then (0, i, false) else (n, i, true)
      end
  | EmptyString => if Nat.eqb i 0 then (0, i, false) else (n, i, true)
  end.

(** [xtoi(s)]: hexadecimal to integer; number, characters consumed,
    success. *)
Definition xtoi (s : string) : Z * nat * bool := xtoi_from s 0 0%nat.

(** [s[c:]]. *)
Fixpoint string_drop (c : nat) (s : string) : string :=
  match c, s with
  | O, _ => s
  | S c', String _ s' => string_drop c' s'
  | S _, EmptyString => EmptyString
  end.

(** [IPv4(a, b, c, d)]: the 16-byte IPv4-mapped form. *)
Definition IPv4 (a b c d : byte) : IP :=
  replicate 10 x00 ++ [xff; xff; a; b; c; d].

(** The loop of [parseIPv4] over the octets still to read; [first] holds
    in the iteration [i = 0], which expects no leading dot. Gives the octets
    and the rest of the string. *)
Fixpoint parseIPv4_octets (k : nat) (first : bool) (s : string)
  : option (bytes * string) :=
  match k with
  | O => Some ([], s)
  | S k' =>
      match s with
      | EmptyString => None                       (* missing octets *)
      | String c0 r0 =>
          let after_dot :=
            if first then Some s
            else if Ascii.eqb c0 "."%char then Some r0 else None in
          match after_dot with
          | None => None
          | Some s1 =>
              let '(n, c, ok) := dtoi s1 in
              if negb ok || (255 <? n) then None
              else if (1 <? c)%nat &&
                      match s1 with
                      | String d _ => Ascii.eqb d "0"%char
                      | EmptyString => false
                      end
              then None              (* leading zeroes *)
              else
                match parseIPv4_octets k' false (string_drop c s1) with
                | Some (p, rest) => Some (byte_of_Z n :: p, rest)
                | None => None
                end
          end
      end
  end.

(** [parseIPv4(s)]: dotted decimal, [d.d.d.d]. *)
Definition parseIPv4 (s : string) : option IP :=
  match parseIPv4_octets IPv4len true s with
  | Some ([a; b; c; d], EmptyString) => Some (IPv4 a b c d)
  | _ => None
  end.

(** The main loop of [parseIPv6]: [ip] the 16 bytes being filled, [i] the
    position in [ip], [s] the rest of the string, [ellipsis] the position
    of the [::] if one was seen. Every turn advances [i] by two or ends the
    loop, so eight turns are enough. [None] is [return nil]. *)
Fixpoint parseIPv6_loop (fuel : nat) (ip : IP) (i : nat) (s : string)
  (ellipsis : option nat) : option (IP * nat * string * option nat) :=
  match fuel with
  | O => Some (ip, i, s, ellipsis)
  | S fuel' =>
      if (IPv6len <=? i)%nat then Some (ip, i, s, ellipsis)
      else
        let '(n, c, ok) := xtoi s in
        if negb ok || (65535 <? n) then None
        else if (c <? String.length s)%nat &&
                match String.get c s with
                | Some d => Ascii.eqb d "."%char
                | None => false
                end
        then
          (* a trailing dotted-decimal IPv4 *)
          if match ellipsis with None => true | Some _ => false end &&
             negb (Nat.eqb i (IPv6len - IPv4len))
          then None
          else if (IPv6len <? i + IPv4len)%nat then None
          else
            match parseIPv4 s with
            | None => None
            | Some ip4 =>
                Some (take i ip ++ drop 12 ip4 ++ drop (i + 4) ip,
                      (i + IPv4len)%nat, EmptyString, ellipsis)
            end
        else
          let ip := <[S i := byte_of_Z n]>
                      (<[i := byte_of_Z (Z.shiftr n 8)]> ip) in
          let i := (i + 2)%nat in
          match string_drop c s with
          | EmptyString => Some (ip, i, EmptyString, ellipsis)
          | String c1 EmptyString => None
          | String c1 (String c2 r2 as r1) =>
              if negb (Ascii.eqb c1 ":"%char) then None
              else if Ascii.eqb c2 ":"%char then
                match ellipsis with
                | Some _ => None              (* already have one *)
                | None =>
                    match r2 with
                    | EmptyString => Some (ip, i, EmptyString, Some i)
                    | _ => parseIPv6_loop fuel' ip i r2 (Some i)
                    end
                end
              else parseIPv6_loop fuel' ip i r1 ellipsis
          end
  end.

(** [parseIPv6(s)]. After the loop the whole string must be used; an
    address that is too short is completed at the ellipsis (the bytes from
    the ellipsis on move to the end, zeroes take their place). *)
Definition parseIPv6 (s : string) : option IP :=
  let zero := replicate IPv6len x00 in
  let start :=
    match s with
    | String ":" (String ":" r) => (r, Some 0%nat)
    | _ => (s, None)
    end in
  match start with
  | (EmptyString, Some _) => Some zero             (* only the ellipsis *)
  | (s0, ellipsis0) =>
      match parseIPv6_loop 8 zero 0 s0 ellipsis0 with
      | None => None
      | Some (ip, i, rest, ellipsis) =>
          match rest with
          | String _ _ => None
          | EmptyString =>
              if (i <? IPv6len)%nat then
                match ellipsis with
                | None => None
                | Some e =>
                    Some (take e ip ++ replicate (IPv6len - i) x00 ++
                          take (i - e) (drop e ip))
                end
              else
                match ellipsis with
                | Some _ => None
                | None => Some ip
                end
          end
      end
  end.

(** [ParseIP(s)]: the first dot or colon decides the form; [None] is the
    nil [IP]. A parsed address always has 16 bytes. *)
Fixpoint ParseIP_scan (whole s : string) : option IP :=
  match s with
  | EmptyString => None
  | String c s' =>
      if Ascii.eqb c "."%char then parseIPv4 whole
      else if Ascii.eqb c ":"%char then parseIPv6 whole
      else ParseIP_scan whole s'
  end.

Definition ParseIP (s : string) : option IP := ParseIP_scan s s.

(** [ip.To4()]: the 4-byte form of an IPv4 address, the nil [IP] ([[]])
    for anything else. *)
Definition To4 (ip : IP) : IP :=
  if Nat.eqb (length ip) IPv4len then ip
  else if Nat.eqb (length ip) IPv6len &&
          bool_decide (take 10 ip = replicate 10 x00) &&
          bool_decide (ip !! 10%nat = Some xff) &&
          bool_decide (ip !! 11%nat = Some xff)
  then drop 12 ip
  else [].

(** The outcome of a reverse lookup, [net.LookupAddr]: the names found and
    whether the lookup failed. *)
Record lookup := mkLookup { names : list string; failed : bool }.

End net.

(* ===================================================================== *)
(** * cilium/ebpf: maps and program specifications *)
(* ===================================================================== *)

Module ebpf.

(** The values the program hands to [Map.Put] as [interface{}]: a
    [uint32] or a [net.IP]. *)
Inductive go_value :=
| U32 (v : Z)
| IPBytes (ip : net.IP).

(** What [Map.Put] makes of a key or value before it is checked against
    the map's key or value size: an integer is written in the byte order
    of the machine (little-endian on the two targets, amd64 and arm64), a
    byte slice is taken as it is. *)
Definition marshal (v : go_value) : bytes :=
  match v with
  | U32 z => LittleEndian.PutUint32 z
  | IPBytes ip => ip
  end.

Inductive put_error :=
| ErrKeySize      (* the key does not marshal to KeySize bytes *)
| ErrValueSize    (* the value does not marshal to ValueSize bytes *)
| E2BIG.          (* a new key, and the map holds MaxEntries already *)

(** A hash map of the kernel, seen through its handle. *)
Record Map := mkMap {
  KeySize : nat;
  ValueSize : nat;
  MaxEntries : nat;
  entries : gmap bytes bytes
}.

(** [m.Put(key, value)], that is [Update] with the flag [UpdateAny]: create
    the entry or overwrite it. *)
Definition Put (m : Map) (key value : go_value) : put_error + Map :=
  let k := marshal key in
  let v := marshal value in
  if negb (Nat.eqb (length k) (KeySize m)) then inl ErrKeySize
  else if negb (Nat.eqb (length v) (ValueSize m)) then inl ErrValueSize
  else
    match entries m !! k with
    | None =>
        if (MaxEntries m <=? size (entries m))%nat then inl E2BIG
        else inr (mkMap (KeySize m) (ValueSize m) (MaxEntries m)
                        (<[k := v]> (entries m)))
    | Some _ =>
        inr (mkMap (KeySize m) (ValueSize m) (MaxEntries m)
                   (<[k := v]> (entries m)))
    end.

(** [ebpf.ProgramType], as far as [Run] tells the kinds apart. *)
Inductive ProgramType :=
| Kprobe | Tracing | TracePoint | CGroupSKB | OtherType.

(** One entry of [CollectionSpec.Programs]. *)
Record ProgramSpec := mkProgramSpec {
  Name : string;
  Type_ : ProgramType;
  AttachTo : string
}.

(** The maps of a loaded collection that [Run] writes:
    [Maps["mode_map"]] and [Maps["allow_map"]]. *)
Record Collection := mkCollection {
  mode_map : Map;
  allow_map : Map
}.

End ebpf.

(* ===================================================================== *)
(** * utils *)
(* ===================================================================== *)

Module utils.

(** Modelled from the spec: [utils.IntToIP], whose source is not part of
    the files at hand. The specification has the destination address as a
    32-bit value "in a fixed byte order matching the kernel producer", and
    the kernel-facing records are little-endian (section 6): the address
    is the four bytes of the value, least significant first. *)
Definition IntToIP (v : Z) : net.IP := LittleEndian.PutUint32 v.

End utils.

(* ===================================================================== *)
(** * parser (pkg/parser/flag.go) *)
(* ===================================================================== *)

Module parser.

Definition localLoopback : string := "127.0.0.1".
Definition linkLocal : string := "169.254.169.254".
Definition azureMeta : string := "168.63.129.16".

(** [net.ParseIP(s).To4()], where the nil [IP] gives the nil [IP]. *)
Definition ParseIP_To4 (s : string) : net.IP :=
  match net.ParseIP s with
  | Some i => net.To4 i
  | None => []
  end.

(** The loop of [parseAllowedIPAddr]: a field that does not parse is
    skipped, for one that parses [i.To4()] is appended, whatever it is. *)
Fixpoint collect (fields : list string) : list net.IP :=
  match fields with
  | [] => []
  | ip :: rest =>
      match net.ParseIP ip with
      | None => collect rest
      | Some i => net.To4 i :: collect rest
      end
  end.

(** [parseAllowedIPAddr(ips)]. *)
Definition parseAllowedIPAddr (ips : string) : list net.IP :=
  collect (strings.Split ips ","%char) ++
  [ParseIP_To4 localLoopback; ParseIP_To4 linkLocal; ParseIP_To4 azureMeta].

End parser.

(* ===================================================================== *)
(** * What a run does and how it ends *)
(* ===================================================================== *)

Inductive map_name := ModeMap | AllowMap.
Inductive reader := OpenedEvents | ClosedEvents.

(** [error] values that [Run] returns. *)
Inductive error :=
| ErrNotRoot
| ErrMemlock
| ErrAttach (name : string)
| ErrCgroupOpen
| ErrModeRequired
| ErrModeInvalid (mode : string)
| ErrParseHosts.

Inductive panic :=
| NilDereference
| IndexOutOfRange (index len : nat).

Inductive level := Debug | Info | Warn | Error | Fatal | Print.

Inductive message :=
| MsgNoHosts
| MsgLoaded (name : string)
| MsgLinking (t : ebpf.ProgramType) (name : string)
| MsgUnrecognized (name : string)
| MsgLoadFailed
| MsgPutFailed (m : map_name) (e : ebpf.put_error)
| MsgReaderFailed (r : reader)
| MsgReporterFailed
| MsgReadError
| MsgParseError (e : read_error)
| MsgAdd (ip : net.IP)
| MsgEvent (e : IP4Event) (domain : list string).

(** The calls a run makes on the world outside, in the order it makes
    them. *)
Inductive effect :=
| RemoveMemlock
| LoadArtifact
| CollectionClose
| Attach (name : string)
| LinkClose (name : string)
| CgroupOpen
| CgroupClose
| MapPut (m : map_name) (key value : bytes)
| ReaderOpen (r : reader)
| ReaderClose (r : reader)
| SignalNotify
| WaitDone
| ReporterNew
| ReporterPrint
| ReporterClean
| Println (s : string)
| Log (l : level) (m : message).

(** The calls put aside by [defer]. *)
Inductive deferred_call :=
| DClean                 (* e.clean() of package kntrl *)
| DClientClean           (* ebpfClient.Clean() of package tracer *)
| DLinkClose (name : string)
| DCgroupClose
| DReaderClose (r : reader).

(** How control leaves the body of [Run]. *)
Inductive stop :=
| Return (err : option error)   (* a return statement *)
| Exit                          (* Fatalf: the process exits, no deferred call runs *)
| Panic (p : panic)
| Block.                        (* waiting in Read, nothing more to read *)

(** How a run ends, as its caller sees it. *)
Inductive outcome :=
| Returned (err : option error)
| Exited
| Panicked (p : panic)
| Blocked.

(** What a read of the opened-events reader gives. After an error the
    record is the zero [Record], its [RawSample] nil. *)
Inductive read_result :=
| ReadOk (RawSample : bytes)
| ReadErrClosed              (* perf.ErrClosed *)
| ReadErrOther.

(** The world a run meets. Go ranges over the program specifications in an
    order of its choosing; they are listed here in that order. *)
Record world := mkWorld {
  IsRoot : bool;
  RemoveMemlock_ok : bool;
  LoadCollectionSpec_res : option (list ebpf.ProgramSpec);
  NewCollection_res : option ebpf.Collection;
  attach_ok : string -> bool;
  cgroup_open_ok : bool;
  NewReader_ok : reader -> bool;
  NewReporter_ok : bool;
  reads : list (read_result * net.lookup)
}.

Definition with_reads (w : world) (rs : list (read_result * net.lookup))
  : world :=
  mkWorld (IsRoot w) (RemoveMemlock_ok w) (LoadCollectionSpec_res w)
          (NewCollection_res w) (attach_ok w) (cgroup_open_ok w)
          (NewReader_ok w) (NewReporter_ok w) rs.

(** The state of a run: what it has done, what it has deferred (the latest
    first), and the loaded collection ([None] is the nil pointer). *)
Record state := mkState {
  trace : list effect;
  deferred : list deferred_call;
  collection : option ebpf.Collection
}.

Definition initial : state := mkState [] [] None.

(** The keys of the allow map. *)
Definition allow_keys (st : state) : gset bytes :=
  match collection st with
  | Some c => dom (ebpf.entries (ebpf.allow_map c))
  | None => ∅
  end.

(** ** The monad of the body of [Run]: state, and an early stop *)

Definition M (A : Type) : Type := state -> (A + stop) * state.

Definition ret {A} (a : A) : M A := fun st => (inl a, st).

Definition bind {A B} (m : M A) (k : A -> M B) : M B :=
  fun st =>
    match m st with
    | (inl a, st') => k a st'
    | (inr s, st') => (inr s, st')
    end.

Definition halt {A} (s : stop) : M A := fun st => (inr s, st).

Notation "x <- m ;; k" := (bind m (fun x => k))
  (at level 100, m at next level, right associativity).
Notation "m ;; k" := (bind m (fun _ => k))
  (at level 100, right associativity).

Definition emit (e : effect) : M unit :=
  fun st => (inl tt, mkState (trace st ++ [e]) (deferred st) (collection st)).

Definition defer (d : deferred_call) : M unit :=
  fun st => (inl tt, mkState (trace st) (d :: deferred st) (collection st)).

Definition set_collection (c : ebpf.Collection) : M unit :=
  fun st => (inl tt, mkState (trace st) (deferred st) (Some c)).

(** [if cond { return err }]. *)
Definition return_if (cond : bool) (err : error) : M unit :=
  if cond then halt (Return (Some err)) else ret tt.

(** [logger.Log.Fatalf], the [Fatalf] of a logrus logger: the line is
    logged and the process exits; no deferred call runs. *)
Definition Fatalf {A} (m : message) : M A :=
  emit (Log Fatal m) ;; halt Exit.

(** ** The owners of the collection *)

(** [type ebpfProgram struct] of package kntrl and its methods. *)
Module ebpfProgram.

(** [func (e *ebpfProgram) load() error]: [ebpf.LoadCollectionSpec] and
    [ebpf.NewCollection], each answered with [Fatalf] when it fails. *)
Definition load (w : world) : M (list ebpf.ProgramSpec) :=
  emit LoadArtifact ;;
  match LoadCollectionSpec_res w with
  | None => Fatalf MsgLoadFailed
  | Some spec =>
      match NewCollection_res w with
      | None => Fatalf MsgLoadFailed
      | Some c => set_collection c ;; ret spec
      end
  end.

(** [func (e *ebpfProgram) clean()], that is [e.Collection.Close()].
    [Close] ranges over the programs and maps of the collection it is
    called on: on the nil collection it dereferences nil. *)
Definition clean : M unit :=
  fun st =>
    match collection st with
    | None => (inr (Panic NilDereference), st)
    | Some _ => emit CollectionClose st
    end.

End ebpfProgram.

(** The client of package [ebpfman] (pkg/ebpf), which package tracer
    uses. *)
Module ebpfman.

(** Modelled from the spec: [Load], whose source is not part of the files
    at hand. "Load(path) reads and verifies a program image at path, then
    instantiates it"; it fails when the image cannot be read or cannot be
    instantiated. [tracer.Run] answers a failure with [Fatalf], which is
    folded in here. *)
Definition Load (w : world) : M (list ebpf.ProgramSpec) :=
  emit LoadArtifact ;;
  match LoadCollectionSpec_res w, NewCollection_res w with
  | Some spec, Some c => set_collection c ;; ret spec
  | _, _ => Fatalf MsgLoadFailed
  end.

(** Modelled from the spec: [Clean], whose source is not part of the files
    at hand. "Clean() releases the instantiated collection". *)
Definition Clean : M unit := emit CollectionClose.

End ebpfman.

(** One deferred call. *)
Definition run_deferred (d : deferred_call) : M unit :=
  match d with
  | DClean => ebpfProgram.clean
  | DClientClean => ebpfman.Clean
  | DLinkClose name => emit (LinkClose name)
  | DCgroupClose => emit CgroupClose
  | DReaderClose r => emit (ReaderClose r)
  end.

(** The deferred calls run latest first; a panic in one of them does not
    keep the others from running, and is how the run ends. *)
Fixpoint run_all_deferred (ds : list deferred_call) (o : outcome) (st : state)
  : outcome * state :=
  match ds with
  | [] => (o, st)
  | d :: ds' =>
      match run_deferred d st with
      | (inr (Panic p), st') => run_all_deferred ds' (Panicked p) st'
      | (_, st') => run_all_deferred ds' o st'
      end
  end.

(** The end of a run whose body stopped with [s]. *)
Definition finish (r : (unit + stop) * state) : outcome * state :=
  match r with
  | (inl tt, st) => run_all_deferred (deferred st) (Returned None) st
  | (inr (Return e), st) => run_all_deferred (deferred st) (Returned e) st
  | (inr (Panic p), st) => run_all_deferred (deferred st) (Panicked p) st
  | (inr Exit, st) => (Exited, st)
  | (inr Block, st) => (Blocked, st)
  end.

(* ===================================================================== *)
(** * The parts the two [Run] functions share *)
(* ===================================================================== *)

Definition get_map (n : map_name) (c : ebpf.Collection) : ebpf.Map :=
  match n with
  | ModeMap => ebpf.mode_map c
  | AllowMap => ebpf.allow_map c
  end.

Definition set_map (n : map_name) (m : ebpf.Map) (c : ebpf.Collection)
  : ebpf.Collection :=
  match n with
  | ModeMap => ebpf.mkCollection m (ebpf.allow_map c)
  | AllowMap => ebpf.mkCollection (ebpf.mode_map c) m
  end.

(** [if err := m.Put(key, value); err != nil { logger.Log.Fatalf(...) }]
    on a map of the collection. *)
Definition map_put (n : map_name) (key value : ebpf.go_value) : M unit :=
  fun st =>
    match collection st with
    | None => (inr (Panic NilDereference), st)
    | Some c =>
        match ebpf.Put (get_map n c) key value with
        | inl e => Fatalf (MsgPutFailed n e) st
        | inr m' =>
            (inl tt,
             mkState (trace st ++
                        [MapPut n (ebpf.marshal key) (ebpf.marshal value)])
                     (deferred st) (Some (set_map n m' c)))
        end
    end.

(** The body of [for name, spec := range Spec.Programs] for one program. *)
Definition link_program (w : world) (p : ebpf.ProgramSpec) : M unit :=
  let name := ebpf.Name p in
  emit (Log Debug (MsgLoaded name)) ;;
  match ebpf.Type_ p with
  | ebpf.Kprobe | ebpf.Tracing | ebpf.TracePoint =>
      emit (Log Info (MsgLinking (ebpf.Type_ p) name)) ;;
      emit (Attach name) ;;
      if attach_ok w name then defer (DLinkClose name)
      else halt (Return (Some (ErrAttach name)))
  | ebpf.CGroupSKB =>
      emit (Log Info (MsgLinking ebpf.CGroupSKB name)) ;;
      emit CgroupOpen ;;
      if cgroup_open_ok w then
        emit (Attach name) ;;
        if attach_ok w name then
          defer (DLinkClose name) ;; defer DCgroupClose
        else halt (Return (Some (ErrAttach name)))
      else halt (Return (Some ErrCgroupOpen))
  | ebpf.OtherType => emit (Log Warn (MsgUnrecognized name))
  end.

(** The loop "loop and link". *)
Fixpoint link_programs (w : world) (ps : list ebpf.ProgramSpec) : M unit :=
  match ps with
  | [] => ret tt
  | p :: ps' => link_program w p ;; link_programs w ps'
  end.

(** The seeding loop: [for _, h := range hosts], the key
    [binary.LittleEndian.Uint32(h)], the value [uint32(1)]. An address of
    fewer than four bytes makes [Uint32] panic. *)
Fixpoint seed_allow_map (hosts : list net.IP) : M unit :=
  match hosts with
  | [] => ret tt
  | h :: hosts' =>
      match LittleEndian.Uint32 h with
      | None => halt (Panic (IndexOutOfRange 3 (length h)))
      | Some ipUint32 =>
          map_put AllowMap (ebpf.U32 ipUint32) (ebpf.U32 1) ;;
          seed_allow_map hosts'
      end
  end.

(** [perf.NewReader(...)] with its [Fatalf] and its [defer rd.Close()]. *)
Definition open_reader (w : world) (r : reader) : M unit :=
  emit (ReaderOpen r) ;;
  if NewReader_ok w r then defer (DReaderClose r)
  else Fatalf (MsgReaderFailed r).

(** [domain, err := net.LookupAddr(...); if err != nil { domain =
    append(domain, ".") }]. *)
Definition resolved (lk : net.lookup) : list string :=
  if net.failed lk then net.names lk ++ ["."%string] else net.names lk.

(** The inner loop [for v := 0; v < len(domain); v++] at the index [i] of
    the outer one. The suffix is [allowed[i]], looked up in every turn: an
    index outside the list panics. *)
Fixpoint match_names (allowed : list string) (i : nat) (daddr : Z)
  (domain : list string) : M unit :=
  match domain with
  | [] => ret tt
  | name :: domain' =>
      match allowed !! i with
      | None => halt (Panic (IndexOutOfRange i (length allowed)))
      | Some suffix =>
          (if strings.Contains name suffix then
             let ipUint32 := utils.IntToIP daddr in
             map_put AllowMap (ebpf.IPBytes ipUint32) (ebpf.U32 1) ;;
             emit (Log Info (MsgAdd ipUint32))
           else ret tt) ;;
          match_names allowed i daddr domain'
      end
  end.

(** The outer loop [for i := 0; i < bound; i++], with [left] turns to go. *)
Fixpoint match_suffixes (left i : nat) (allowed : list string) (daddr : Z)
  (domain : list string) : M unit :=
  match left with
  | O => ret tt
  | S left' =>
      match_names allowed i daddr domain ;;
      match_suffixes left' (S i) allowed daddr domain
  end.

Inductive next := Continue | GotoExit.

(** One turn of the main loop, for the read it gets and the answer the
    resolver would give. [bound] is the bound of the outer matching loop and
    [allowed] the list it indexes. *)
Definition iteration (bound : nat) (allowed : list string)
  (rd : read_result * net.lookup) : M next :=
  let '(r, lk) := rd in
  match r with
  | ReadErrClosed => ret GotoExit
  | _ =>
      (match r with
       | ReadErrOther => emit (Log Error MsgReadError)
       | _ => ret tt
       end) ;;
      let RawSample := match r with ReadOk raw => raw | _ => [] end in
      match binary_Read RawSample with
      | inl e => emit (Log Print (MsgParseError e)) ;; ret Continue
      | inr event =>
          let domain := resolved lk in
          match_suffixes bound 0 allowed (Daddr event) domain ;;
          emit (Log Info (MsgEvent event domain)) ;;
          ret Continue
      end
  end.

(** The main loop over the reads to come; it is left for [EXIT] or by a
    stop, and waits when there is nothing to read. *)
Fixpoint event_loop (bound : nat) (allowed : list string)
  (rs : list (read_result * net.lookup)) : M unit :=
  match rs with
  | [] => halt Block
  | rd :: rs' =>
      n <- iteration bound allowed rd ;;
      match n with
      | GotoExit => ret tt
      | Continue => event_loop bound allowed rs'
      end
  end.

(** From the label [EXIT] to [return nil]. The reader is closed by the
    signal handler only, after it has posted to [done]. *)
Definition exit_path : M unit :=
  emit WaitDone ;;
  emit (Println "----") ;;
  emit (Println "") ;;
  emit ReporterPrint ;;
  emit ReporterClean ;;
  emit (Println "----") ;;
  halt (Return None).

(* ===================================================================== *)
(** * package kntrl *)
(* ===================================================================== *)

Module kntrl.

Definition allowedHosts : list string := [".github.com"; ".kondukto.io"]%string.

(** The body of [func Run(mode uint32, hosts []net.IP) error]. *)
Definition body (w : world) (mode : Z) (hosts : list net.IP) : M unit :=
  defer DClean ;;
  emit ReporterNew ;;
  return_if (negb (IsRoot w)) ErrNotRoot ;;
  emit RemoveMemlock ;;
  return_if (negb (RemoveMemlock_ok w)) ErrMemlock ;;
  spec <- ebpfProgram.load w ;;
  link_programs w spec ;;
  map_put ModeMap (ebpf.U32 0) (ebpf.U32 mode) ;;
  seed_allow_map hosts ;;
  open_reader w OpenedEvents ;;
  open_reader w ClosedEvents ;;
  emit SignalNotify ;;
  event_loop (length allowedHosts) allowedHosts (reads w) ;;
  exit_path.

Definition Run (w : world) (mode : Z) (hosts : list net.IP)
  : outcome * state :=
  finish (body w mode hosts initial).

End kntrl.

(* ===================================================================== *)
(** * package tracer *)
(* ===================================================================== *)

Module tracer.

(** The constants of package [domain] and [utils.ParseHosts] are not part
    of the files at hand: the names of the two modes, the codes written to
    the mode map, and the parser of the hosts flag ([None] is its
    error). *)
Record config := mkConfig {
  TracerModeMonitor : string;
  TracerModeTrace : string;
  TracerModeIndexMonitor : Z;
  TracerModeIndexTrace : Z;
  ParseHosts : string -> option (list net.IP)
}.

Definition allowedHostsAddress : list string :=
  [".github.com"; ".kondukto.io"]%string.

(** [switch tracerMode]: the code of the mode goes to the mode map. *)
Definition set_mode (cfg : config) (tracerMode : string) : M unit :=
  if String.eqb tracerMode (TracerModeTrace cfg) then
    map_put ModeMap (ebpf.U32 0)
            (ebpf.U32 (uint32 (TracerModeIndexTrace cfg)))
  else if String.eqb tracerMode (TracerModeMonitor cfg) then
    map_put ModeMap (ebpf.U32 0)
            (ebpf.U32 (uint32 (TracerModeIndexMonitor cfg)))
  else halt (Return (Some (ErrModeInvalid tracerMode))).

(** The body of [func Run(cmd cobra.Command) error], for the values of
    the flags [mode] and [hosts]. *)
Definition body (cfg : config) (w : world) (tracerMode allowedHosts : string)
  : M unit :=
  return_if (String.eqb tracerMode "") ErrModeRequired ;;
  return_if (negb (String.eqb tracerMode (TracerModeMonitor cfg)) &&
             negb (String.eqb tracerMode (TracerModeTrace cfg)))
            (ErrModeInvalid tracerMode) ;;
  (if String.eqb allowedHosts "" then emit (Log Debug MsgNoHosts)
   else ret tt) ;;
  allowedIPS <- match ParseHosts cfg allowedHosts with
                | Some ips => ret ips
                | None => halt (Return (Some ErrParseHosts))
                end ;;
  return_if (negb (IsRoot w)) ErrNotRoot ;;
  spec <- ebpfman.Load w ;;
  defer DClientClean ;;
  set_mode cfg tracerMode ;;
  seed_allow_map allowedIPS ;;
  open_reader w OpenedEvents ;;
  open_reader w ClosedEvents ;;
  emit ReporterNew ;;
  (if NewReporter_ok w then ret tt else Fatalf MsgReporterFailed) ;;
  emit RemoveMemlock ;;
  return_if (negb (RemoveMemlock_ok w)) ErrMemlock ;;
  link_programs w spec ;;
  emit SignalNotify ;;
  event_loop (String.length allowedHosts) allowedHostsAddress (reads w) ;;
  exit_path.

Definition Run (cfg : config) (w : world) (tracerMode allowedHosts : string)
  : outcome * state :=
  finish (body cfg w tracerMode allowedHosts initial).

End tracer.

(* ===================================================================== *)
(** * A world to run in *)
(* ===================================================================== *)

Module sample.

(** An empty hash map with 4-byte keys and values. *)
Definition empty_map (cap : nat) : ebpf.Map := ebpf.mkMap 4 4 cap ∅.

(** A freshly loaded collection. *)
Definition loaded_collection : ebpf.Collection :=
  ebpf.mkCollection (empty_map 1) (empty_map 256).

Definition programs : list ebpf.ProgramSpec :=
  [ebpf.mkProgramSpec "tcp_connect" ebpf.Kprobe "tcp_v4_connect";
   ebpf.mkProgramSpec "egress" ebpf.CGroupSKB "";
   ebpf.mkProgramSpec "other" ebpf.OtherType ""]%string.

(** A world in which everything succeeds, for a user who is root or is
    not, and the reads to come. *)
Definition world_of (root : bool) (rs : list (read_result * net.lookup))
  : world :=
  mkWorld root true (Some programs) (Some loaded_collection)
          (fun _ => true) true (fun _ => true) true rs.

(** A configuration of package tracer: the two mode names, their codes,
    and a parser of the hosts flag. *)
Definition cfg : tracer.config :=
  tracer.mkConfig "monitor" "trace" 0 1
                  (fun s => Some (parser.parseAllowedIPAddr s)).

(** A connect to 140.82.121.3:443 by the process 77. *)
Definition event : IP4Event :=
  mkIP4Event (mkEvent 5 77 2 (replicate 16 x61)) 58282636 443.

(** The resolver finds a name under github.com. *)
Definition github : net.lookup :=
  net.mkLookup ["lb-140-82-121-3-fra.github.com."%string] false.

(** The resolver fails. *)
Definition no_name : net.lookup := net.mkLookup [] true.

(** The state of a run that has loaded [loaded_collection] and nothing
    else. *)
Definition loaded : state := mkState [] [] (Some loaded_collection).

End sample.

(* ===================================================================== *)
(** * Notions the properties are stated with *)
(* ===================================================================== *)

(** The allow map of the loaded collection is the map with these sizes,
    this capacity and these entries. *)
Definition allow_map_is (st : state) (ks vs cap : nat)
  (es : gmap bytes bytes) : Prop :=
  exists c, collection st = Some c /\
            ebpf.allow_map c = ebpf.mkMap ks vs cap es.

(** The presence marker, [uint32(1)] as the map stores it. *)
Definition marker : bytes := ebpf.marshal (ebpf.U32 1).

(** The map takes the key: it has it already, or it has room. *)
Definition takes (cap : nat) (es : gmap bytes bytes) (k : bytes) : Prop :=
  is_Some (es !! k) \/ (size es < cap)%nat.

(** Some name in [domain] contains [suffix]. *)
Definition hits (suffix : string) (domain : list string) : bool :=
  existsb (fun name => strings.Contains name suffix) domain.

(** Every field of the comma-separated list that parses is an IPv4
    address: its [To4] is not nil. *)
Definition ipv4_only (ips : string) : Prop :=
  forall f i, In f (strings.Split ips ","%char) ->
              net.ParseIP f = Some i -> net.To4 i <> [].

(** The entries of a map [es] once every address of [hosts] is written
    with the marker. *)
Definition seeded (es : gmap bytes bytes) (hosts : list net.IP)
  : gmap bytes bytes :=
  gset_to_gmap marker (list_to_set hosts) ∪ es.

(** The keys of the writes to the allow map among the calls [t]. *)
Fixpoint allow_puts (t : list effect) : list bytes :=
  match t with
  | [] => []
  | MapPut AllowMap key _ :: t' => key :: allow_puts t'
  | _ :: t' => allow_puts t'
  end.

(** A computation keeps track of the allow map: from whatever state, the
    calls it adds to the trace account for the keys it leaves in the map,
    which are the keys it found and the keys it wrote. *)
Definition tracks {A} (m : M A) : Prop :=
  forall st r st',
    m st = (r, st') ->
    exists t,
      trace st' = trace st ++ t /\
      allow_keys st' = allow_keys st ∪ list_to_set (allow_puts t).

(** What [kntrl.Run] does once the collection is loaded. *)
Definition kntrl_after_load (w : world) (mode : Z) (hosts : list net.IP)
  (spec : list ebpf.ProgramSpec) : M unit :=
  link_programs w spec ;;
  map_put ModeMap (ebpf.U32 0) (ebpf.U32 mode) ;;
  seed_allow_map hosts ;;
  open_reader w OpenedEvents ;;
  open_reader w ClosedEvents ;;
  emit SignalNotify ;;
  event_loop (length kntrl.allowedHosts) kntrl.allowedHosts (reads w) ;;
  exit_path.

(** What [tracer.Run] does once the collection is loaded. *)
Definition tracer_after_load (cfg : tracer.config) (w : world)
  (tracerMode allowedHosts : string) (allowedIPS : list net.IP)
  (spec : list ebpf.ProgramSpec) : M unit :=
  defer DClientClean ;;
  tracer.set_mode cfg tracerMode ;;
  seed_allow_map allowedIPS ;;
  open_reader w OpenedEvents ;;
  open_reader w ClosedEvents ;;
  emit ReporterNew ;;
  (if NewReporter_ok w then ret tt else Fatalf MsgReporterFailed) ;;
  emit RemoveMemlock ;;
  return_if (negb (RemoveMemlock_ok w)) ErrMemlock ;;
  link_programs w spec ;;
  emit SignalNotify ;;
  event_loop (String.length allowedHosts) tracer.allowedHostsAddress
             (reads w) ;;
  exit_path.

(** [m1] ends with no key of the allow map that [m2] ends without. *)
Definition below (m1 m2 : M unit) : Prop :=
  forall st, allow_keys (m1 st).2 ⊆ allow_keys (m2 st).2.

(* ===================================================================== *)
(** * strings: white space, [TrimSpace] and [Fields] *)
(* ===================================================================== *)

(** Go's strings are UTF-8. [unicode.IsSpace] holds of the six ASCII
    characters tab, line feed, vertical tab, form feed, carriage return and
    space, and of U+0085, U+00A0, U+1680, U+2000 to U+200A, U+2028, U+2029,
    U+202F, U+205F and U+3000. The first byte of the encoding of any of these
    is never a continuation byte, so a decoder that walks a string rune by
    rune, an invalid byte counting as one rune, comes to stand on every
    occurrence of such an encoding and on nothing else that decodes to white
    space: the functions below look for the encodings themselves. *)
Module unicode.

(** [asciiSpace[c] == 1]. *)
Definition asciiSpace (c : ascii) : bool :=
  let k := N_of_ascii c in
  ((9 <=? k) && (k <=? 13) || (k =? 32))%N.

(** The width in bytes of the white-space rune the bytes [s] begin with,
    [0] when they begin with none. *)
Definition space_width (s : list ascii) : nat :=
  match s with
  | [] => 0
  | c :: r =>
      if asciiSpace c then 1
      else
        match N_of_ascii c, r with
        | 194%N, d :: _ =>                         (* C2 85, C2 A0 *)
            let d := N_of_ascii d in
            if ((d =? 133) || (d =? 160))%N then 2 else 0
        | 225%N, d :: e :: _ =>                    (* E1 9A 80 *)
            if ((N_of_ascii d =? 154) && (N_of_ascii e =? 128))%N
            then 3 else 0
        | 226%N, d :: e :: _ =>                    (* E2 80 xx, E2 81 9F *)
            let d := N_of_ascii d in
            let e := N_of_ascii e in
            if ((d =? 128) &&
                ((128 <=? e) && (e <=? 138) || (e =? 168) || (e =? 169)
                 || (e =? 175)))%N
            then 3
            else if ((d =? 129) && (e =? 159))%N then 3 else 0
        | 227%N, d :: e :: _ =>                    (* E3 80 80 *)
            if ((N_of_ascii d =? 128) && (N_of_ascii e =? 128))%N
            then 3 else 0
        | _, _ => 0
        end
  end%nat.

(** The same for the bytes [s] read backwards from the end of a string:
    the width of the white-space rune the string ends with. *)
Definition space_width_rev (s : list ascii) : nat :=
  match s with
  | [] => 0
  | c :: r =>
      if asciiSpace c then 1
      else
        match r with
        | d :: r' =>
            if space_width [d; c] =? 2 then 2
            else
              match r' with
              | e :: _ => if space_width [e; d; c] =? 3 then 3 else 0
              | [] => 0
              end
        | [] => 0
        end
  end%nat.

End unicode.

Module strings_space.

(** The bytes of [s] after its leading white space; [skip] bytes are
    still to be passed over. *)
Fixpoint trim_left (skip : nat) (s : list ascii) : list ascii :=
  match s with
  | [] => []
  | c :: r =>
      match skip with
      | S k => trim_left k r
      | O =>
          match unicode.space_width s with
          | O => s
          | S w => trim_left w r
          end
      end
  end.

(** The same from the end, on the bytes read backwards. *)
Fixpoint trim_left_rev (skip : nat) (s : list ascii) : list ascii :=
  match s with
  | [] => []
  | c :: r =>
      match skip with
      | S k => trim_left_rev k r
      | O =>
          match unicode.space_width_rev s with
          | O => s
          | S w => trim_left_rev w r
          end
      end
  end.

(** [strings.TrimSpace(s)]: [s] without its leading and trailing white
    space. *)
Definition TrimSpace (s : string) : string :=
  let l := trim_left 0 (list_ascii_of_string s) in
  string_of_list_ascii (rev (trim_left_rev 0 (rev l))).

(** The fields of the bytes [s], the field being read [cur] kept in
    reverse; [skip] bytes of white space are still to be passed over. *)
Fixpoint fields_from (skip : nat) (cur : list ascii) (s : list ascii)
  : list string :=
  let close :=
    match cur with
    | [] => []
    | _ => [string_of_list_ascii (rev cur)]
    end in
  match s with
  | [] => close
  | c :: r =>
      match skip with
      | S k => fields_from k cur r
      | O =>
          match unicode.space_width s with
          | O => fields_from 0 (c :: cur) r
          | S w => close ++ fields_from w [] r
          end
      end
  end.

(** [strings.Fields(s)]: the maximal runs of [s] without white space. *)
Definition Fields (s : string) : list string :=
  fields_from 0 [] (list_ascii_of_string s).

End strings_space.

(* ===================================================================== *)
(** * parser (pkg/parser/flag.go), the rest *)
(* ===================================================================== *)

Module domain.

(** [domain.Data], with the fields [ToDataJson] fills in. The type is
    declared in internal/core/domain, which is not part of the files at
    hand; the field types are those of the values assigned. *)
Record Data := mkData {
  AllowedHosts : list string;
  AllowedIPs : list net.IP;
  AllowGithubMeta : bool;
  AllowLocalIPRanges : bool
}.

End domain.

Module flag.

(** [parseAllowedHosts(hosts)]: the fields between commas, each
    trimmed. *)
Definition parseAllowedHosts (hosts : string) : list string :=
  map strings_space.TrimSpace (strings.Split hosts ","%char).

(** What [getDNSServers] finds at /etc/resolv.conf: the file cannot be
    opened, or the scanner gives these lines, one [scanner.Text()] each,
    and ends with an error ([scanner.Err() != nil]) or without. *)
Inductive resolv_conf :=
| OpenFails
| Scanned (lines : list string) (failed : bool).

(** The body of [for scanner.Scan()] for one line, [srvhosts] and
    [srvips] being what was collected before. *)
Definition scan_line (line : string) (acc : list string * list net.IP)
  : list string * list net.IP :=
  let '(srvhosts, srvips) := acc in
  match strings_space.Fields line with
  | f0 :: f1 :: _ =>
      if String.eqb f0 "nameserver" then
        match net.ParseIP f1 with
        | None => (srvhosts ++ [f1], srvips)
        | Some ip => (srvhosts, srvips ++ [ip])
        end
      else acc
  | _ => acc
  end.

(** [getDNSServers()]. *)
Definition getDNSServers (f : resolv_conf) : list string * list net.IP :=
  match f with
  | OpenFails => ([], [])
  | Scanned lines failed =>
      let res := fold_left (fun acc line => scan_line line acc)
                           lines ([], []) in
      if failed then ([], []) else res
  end.

(** [ToDataJson(allowed_hosts, allowed_ips, ghrange, localrange)]. *)
Definition ToDataJson (f : resolv_conf) (allowed_hosts allowed_ips : string)
  (ghrange localrange : bool) : domain.Data :=
  let '(hosts, ips) := getDNSServers f in
  domain.mkData (hosts ++ parseAllowedHosts allowed_hosts)
                (ips ++ parser.parseAllowedIPAddr allowed_ips)
                ghrange localrange.

End flag.

(* ===================================================================== *)
(** * More notions the properties are stated with *)
(* ===================================================================== *)

(** [m] adds to the trace only calls of which [P] holds. *)
Definition adds (P : effect -> Prop) {A} (m : M A) : Prop :=
  forall st r st',
    m st = (r, st') -> exists t, trace st' = trace st ++ t /\ Forall P t.

(** [m] leaves [f] of the state as it finds it. *)
Definition keeps {X} (f : state -> X) {A} (m : M A) : Prop :=
  forall st r st', m st = (r, st') -> f st' = f st.

(** When [m] stops, it stops in one of the ways [S]. *)
Definition stops_in (S : stop -> Prop) {A} (m : M A) : Prop :=
  forall st s st', m st = (inr s, st') -> S s.

(** The program is of one of the four kinds the link loop knows. *)
Definition recognized (p : ebpf.ProgramSpec) : bool :=
  match ebpf.Type_ p with
  | ebpf.OtherType => false
  | _ => true
  end.

(** Linking the program goes through in the world [w]. *)
Definition attachable (w : world) (p : ebpf.ProgramSpec) : bool :=
  match ebpf.Type_ p with
  | ebpf.Kprobe | ebpf.Tracing | ebpf.TracePoint => attach_ok w (ebpf.Name p)
  | ebpf.CGroupSKB => cgroup_open_ok w && attach_ok w (ebpf.Name p)
  | ebpf.OtherType => true
  end.

(** The calls of a turn of the link loop that goes through. *)
Definition link_trace (p : ebpf.ProgramSpec) : list effect :=
  let name := ebpf.Name p in
  Log Debug (MsgLoaded name) ::
  match ebpf.Type_ p with
  | ebpf.OtherType => [Log Warn (MsgUnrecognized name)]
  | ebpf.CGroupSKB =>
      [Log Info (MsgLinking ebpf.CGroupSKB name); CgroupOpen; Attach name]
  | t => [Log Info (MsgLinking t name); Attach name]
  end.

(** The calls it defers, the latest first. *)
Definition closes_of (p : ebpf.ProgramSpec) : list deferred_call :=
  match ebpf.Type_ p with
  | ebpf.OtherType => []
  | ebpf.CGroupSKB => [DCgroupClose; DLinkClose (ebpf.Name p)]
  | _ => [DLinkClose (ebpf.Name p)]
  end.

(** The calls of a turn of the link loop that fails, and the error it
    returns. *)
Definition link_failure (w : world) (p : ebpf.ProgramSpec)
  : list effect * error :=
  let name := ebpf.Name p in
  match ebpf.Type_ p with
  | ebpf.CGroupSKB =>
      if cgroup_open_ok w then
        ([Log Debug (MsgLoaded name);
          Log Info (MsgLinking ebpf.CGroupSKB name); CgroupOpen; Attach name],
         ErrAttach name)
      else
        ([Log Debug (MsgLoaded name);
          Log Info (MsgLinking ebpf.CGroupSKB name); CgroupOpen],
         ErrCgroupOpen)
  | t =>
      ([Log Debug (MsgLoaded name); Log Info (MsgLinking t name); Attach name],
       ErrAttach name)
  end.

(** The call a deferred call makes on a loaded collection. *)
Definition release (d : deferred_call) : effect :=
  match d with
  | DClean | DClientClean => CollectionClose
  | DLinkClose name => LinkClose name
  | DCgroupClose => CgroupClose
  | DReaderClose r => ReaderClose r
  end.

(** The names of the programs attached among the calls [t]. *)
Fixpoint attached (t : list effect) : list string :=
  match t with
  | [] => []
  | Attach name :: t' => name :: attached t'
  | _ :: t' => attached t'
  end.

(** The names of the programs warned about among the calls [t]. *)
Fixpoint warned (t : list effect) : list string :=
  match t with
  | [] => []
  | Log Warn (MsgUnrecognized name) :: t' => name :: warned t'
  | _ :: t' => warned t'
  end.

(** What the main loop and the seeding leave alone: the deferred calls and
    the mode map of the collection ([None] while there is no collection). *)
Definition frame (st : state) : list deferred_call * option ebpf.Map :=
  (deferred st, option_map ebpf.mode_map (collection st)).

(** A stop that ends the process: [Fatalf] or a panic. *)
Definition fatal (s : stop) : Prop :=
  match s with
  | Exit | Panic _ => True
  | _ => False
  end.

(** An error of the link loop. *)
Definition link_error (e : error) : Prop :=
  e = ErrCgroupOpen \/ exists name, e = ErrAttach name.

(** The stops of [kntrl.Run] once the collection is loaded. *)
Definition kntrl_stop (s : stop) : Prop :=
  match s with
  | Return (Some e) => link_error e
  | _ => True
  end.

(** The number of control groups opened, and closed, among the calls
    [t]. *)
Fixpoint cgroup_opens (t : list effect) : nat :=
  match t with
  | [] => 0
  | CgroupOpen :: t' => S (cgroup_opens t')
  | _ :: t' => cgroup_opens t'
  end.

Fixpoint cgroup_closes (t : list effect) : nat :=
  match t with
  | [] => 0
  | CgroupClose :: t' => S (cgroup_closes t')
  | _ :: t' => cgroup_closes t'
  end.

(** The state of [kntrl.Run] right after [load]. *)
Definition kntrl_loaded (c0 : ebpf.Collection) : state :=
  mkState [ReporterNew; RemoveMemlock; LoadArtifact] [DClean] (Some c0).

(** The calls from the label [EXIT] to the return. *)
Definition exit_calls : list effect :=
  [WaitDone; Println "----"; Println ""; ReporterPrint; ReporterClean;
   Println "----"].

(** The calls that give back what a run holds. *)
Definition releases (e : effect) : bool :=
  match e with
  | CollectionClose | LinkClose _ | CgroupClose | ReaderClose _ => true
  | _ => false
  end.

(** The writes to the maps among the calls [t]: the map, the key and the
    value of each, in the order of the calls. *)
Fixpoint puts (t : list effect) : list (map_name * bytes * bytes) :=
  match t with
  | [] => []
  | MapPut m key value :: t' => (m, key, value) :: puts t'
  | _ :: t' => puts t'
  end.

(** The call writes nothing to a map. *)
Definition no_put (e : effect) : Prop :=
  match e with
  | MapPut _ _ _ => False
  | _ => True
  end.

(** The call writes nothing to a map, unless it is the presence marker and
    the map is the allow map. *)
Definition marks_only (e : effect) : Prop :=
  match e with
  | MapPut ModeMap _ _ => False
  | MapPut AllowMap _ value => value = LittleEndian.PutUint32 1
  | _ => True
  end.

(** [m] extends the trace by calls [t] of which [Q] holds. *)
Definition extends (Q : list effect -> Prop) {A} (m : M A) : Prop :=
  forall st r st', m st = (r, st') -> exists t, trace st' = trace st ++ t /\ Q t.

(** Among the calls [t] nothing is written, or the first write puts
    [value] at [key] of the mode map and every later one marks a key of the
    allow map. *)
Definition writes_mode_first (key value : bytes) (t : list effect) : Prop :=
  puts t = [] \/
  puts t = (ModeMap, key, value)
             :: map (fun k => (AllowMap, k, LittleEndian.PutUint32 1))
                    (allow_puts t).

(** More worlds to run in. *)
Module scenario.

(** Everything succeeds but the attachment of the program [egress]. *)
Definition egress_fails : world :=
  mkWorld true true (Some sample.programs) (Some sample.loaded_collection)
          (fun name => negb (String.eqb name "egress")) true
          (fun _ => true) true [].

(** Everything succeeds but the opening of the second reader. *)
Definition reader_fails : world :=
  mkWorld true true (Some sample.programs) (Some sample.loaded_collection)
          (fun _ => true) true
          (fun r => match r with OpenedEvents => true | ClosedEvents => false end)
          true [].

(** Everything succeeds but the lifting of the memory limit. *)
Definition memlock_fails : world :=
  mkWorld true false (Some sample.programs) (Some sample.loaded_collection)
          (fun _ => true) true (fun _ => true) true [].

(** The address 10.0.0.1 as [net.ParseIP] returns it. *)
Definition unnarrowed : net.IP :=
  replicate 10 x00 ++ [xff; xff; x0a; x00; x00; x01].

(** A freshly loaded collection whose allow map has room for two
    entries. *)
Definition small_collection : ebpf.Collection :=
  ebpf.mkCollection (sample.empty_map 1) (sample.empty_map 2).

Definition small : state := mkState [] [] (Some small_collection).

(** A collection whose allow map has room for one entry and holds one. *)
Definition full_collection : ebpf.Collection :=
  ebpf.mkCollection
    (sample.empty_map 1)
    (ebpf.mkMap 4 4 1 {[ [x0a; x00; x00; x01] := [x01; x00; x00; x00] ]}).

Definition full : state := mkState [] [] (Some full_collection).

End scenario.

(** The code that [tracer.Run] writes to the mode map for a mode it
    accepts. *)
Definition tracer_code (cfg : tracer.config) (tracerMode : string) : Z :=
  if String.eqb tracerMode (tracer.TracerModeTrace cfg)
  then uint32 (tracer.TracerModeIndexTrace cfg)
  else uint32 (tracer.TracerModeIndexMonitor cfg).

(** The number of commas in [s]. *)
Fixpoint commas (s : string) : nat :=
  match s with
  | EmptyString => 0
  | String c s' => (if Ascii.eqb c "," then 1 else 0) + commas s'
  end.

(** The three addresses [parseAllowedIPAddr] appends: 127.0.0.1,
    169.254.169.254 and 168.63.129.16. *)
Definition fixed_addresses : list net.IP :=
  [[x7f; x00; x00; x01]; [xa9; xfe; xa9; xfe]; [xa8; x3f; x81; x10]].

(** The name server a line of resolv.conf names: its second field, when
    the first is [nameserver]. *)
Definition nameserver_of (line : string) : option string :=
  match strings_space.Fields line with
  | f0 :: f1 :: _ => if String.eqb f0 "nameserver" then Some f1 else None
  | _ => None
  end.

(** The name servers [getDNSServers] goes through: those of the lines
    scanned, in their order, and none when the file cannot be opened or the
    scanner ends with an error. *)
Definition nameservers (f : flag.resolv_conf) : list string :=
  match f with
  | flag.Scanned lines false => omap nameserver_of lines
  | _ => []
  end.

(** [net.ParseIP(f) == nil]. *)
Definition unparsed (f : string) : bool :=
  match net.ParseIP f with
  | None => true
  | Some _ => false
  end.

(** The bytes [l] neither begin nor end with white space. *)
Definition trimmed (l : list ascii) : Prop :=
  unicode.space_width l = 0%nat /\ unicode.space_width_rev (rev l) = 0%nat.

(** The errors [tracer.Run] returns before it loads anything. *)
Definition before_load (e : error) : Prop :=
  e = ErrModeRequired \/ (exists m, e = ErrModeInvalid m) \/
  e = ErrParseHosts \/ e = ErrNotRoot.

(** The state of [tracer.Run] right after [Load], for the hosts flag
    [allowedHosts]. *)
Definition tracer_loaded (allowedHosts : string) (c0 : ebpf.Collection)
  : state :=
  mkState ((if String.eqb allowedHosts "" then [Log Debug MsgNoHosts] else [])
             ++ [LoadArtifact])
          [] (Some c0).

(* ===================================================================== *)
(** * Bytes and little-endian integers *)
(* ===================================================================== *)

Section Binary.

Lemma byte_to_Z_range b : 0 <= byte_to_Z b < 256.
Proof.
  unfold byte_to_Z. pose proof (Byte.to_N_bounded b). lia.
Qed.

Lemma byte_to_of_Z z : byte_to_Z (byte_of_Z z) = z mod 2 ^ 8.
Proof.
  unfold byte_to_Z, byte_of_Z. change (2 ^ 8) with 256.
  assert (Hr : 0 <= z mod 256 < 256) by (apply Z.mod_pos_bound; lia).
  destruct (Byte.of_N (Z.to_N (z mod 256))) as [b |] eqn:E.
  - apply Byte.to_of_N in E. rewrite E. lia.
  - apply Byte.of_N_None_iff in E. lia.
Qed.

Lemma byte_of_to_Z b : byte_of_Z (byte_to_Z b) = b.
Proof.
  unfold byte_of_Z. pose proof (byte_to_Z_range b) as Hr.
  rewrite Z.mod_small by lia. unfold byte_to_Z.
  rewrite N2Z.id, Byte.of_to_N. reflexivity.
Qed.

Lemma byte_of_Z_mod z : byte_of_Z (z mod 2 ^ 8) = byte_of_Z z.
Proof.
  unfold byte_of_Z. change (2 ^ 8) with 256.
  rewrite Z.mod_mod by lia. reflexivity.
Qed.

Lemma byte_to_Z_mod b : byte_to_Z b = byte_to_Z b mod 2 ^ 8.
Proof. rewrite Z.mod_small; [reflexivity | apply byte_to_Z_range]. Qed.

(** The bits of a byte. *)
Lemma byte_testbit b n :
  0 <= n -> Z.testbit (byte_to_Z b) n = (n <? 8) && Z.testbit (byte_to_Z b) n.
Proof.
  intros Hn. rewrite (byte_to_Z_mod b) at 1.
  rewrite Z.testbit_mod_pow2 by lia. reflexivity.
Qed.

Lemma byte_testbit_high b n : 8 <= n -> Z.testbit (byte_to_Z b) n = false.
Proof.
  intros Hn. rewrite byte_testbit by lia.
  destruct (Z.ltb_spec n 8); [lia | reflexivity].
Qed.

Lemma byte_of_Z_ext x y :
  (forall n, 0 <= n < 8 -> Z.testbit x n = Z.testbit y n) ->
  byte_of_Z x = byte_of_Z y.
Proof.
  intros H. rewrite <- (byte_of_Z_mod x), <- (byte_of_Z_mod y). f_equal.
  apply Z.bits_inj'. intros n Hn. rewrite !Z.testbit_mod_pow2 by lia.
  destruct (Z.ltb_spec n 8); [| reflexivity]. simpl. apply H. lia.
Qed.

End Binary.

Section BinaryRoundTrip.

(** One more byte on top of the low [k] bits. *)
Lemma lor_next_byte v k k' :
  0 <= k -> k' = k + 8 ->
  Z.lor (v mod 2 ^ k) (Z.shiftl (Z.shiftr v k mod 2 ^ 8) k)
  = v mod 2 ^ k'.
Proof.
  intros Hk ->. apply Z.bits_inj'. intros n Hn.
  rewrite Z.lor_spec, Z.shiftl_spec by lia.
  rewrite !Z.testbit_mod_pow2 by lia.
  destruct (Z.ltb_spec n k) as [Hlt | Hge].
  - rewrite (Z.testbit_neg_r _ (n - k)) by lia.
    destruct (Z.ltb_spec n (k + 8)); [| lia].
    simpl. rewrite andb_false_r. apply orb_false_r.
  - rewrite Z.shiftr_spec by lia.
    replace (n - k + k) with n by lia. simpl.
    destruct (Z.ltb_spec (n - k) 8), (Z.ltb_spec n (k + 8));
      try lia; reflexivity.
Qed.

Lemma Uint16_PutUint16 v :
  LittleEndian.Uint16 (LittleEndian.PutUint16 v) = Some (uint16 v).
Proof.
  unfold LittleEndian.PutUint16, LittleEndian.Uint16, uint16. f_equal.
  rewrite !byte_to_of_Z.
  apply (lor_next_byte v 8 16); lia.
Qed.

Lemma Uint32_PutUint32 v :
  LittleEndian.Uint32 (LittleEndian.PutUint32 v) = Some (uint32 v).
Proof.
  unfold LittleEndian.PutUint32, LittleEndian.Uint32, uint32. f_equal.
  rewrite !byte_to_of_Z.
  rewrite (lor_next_byte v 8 16), (lor_next_byte v 16 24) by lia.
  apply (lor_next_byte v 24 32); lia.
Qed.

Lemma Uint64_PutUint64 v :
  LittleEndian.Uint64 (LittleEndian.PutUint64 v) = Some (uint64 v).
Proof.
  unfold LittleEndian.PutUint64, LittleEndian.Uint64, uint64. f_equal.
  rewrite !byte_to_of_Z.
  rewrite (lor_next_byte v 8 16), (lor_next_byte v 16 24),
    (lor_next_byte v 24 32), (lor_next_byte v 32 40), (lor_next_byte v 40 48),
    (lor_next_byte v 48 56) by lia.
  apply (lor_next_byte v 56 64); lia.
Qed.

(** The bit [n] of a byte moved up by [s] bits and read [t] bits up. *)
Lemma byte_shifted_bit b s t n :
  0 <= n < 8 -> 0 <= s -> 0 <= t ->
  Z.testbit (Z.shiftl (byte_to_Z b) s) (n + t)
  = if Z.eqb s t then Z.testbit (byte_to_Z b) n else
      if Z.ltb (n + t - s) 0 then false
      else Z.testbit (byte_to_Z b) (n + t - s).
Proof.
  intros Hn Hs Ht. rewrite Z.shiftl_spec by lia.
  destruct (Z.eqb_spec s t) as [-> | Hne].
  - f_equal. lia.
  - destruct (Z.ltb_spec (n + t - s) 0); [| reflexivity].
    apply Z.testbit_neg_r. lia.
Qed.

(** The four bytes of an address are the bytes of its little-endian
    integer. *)
Lemma byte_of_Z_eq x b :
  (forall n, 0 <= n < 8 -> Z.testbit x n = Z.testbit (byte_to_Z b) n) ->
  byte_of_Z x = b.
Proof.
  intros H. rewrite <- (byte_of_to_Z b). apply byte_of_Z_ext, H.
Qed.

(** The four bytes of an address are the bytes of its little-endian
    integer. *)
Lemma PutUint32_Uint32 a b c d rest v :
  LittleEndian.Uint32 (a :: b :: c :: d :: rest) = Some v ->
  LittleEndian.PutUint32 v = [a; b; c; d].
Proof.
  unfold LittleEndian.Uint32, LittleEndian.PutUint32.
  intros [= <-].
  repeat f_equal; apply byte_of_Z_eq; intros n Hn;
    rewrite ?Z.shiftr_spec by lia; rewrite !Z.lor_spec;
    rewrite <- (Z.shiftl_0_r (byte_to_Z a));
    try (rewrite <- (Z.add_0_r n) at 1 2 3 4);
    rewrite !byte_shifted_bit by lia; simpl;
    rewrite ?Z.add_0_r;
    repeat match goal with
      | |- context [Z.ltb ?x 0] => destruct (Z.ltb_spec x 0); try lia
      | |- context [Z.testbit (byte_to_Z ?y) (?k - ?j)] =>
          rewrite (byte_testbit_high y (k - j)) by lia
      end;
    rewrite ?orb_false_r, ?orb_false_l; reflexivity.
Qed.

End BinaryRoundTrip.

(* ===================================================================== *)
(** * Decoding event records *)
(* ===================================================================== *)

Section Decoding.

Lemma Uint16_is_Some b :
  (2 <= length b)%nat -> is_Some (LittleEndian.Uint16 b).
Proof.
  destruct b as [| b0 [| b1 b]]; simpl; intros H; try lia. eauto.
Qed.

Lemma Uint32_is_Some b :
  (4 <= length b)%nat -> is_Some (LittleEndian.Uint32 b).
Proof.
  destruct b as [| b0 [| b1 [| b2 [| b3 b]]]]; simpl; intros H; try lia.
  eauto.
Qed.

Lemma Uint64_is_Some b :
  (8 <= length b)%nat -> is_Some (LittleEndian.Uint64 b).
Proof.
  destruct b as [| b0 [| b1 [| b2 [| b3 [| b4 [| b5 [| b6 [| b7 b]]]]]]]];
    simpl; intros H; try lia.
  eauto.
Qed.

Lemma length_slice lo n (b : bytes) :
  (lo + n <= length b)%nat -> length (slice lo n b) = n.
Proof.
  intros H. unfold slice. rewrite length_take, length_drop. lia.
Qed.

(** A record shorter than the layout does not decode. *)
Lemma binary_Read_short raw :
  (length raw < IP4Event_size)%nat ->
  binary_Read raw = inl (match raw with [] => EOF | _ => ErrUnexpectedEOF end).
Proof.
  intros H. unfold binary_Read. destruct raw as [| b raw]; [reflexivity |].
  destruct (Nat.ltb_spec (length (b :: raw)) IP4Event_size); [reflexivity | lia].
Qed.

Lemma decode_IP4Event_is_inr bs :
  length bs = IP4Event_size -> exists e, decode_IP4Event bs = inr e.
Proof.
  unfold IP4Event_size, decode_IP4Event. intros Hbs.
  destruct (Uint64_is_Some (slice 0 8 bs)) as [ts ->];
    [rewrite length_slice; lia |].
  destruct (Uint32_is_Some (slice 8 4 bs)) as [pid ->];
    [rewrite length_slice; lia |].
  destruct (Uint16_is_Some (slice 12 2 bs)) as [af ->];
    [rewrite length_slice; lia |].
  destruct (Uint32_is_Some (slice 30 4 bs)) as [daddr ->];
    [rewrite length_slice; lia |].
  destruct (Uint16_is_Some (slice 34 2 bs)) as [dport ->];
    [rewrite length_slice; lia |].
  eauto.
Qed.

Lemma binary_Read_enough raw :
  (IP4Event_size <= length raw)%nat ->
  binary_Read raw = decode_IP4Event (take IP4Event_size raw).
Proof.
  intros H. unfold binary_Read.
  destruct raw as [| b raw]; [simpl in H; unfold IP4Event_size in H; lia |].
  destruct (Nat.ltb_spec (length (b :: raw)) IP4Event_size); [lia |].
  reflexivity.
Qed.

(** A record at least as long as the layout decodes, from its first 36
    bytes alone. *)
Lemma binary_Read_long raw :
  (IP4Event_size <= length raw)%nat ->
  exists e, binary_Read raw = inr e /\
            binary_Read (take IP4Event_size raw) = inr e.
Proof.
  intros H.
  assert (Hbs : length (take IP4Event_size raw) = IP4Event_size)
    by (rewrite length_take; lia).
  destruct (decode_IP4Event_is_inr _ Hbs) as [e He].
  exists e. rewrite !binary_Read_enough by lia.
  rewrite take_take, Nat.min_id. auto.
Qed.

Lemma uint16_id v : is_uint16 v -> uint16 v = v.
Proof. intros H. apply Z.mod_small, H. Qed.

Lemma uint32_id v : is_uint32 v -> uint32 v = v.
Proof. intros H. apply Z.mod_small, H. Qed.

Lemma uint64_id v : is_uint64 v -> uint64 v = v.
Proof. intros H. apply Z.mod_small, H. Qed.

Lemma length_16 {A} (l : list A) :
  length l = 16%nat ->
  exists x0 x1 x2 x3 x4 x5 x6 x7 x8 x9 xa xb xc xd xe xf,
    l = [x0; x1; x2; x3; x4; x5; x6; x7; x8; x9; xa; xb; xc; xd; xe; xf].
Proof.
  intros H.
  do 16 (destruct l as [| ? l]; [discriminate H |]).
  destruct l; [| discriminate H].
  repeat eexists.
Qed.

End Decoding.

(** C7. An event whose fields are within their widths and whose task name
    has 16 bytes, written in the layout of section 6 and read back by
    [binary.Read], is the same event. *)
Theorem IP4Event_round_trip e :
  wf_IP4Event e -> binary_Read (encode_IP4Event e) = inr e.
Proof.
  destruct e as [[ts pid af task] daddr dport].
  intros (Hts & Hpid & Haf & Htask & Hdaddr & Hdport). simpl in *.
  destruct (length_16 task Htask)
    as (x0 & x1 & x2 & x3 & x4 & x5 & x6 & x7 & x8 & x9 & xa & xb & xc
        & xd & xe & xf & ->).
  unfold encode_IP4Event, binary_Read, decode_IP4Event. simpl Header. simpl TsUs.
  simpl Pid. simpl Af. simpl Task. simpl Daddr. simpl Dport.
  unfold LittleEndian.PutUint64, LittleEndian.PutUint32,
    LittleEndian.PutUint16.
  cbn [app length Nat.ltb Nat.leb IP4Event_size slice take drop firstn skipn].
  change [byte_of_Z ts; byte_of_Z (Z.shiftr ts 8);
          byte_of_Z (Z.shiftr ts 16); byte_of_Z (Z.shiftr ts 24);
          byte_of_Z (Z.shiftr ts 32); byte_of_Z (Z.shiftr ts 40);
          byte_of_Z (Z.shiftr ts 48); byte_of_Z (Z.shiftr ts 56)]
    with (LittleEndian.PutUint64 ts).
  change [byte_of_Z pid; byte_of_Z (Z.shiftr pid 8);
          byte_of_Z (Z.shiftr pid 16); byte_of_Z (Z.shiftr pid 24)]
    with (LittleEndian.PutUint32 pid).
  change [byte_of_Z daddr; byte_of_Z (Z.shiftr daddr 8);
          byte_of_Z (Z.shiftr daddr 16); byte_of_Z (Z.shiftr daddr 24)]
    with (LittleEndian.PutUint32 daddr).
  change [byte_of_Z af; byte_of_Z (Z.shiftr af 8)]
    with (LittleEndian.PutUint16 af).
  change [byte_of_Z dport; byte_of_Z (Z.shiftr dport 8)]
    with (LittleEndian.PutUint16 dport).
  rewrite Uint64_PutUint64, !Uint32_PutUint32, !Uint16_PutUint16.
  rewrite (uint64_id ts), (uint32_id pid), (uint16_id af),
    (uint32_id daddr), (uint16_id dport) by assumption.
  reflexivity.
Qed.

(** The round trip of the sample event. *)
Lemma IP4Event_round_trip_witness :
  wf_IP4Event sample.event /\
  binary_Read (encode_IP4Event sample.event) = inr sample.event.
Proof.
  assert (H : wf_IP4Event sample.event).
  { unfold wf_IP4Event, is_uint64, is_uint32, is_uint16. simpl.
    repeat split; try lia. }
  split; [exact H | apply (IP4Event_round_trip sample.event H)].
Defined.

(* ===================================================================== *)
(** * Writes to the allow map *)
(* ===================================================================== *)

Section Put.

Lemma length_PutUint32 v : length (LittleEndian.PutUint32 v) = 4%nat.
Proof. reflexivity. Qed.

Lemma length_IntToIP v : length (utils.IntToIP v) = 4%nat.
Proof. reflexivity. Qed.

Lemma Put_inr ks vs cap es key value :
  length (ebpf.marshal key) = ks ->
  length (ebpf.marshal value) = vs ->
  takes cap es (ebpf.marshal key) ->
  ebpf.Put (ebpf.mkMap ks vs cap es) key value
  = inr (ebpf.mkMap ks vs cap
           (<[ebpf.marshal key := ebpf.marshal value]> es)).
Proof.
  intros Hk Hv Ht. unfold ebpf.Put. simpl.
  rewrite Hk, Hv, !Nat.eqb_refl. simpl.
  destruct (es !! ebpf.marshal key) as [old |] eqn:E; [reflexivity |].
  destruct Ht as [[? ?] | Ht]; [congruence |].
  destruct (Nat.leb_spec cap (size es)); [lia | reflexivity].
Qed.

(** Whatever [Put] answers, a map it gives back has every key the map
    had, the sizes and the capacity it had. *)
Lemma Put_grows m key value m' :
  ebpf.Put m key value = inr m' ->
  ebpf.entries m' = <[ebpf.marshal key := ebpf.marshal value]> (ebpf.entries m)
  /\ ebpf.KeySize m' = ebpf.KeySize m
  /\ ebpf.ValueSize m' = ebpf.ValueSize m
  /\ ebpf.MaxEntries m' = ebpf.MaxEntries m.
Proof.
  unfold ebpf.Put. intros H.
  repeat match type of H with
         | (if ?b then _ else _) = _ => destruct b; [discriminate |]
         | match ?o with _ => _ end = _ => destruct o
         end;
    inversion H; subst; simpl; auto.
Qed.

(** [Put] removes no key. *)
Lemma Put_keeps_keys m key value m' :
  ebpf.Put m key value = inr m' ->
  dom (ebpf.entries m) ⊆ dom (ebpf.entries m').
Proof.
  intros H. apply Put_grows in H as (-> & _).
  rewrite dom_insert_L. apply union_subseteq_r.
Qed.

Lemma map_put_allow st ks vs cap es key value :
  allow_map_is st ks vs cap es ->
  length (ebpf.marshal key) = ks ->
  length (ebpf.marshal value) = vs ->
  takes cap es (ebpf.marshal key) ->
  exists st',
    map_put AllowMap key value st = (inl tt, st') /\
    allow_map_is st' ks vs cap
      (<[ebpf.marshal key := ebpf.marshal value]> es) /\
    trace st' = trace st ++
                  [MapPut AllowMap (ebpf.marshal key) (ebpf.marshal value)] /\
    deferred st' = deferred st.
Proof.
  intros (c & Hc & Hm) Hk Hv Ht. unfold map_put. rewrite Hc. simpl.
  rewrite Hm, (Put_inr _ _ _ _ _ _ Hk Hv Ht).
  eexists. split; [reflexivity |]. simpl.
  split; [| split; reflexivity].
  eexists. split; reflexivity.
Qed.

Lemma takes_insert cap es k v : takes cap (<[k := v]> es) k.
Proof. left. rewrite lookup_insert_eq. eauto. Qed.

End Put.

(* ===================================================================== *)
(** * One turn of the main loop *)
(* ===================================================================== *)

Section Matching.

Lemma match_names_ok allowed i suffix d domain :
  allowed !! i = Some suffix ->
  forall st cap es,
    allow_map_is st 4 4 cap es ->
    takes cap es (utils.IntToIP d) ->
    exists st',
      match_names allowed i d domain st = (inl tt, st') /\
      allow_map_is st' 4 4 cap
        (if hits suffix domain then <[utils.IntToIP d := marker]> es
         else es) /\
      deferred st' = deferred st.
Proof.
  intros Hi. induction domain as [| name domain IH]; intros st cap es Hm Ht.
  - exists st. simpl. auto.
  - simpl. rewrite Hi. unfold bind.
    destruct (strings.Contains name suffix) eqn:E; simpl.
    + destruct (map_put_allow st 4 4 cap es
                  (ebpf.IPBytes (utils.IntToIP d)) (ebpf.U32 1)
                  Hm eq_refl eq_refl Ht)
        as (st1 & -> & Hm1 & _ & Hd1).
      simpl. simpl in Hm1.
      destruct (IH (mkState (trace st1 ++ [Log Info (MsgAdd (utils.IntToIP d))])
                            (deferred st1) (collection st1))
                  cap (<[utils.IntToIP d := marker]> es))
        as (st2 & -> & Hm2 & Hd2).
      * exact Hm1.
      * apply takes_insert.
      * exists st2. split; [reflexivity |]. split; [| simpl in Hd2; congruence].
        destruct (hits suffix domain); [| exact Hm2].
        rewrite insert_insert_eq in Hm2. exact Hm2.
    + destruct (IH st cap es Hm Ht) as (st2 & -> & Hm2 & Hd2).
      exists st2. auto.
Qed.

(** The two turns of the outer loop of package kntrl. *)
Lemma kntrl_match_suffixes_ok d domain st cap es :
  allow_map_is st 4 4 cap es ->
  takes cap es (utils.IntToIP d) ->
  exists st',
    match_suffixes (length kntrl.allowedHosts) 0 kntrl.allowedHosts
                   d domain st = (inl tt, st') /\
    allow_map_is st' 4 4 cap
      (if existsb (fun suffix => hits suffix domain) kntrl.allowedHosts
       then <[utils.IntToIP d := marker]> es else es) /\
    deferred st' = deferred st.
Proof.
  intros Hm Ht. simpl. unfold bind.
  destruct (match_names_ok kntrl.allowedHosts 0 ".github.com" d domain
              eq_refl st cap es Hm Ht) as (st1 & -> & Hm1 & Hd1).
  destruct (hits ".github.com" domain) eqn:E1; simpl.
  - destruct (match_names_ok kntrl.allowedHosts 1 ".kondukto.io" d domain
                eq_refl st1 cap _ Hm1 (takes_insert _ _ _ _))
      as (st2 & -> & Hm2 & Hd2).
    exists st2. split; [reflexivity |]. split; [| congruence].
    destruct (hits ".kondukto.io" domain); [| exact Hm2].
    rewrite insert_insert_eq in Hm2. exact Hm2.
  - destruct (match_names_ok kntrl.allowedHosts 1 ".kondukto.io" d domain
                eq_refl st1 cap _ Hm1 Ht)
      as (st2 & -> & Hm2 & Hd2).
    exists st2. split; [reflexivity |]. split; [| congruence].
    rewrite orb_false_r. exact Hm2.
Qed.

Lemma kntrl_iteration_event raw ev lk st cap es :
  binary_Read raw = inr ev ->
  allow_map_is st 4 4 cap es ->
  takes cap es (utils.IntToIP (Daddr ev)) ->
  exists st',
    iteration (length kntrl.allowedHosts) kntrl.allowedHosts
              (ReadOk raw, lk) st = (inl Continue, st') /\
    allow_map_is st' 4 4 cap
      (if existsb (fun suffix => hits suffix (resolved lk))
                  kntrl.allowedHosts
       then <[utils.IntToIP (Daddr ev) := marker]> es else es) /\
    deferred st' = deferred st.
Proof.
  intros Hraw Hm Ht. unfold iteration. rewrite Hraw. unfold bind, ret.
  destruct (kntrl_match_suffixes_ok (Daddr ev) (resolved lk) st cap es Hm Ht)
    as (st1 & -> & Hm1 & Hd1).
  eexists. split; [reflexivity |]. simpl. split; [| exact Hd1].
  destruct Hm1 as (c & Hc & Hmap). exists c. auto.
Qed.

(** The key of the runtime write is the key a seeding write gives the same
    address. *)
Lemma runtime_key_is_seeding_key d :
  exists u, LittleEndian.Uint32 (utils.IntToIP d) = Some u /\
            ebpf.marshal (ebpf.U32 u)
            = ebpf.marshal (ebpf.IPBytes (utils.IntToIP d)).
Proof.
  unfold utils.IntToIP. exists (uint32 d).
  split; [apply Uint32_PutUint32 |]. simpl.
  pose proof (Uint32_PutUint32 d) as H.
  unfold LittleEndian.PutUint32 at 1 in H.
  apply PutUint32_Uint32 in H. exact H.
Qed.

End Matching.

(** C1, as the code has it. In package kntrl, when the allow map has
    4-byte keys and values and takes the key (it holds the destination
    address already, or has room for one more entry), a decoded event one of
    whose resolved names contains one of the two allow-suffixes leaves its
    destination address in the allow map, under the key a seeding write gives that address (the
    little-endian integer of its four bytes, as the map stores it); a second
    turn on the same event, whatever the resolver answers then, leaves the
    allow map with the same entries. *)
Theorem allow_list_grows_on_match raw ev lk st cap es :
  binary_Read raw = inr ev ->
  (exists name suffix,
      In name (resolved lk) /\ In suffix kntrl.allowedHosts /\
      strings.Contains name suffix = true) ->
  allow_map_is st 4 4 cap es ->
  takes cap es (utils.IntToIP (Daddr ev)) ->
  exists st1 es1 u,
    iteration (length kntrl.allowedHosts) kntrl.allowedHosts
              (ReadOk raw, lk) st = (inl Continue, st1) /\
    allow_map_is st1 4 4 cap es1 /\
    LittleEndian.Uint32 (utils.IntToIP (Daddr ev)) = Some u /\
    es1 !! ebpf.marshal (ebpf.U32 u) = Some marker /\
    forall lk2, exists st2,
      iteration (length kntrl.allowedHosts) kntrl.allowedHosts
                (ReadOk raw, lk2) st1 = (inl Continue, st2) /\
      allow_map_is st2 4 4 cap es1.
Proof.
  intros Hraw (name & suffix & Hname & Hsuffix & Hc) Hm Ht.
  destruct (kntrl_iteration_event raw ev lk st cap es Hraw Hm Ht)
    as (st1 & Hit & Hm1 & _).
  assert (Hany : existsb (fun suffix => hits suffix (resolved lk))
                         kntrl.allowedHosts = true).
  { apply existsb_exists. exists suffix. split; [exact Hsuffix |].
    apply existsb_exists. exists name. auto. }
  rewrite Hany in Hm1.
  destruct (runtime_key_is_seeding_key (Daddr ev)) as (u & Hu & Hkey).
  exists st1, (<[utils.IntToIP (Daddr ev) := marker]> es), u.
  split; [exact Hit |]. split; [exact Hm1 |]. split; [exact Hu |].
  split.
  - rewrite Hkey. simpl. apply lookup_insert_eq.
  - intros lk2.
    destruct (kntrl_iteration_event raw ev lk2 st1 cap _ Hraw Hm1
                (takes_insert _ _ _ _)) as (st2 & Hit2 & Hm2 & _).
    exists st2. split; [exact Hit2 |].
    destruct (existsb (fun suffix => hits suffix (resolved lk2))
                      kntrl.allowedHosts); [| exact Hm2].
    rewrite insert_insert_eq in Hm2. exact Hm2.
Qed.

(** A connect that resolves to a name under github.com, on a fresh map. *)
Lemma allow_list_grows_on_match_witness :
  exists st1 es1 u,
    iteration (length kntrl.allowedHosts) kntrl.allowedHosts
              (ReadOk (encode_IP4Event sample.event), sample.github)
              sample.loaded = (inl Continue, st1) /\
    allow_map_is st1 4 4 256 es1 /\
    LittleEndian.Uint32 (utils.IntToIP (Daddr sample.event)) = Some u /\
    es1 !! ebpf.marshal (ebpf.U32 u) = Some marker /\
    forall lk2, exists st2,
      iteration (length kntrl.allowedHosts) kntrl.allowedHosts
                (ReadOk (encode_IP4Event sample.event), lk2) st1
      = (inl Continue, st2) /\
      allow_map_is st2 4 4 256 es1.
Proof.
  apply (allow_list_grows_on_match (encode_IP4Event sample.event)
           sample.event sample.github sample.loaded 256 ∅).
  - vm_compute. reflexivity.
  - exists "lb-140-82-121-3-fra.github.com."%string, ".github.com"%string.
    simpl. split; [left; reflexivity |]. split; [left; reflexivity |].
    vm_compute. reflexivity.
  - exists sample.loaded_collection. split; reflexivity.
  - right. vm_compute. lia.
Defined.

(** C1 as stated fails on a full map: the event decodes and resolves to a
    name under github.com, the allow map has 4-byte keys and values, but it
    holds its one entry already and the address is new to it. The write is
    refused, the turn ends the process, and the address is not in the allow
    map. *)
Lemma match_on_full_map_is_not_allowed :
  binary_Read (encode_IP4Event sample.event) = inr sample.event /\
  (exists name suffix,
      In name (resolved sample.github) /\ In suffix kntrl.allowedHosts /\
      strings.Contains name suffix = true) /\
  allow_map_is scenario.full 4 4 1
               {[ [x0a; x00; x00; x01] := [x01; x00; x00; x00] ]} /\
  iteration (length kntrl.allowedHosts) kntrl.allowedHosts
            (ReadOk (encode_IP4Event sample.event), sample.github)
            scenario.full
  = (inr Exit,
     mkState [Log Fatal (MsgPutFailed AllowMap ebpf.E2BIG)] []
             (Some scenario.full_collection)) /\
  ebpf.entries (ebpf.allow_map scenario.full_collection)
    !! utils.IntToIP (Daddr sample.event) = None.
Proof.
  split; [vm_compute; reflexivity |]. split.
  { exists "lb-140-82-121-3-fra.github.com."%string, ".github.com"%string.
    simpl. split; [left; reflexivity |]. split; [left; reflexivity |].
    vm_compute. reflexivity. }
  split; [exists scenario.full_collection; split; reflexivity |].
  split; vm_compute; reflexivity.
Qed.

(* ===================================================================== *)
(** * Reads that give no event *)
(* ===================================================================== *)

(** C3, as the code has it. A record shorter than the 36 bytes of the
    layout does not decode: the turn logs the failure, writes nothing to the
    allow map, defers nothing and goes on to the next read. A record of 36
    bytes or more does decode: its first 36 bytes give the event and the rest
    is not looked at. *)
Theorem record_length_decides raw :
  ((length raw < IP4Event_size)%nat ->
   exists e,
     binary_Read raw = inl e /\
     forall bound allowed lk st,
       iteration bound allowed (ReadOk raw, lk) st
       = (inl Continue,
          mkState (trace st ++ [Log Print (MsgParseError e)])
                  (deferred st) (collection st))) /\
  ((IP4Event_size <= length raw)%nat ->
   exists ev,
     binary_Read raw = inr ev /\
     binary_Read (take IP4Event_size raw) = inr ev).
Proof.
  split.
  - intros H. eexists. split; [apply binary_Read_short, H |].
    intros bound allowed lk st. unfold iteration.
    rewrite (binary_Read_short raw H). reflexivity.
  - apply binary_Read_long.
Qed.

(** A record of two bytes and a record of forty. *)
Lemma record_length_decides_witness :
  (exists e,
     binary_Read [x01; x02] = inl e /\
     forall bound allowed lk st,
       iteration bound allowed (ReadOk [x01; x02], lk) st
       = (inl Continue,
          mkState (trace st ++ [Log Print (MsgParseError e)])
                  (deferred st) (collection st))) /\
  (exists ev,
     binary_Read (replicate 40 x07) = inr ev /\
     binary_Read (take IP4Event_size (replicate 40 x07)) = inr ev).
Proof.
  split.
  - apply (proj1 (record_length_decides [x01; x02])).
    unfold IP4Event_size. simpl. lia.
  - apply (proj2 (record_length_decides (replicate 40 x07))).
    unfold IP4Event_size. simpl. lia.
Defined.

(** C3 as stated fails on a longer record: one of 37 bytes, one more than
    the layout, is decoded and handled as an event. *)
Lemma longer_record_is_decoded :
  length (replicate 37 x00) <> IP4Event_size /\
  binary_Read (replicate 37 x00)
  = inr (mkIP4Event (mkEvent 0 0 0 (replicate 16 x00)) 0 0) /\
  iteration (length kntrl.allowedHosts) kntrl.allowedHosts
            (ReadOk (replicate 37 x00), net.mkLookup [] true) initial
  = (inl Continue,
     mkState [Log Info (MsgEvent
                          (mkIP4Event (mkEvent 0 0 0 (replicate 16 x00)) 0 0)
                          ["."%string])]
             [] None).
Proof.
  split; [discriminate |]. split; reflexivity.
Qed.

(* ===================================================================== *)
(** * The end of the loop and of the run *)
(* ===================================================================== *)

Section Finish.

Lemma run_deferred_loaded d st c :
  collection st = Some c ->
  exists e, run_deferred d st
            = (inl tt, mkState (trace st ++ [e]) (deferred st) (Some c)).
Proof.
  intros Hc. destruct d; simpl; rewrite ?Hc; unfold ebpfProgram.clean, ebpfman.Clean, emit;
    rewrite ?Hc; eauto.
Qed.

(** With a loaded collection no deferred call panics. *)
Lemma run_all_deferred_loaded ds o st c :
  collection st = Some c ->
  exists closes,
    run_all_deferred ds o st
    = (o, mkState (trace st ++ closes) (deferred st) (Some c)).
Proof.
  revert st. induction ds as [| d ds IH]; intros st Hc.
  - exists []. simpl. rewrite app_nil_r, <- Hc. destruct st; reflexivity.
  - simpl. destruct (run_deferred_loaded d st c Hc) as [e ->].
    destruct (IH (mkState (trace st ++ [e]) (deferred st) (Some c)) eq_refl)
      as [closes ->].
    exists (e :: closes). simpl. rewrite <- app_assoc. reflexivity.
Qed.

End Finish.

(** C6. In the main loop a read that fails with the reader-closed error
    leaves the loop for the finalization; the run waits for the handler,
    prints the report and returns nil, the deferred calls following. A read
    that fails with any other error is logged; its empty record does not
    decode, which is logged too, and the loop goes on with the next read. *)
Theorem closed_read_ends_the_run bound allowed lk rest st c :
  collection st = Some c ->
  (exists closes,
     finish ((event_loop bound allowed ((ReadErrClosed, lk) :: rest) ;;
              exit_path) st)
     = (Returned None,
        mkState (trace st ++
                   [WaitDone; Println "----"; Println ""; ReporterPrint;
                    ReporterClean; Println "----"] ++ closes)
                (deferred st) (Some c))) /\
  event_loop bound allowed ((ReadErrOther, lk) :: rest) st
  = event_loop bound allowed rest
      (mkState (trace st ++ [Log Error MsgReadError;
                             Log Print (MsgParseError EOF)])
               (deferred st) (collection st)).
Proof.
  intros Hc. split.
  - unfold finish. simpl. unfold bind, ret, exit_path, bind, emit, halt.
    simpl.
    edestruct (run_all_deferred_loaded (deferred st) (Returned None)) as [closes ->];
      [simpl; exact Hc |].
    exists closes. simpl. rewrite <- !app_assoc. reflexivity.
  - simpl. unfold bind, emit, ret. simpl. rewrite <- app_assoc. reflexivity.
Qed.

(** The two kinds of failed read, right after the load. *)
Lemma closed_read_ends_the_run_witness :
  (exists closes,
     finish ((event_loop 2 kntrl.allowedHosts
                         [(ReadErrClosed, sample.no_name)] ;;
              exit_path) sample.loaded)
     = (Returned None,
        mkState (trace sample.loaded ++
                   [WaitDone; Println "----"; Println ""; ReporterPrint;
                    ReporterClean; Println "----"] ++ closes)
                (deferred sample.loaded) (Some sample.loaded_collection))) /\
  event_loop 2 kntrl.allowedHosts [(ReadErrOther, sample.no_name)]
             sample.loaded
  = event_loop 2 kntrl.allowedHosts []
      (mkState (trace sample.loaded ++ [Log Error MsgReadError;
                                        Log Print (MsgParseError EOF)])
               (deferred sample.loaded) (collection sample.loaded)).
Proof.
  apply (closed_read_ends_the_run 2 kntrl.allowedHosts sample.no_name []
           sample.loaded sample.loaded_collection).
  reflexivity.
Defined.

(** A run of package kntrl that ends on a closed reader returns nil. *)
Example sample_run_returns_nil :
  (kntrl.Run (sample.world_of true
                [(ReadOk (encode_IP4Event sample.event), sample.github);
                 (ReadErrOther, sample.no_name);
                 (ReadErrClosed, sample.no_name)])
             1 (parser.parseAllowedIPAddr "10.0.0.1")).1
  = Returned None.
Proof. vm_compute. reflexivity. Qed.

(* ===================================================================== *)
(** * The setup of a run *)
(* ===================================================================== *)

(** C5. In package tracer a mode that is empty, or is neither of the two
    mode names, makes [Run] return a configuration error at once: the final
    state is the initial one, so nothing was loaded, nothing deferred and no
    call made on the world outside. *)
Theorem invalid_mode_is_rejected cfg w mode hosts :
  mode = ""%string \/
  (mode <> tracer.TracerModeMonitor cfg /\ mode <> tracer.TracerModeTrace cfg) ->
  exists e,
    tracer.Run cfg w mode hosts = (Returned (Some e), initial) /\
    (e = ErrModeRequired \/ e = ErrModeInvalid mode).
Proof.
  intros H. unfold tracer.Run, tracer.body.
  destruct (String.eqb_spec mode "") as [-> | Hne].
  - exists ErrModeRequired. split; [reflexivity | auto].
  - destruct H as [-> | [Hm Ht]]; [congruence |].
    destruct (String.eqb_spec mode (tracer.TracerModeMonitor cfg)); [congruence |].
    destruct (String.eqb_spec mode (tracer.TracerModeTrace cfg)); [congruence |].
    exists (ErrModeInvalid mode). split; [reflexivity | auto].
Qed.

(** The mode "block" is neither of the two. *)
Lemma invalid_mode_is_rejected_witness :
  exists e,
    tracer.Run sample.cfg (sample.world_of true []) "block" "10.0.0.1"
    = (Returned (Some e), initial) /\
    (e = ErrModeRequired \/ e = ErrModeInvalid "block").
Proof.
  apply (invalid_mode_is_rejected sample.cfg (sample.world_of true [])
           "block" "10.0.0.1").
  right. simpl. split; discriminate.
Defined.

(** C4, where the code fails it. In package kntrl a run that returns before
    [load] (the user is not root, or the memory-lock limit cannot be lifted)
    runs the deferred [e.clean()] on a collection that is still nil, where
    [clean] dereferences nil: the run ends in that panic, and nothing is
    released. *)
Theorem clean_panics_before_load w mode hosts :
  IsRoot w = false \/ RemoveMemlock_ok w = false ->
  exists st,
    kntrl.Run w mode hosts = (Panicked NilDereference, st) /\
    collection st = None /\
    ebpfProgram.clean st = (inr (Panic NilDereference), st) /\
    ~ In CollectionClose (trace st).
Proof.
  intros H. unfold kntrl.Run, kntrl.body.
  destruct (IsRoot w) eqn:Hroot.
  - destruct H as [H | H]; [discriminate |]. rewrite H.
    eexists. split; [reflexivity |]. split; [reflexivity |].
    split; [reflexivity |]. simpl. intuition discriminate.
  - eexists. split; [reflexivity |]. split; [reflexivity |].
    split; [reflexivity |]. simpl. intuition discriminate.
Qed.

(** The run of a user who is not root. *)
Lemma clean_panics_before_load_witness :
  exists st,
    kntrl.Run (sample.world_of false []) 1 [] = (Panicked NilDereference, st) /\
    collection st = None /\
    ebpfProgram.clean st = (inr (Panic NilDereference), st) /\
    ~ In CollectionClose (trace st).
Proof.
  apply (clean_panics_before_load (sample.world_of false []) 1 []).
  left. reflexivity.
Defined.

(** C2, where the code fails it. In package tracer the artifact is loaded
    first and the memory-lock limit is lifted later, after the maps are
    written and the readers opened: in this run, which goes as far as the
    first read, [RemoveMemlock] is not among the calls made before
    [LoadArtifact] and is among those made after. *)
Theorem tracer_loads_before_memlock :
  exists st pre post,
    tracer.Run sample.cfg (sample.world_of true []) "trace" "" = (Blocked, st) /\
    trace st = pre ++ LoadArtifact :: post /\
    ~ In RemoveMemlock pre /\ ~ In LoadArtifact pre /\
    In RemoveMemlock post.
Proof.
  eexists. exists [Log Debug MsgNoHosts]. eexists.
  split; [vm_compute; reflexivity |].
  split; [reflexivity |].
  split; [simpl; intuition discriminate |].
  split; [simpl; intuition discriminate |].
  simpl. intuition.
Qed.

(** C10, where the code fails it. In package tracer the outer matching loop
    runs up to the length of the hosts flag, a string, and indexes the list of
    the two allow-suffixes: for a flag of three characters or more, a decoded
    event that resolves to a name at all (the lone dot of a failed lookup
    will do) gets as far as the index 2 and panics there. *)
Theorem tracer_suffix_index_out_of_range hosts raw ev lk st cap es :
  (2 < String.length hosts)%nat ->
  binary_Read raw = inr ev ->
  resolved lk <> [] ->
  allow_map_is st 4 4 cap es ->
  takes cap es (utils.IntToIP (Daddr ev)) ->
  exists st',
    iteration (String.length hosts) tracer.allowedHostsAddress
              (ReadOk raw, lk) st
    = (inr (Panic (IndexOutOfRange 2 2)), st').
Proof.
  intros Hlen Hraw Hdom Hm Ht.
  destruct (String.length hosts) as [| [| [| n]]]; try lia.
  unfold iteration. rewrite Hraw. unfold bind at 1. unfold ret at 1.
  cbv beta iota.
  change (match_suffixes (S (S (S n))) 0 tracer.allowedHostsAddress
            (Daddr ev) (resolved lk))
    with (match_names tracer.allowedHostsAddress 0 (Daddr ev) (resolved lk) ;;
          match_names tracer.allowedHostsAddress 1 (Daddr ev) (resolved lk) ;;
          match_names tracer.allowedHostsAddress 2 (Daddr ev) (resolved lk) ;;
          match_suffixes n 3 tracer.allowedHostsAddress
                         (Daddr ev) (resolved lk)).
  unfold bind.
  destruct (match_names_ok tracer.allowedHostsAddress 0 ".github.com"
              (Daddr ev) (resolved lk) eq_refl st cap es Hm Ht)
    as (st1 & -> & Hm1 & _).
  assert (Ht1 : takes cap
                  (if hits ".github.com" (resolved lk)
                   then <[utils.IntToIP (Daddr ev) := marker]> es else es)
                  (utils.IntToIP (Daddr ev))).
  { destruct (hits _ _); [apply takes_insert | exact Ht]. }
  destruct (match_names_ok tracer.allowedHostsAddress 1 ".kondukto.io"
              (Daddr ev) (resolved lk) eq_refl st1 cap _ Hm1 Ht1)
    as (st2 & -> & _ & _).
  destruct (resolved lk) as [| name domain]; [congruence |].
  exists st2. reflexivity.
Qed.

(** The hosts flag "10.0.0.1" and an event whose lookup fails. *)
Lemma tracer_suffix_index_out_of_range_witness :
  exists st',
    iteration (String.length "10.0.0.1") tracer.allowedHostsAddress
              (ReadOk (encode_IP4Event sample.event), sample.no_name)
              sample.loaded
    = (inr (Panic (IndexOutOfRange 2 2)), st').
Proof.
  apply (tracer_suffix_index_out_of_range "10.0.0.1"
           (encode_IP4Event sample.event) sample.event sample.no_name
           sample.loaded 256 ∅).
  - simpl. lia.
  - vm_compute. reflexivity.
  - discriminate.
  - exists sample.loaded_collection. split; reflexivity.
  - right. vm_compute. lia.
Defined.

(* ===================================================================== *)
(** * Seeding the allow map *)
(* ===================================================================== *)

Section Seeding.

Lemma To4_length ip : net.To4 ip <> [] -> length (net.To4 ip) = 4%nat.
Proof.
  unfold net.To4, net.IPv4len, net.IPv6len.
  destruct (Nat.eqb_spec (length ip) 4) as [H4 | H4]; [auto |].
  destruct (Nat.eqb_spec (length ip) 16) as [H16 | H16]; simpl;
    [| congruence].
  destruct (bool_decide _ && bool_decide _ && bool_decide _);
    [| congruence].
  intros _. rewrite length_drop. lia.
Qed.

(** The seeding key of a 4-byte address is the address itself. *)
Lemma seeding_key h :
  length h = 4%nat ->
  exists u, LittleEndian.Uint32 h = Some u /\
            ebpf.marshal (ebpf.U32 u) = h.
Proof.
  intros H.
  destruct h as [| a [| b [| c [| d [| x h]]]]]; try discriminate H.
  eexists. split; [reflexivity |].
  simpl. apply (PutUint32_Uint32 a b c d []). reflexivity.
Qed.

Lemma seeded_nil es : seeded es [] = es.
Proof.
  unfold seeded. simpl. rewrite gset_to_gmap_empty. apply (left_id_L ∅ (∪)).
Qed.

Lemma lookup_seeded es hosts k :
  seeded es hosts !! k
  = if bool_decide (k ∈ hosts) then Some marker else es !! k.
Proof.
  unfold seeded. rewrite lookup_union, lookup_gset_to_gmap.
  destruct (bool_decide_reflect (k ∈ hosts)) as [Hin | Hin].
  - rewrite option_guard_True by (apply elem_of_list_to_set, Hin).
    simpl. destruct (es !! k); reflexivity.
  - rewrite option_guard_False by (rewrite elem_of_list_to_set; exact Hin).
    simpl. destruct (es !! k); reflexivity.
Qed.

Lemma seeded_cons es h hosts :
  seeded (<[h := marker]> es) hosts = seeded es (h :: hosts).
Proof.
  apply map_eq. intros k. rewrite !lookup_seeded.
  destruct (bool_decide_reflect (k ∈ hosts)) as [Hin | Hin];
    destruct (bool_decide_reflect (k ∈ h :: hosts)) as [Hin' | Hin'];
    try reflexivity.
  - exfalso. apply Hin'. right. exact Hin.
  - apply elem_of_cons in Hin' as [-> | ?]; [| contradiction].
    apply lookup_insert_eq.
  - apply lookup_insert_ne. intros ->. apply Hin'. left.
Qed.

Lemma dom_seeded es hosts :
  dom (seeded es hosts) = list_to_set hosts ∪ dom es.
Proof.
  unfold seeded. rewrite dom_union_L, dom_gset_to_gmap. reflexivity.
Qed.

Lemma takes_first (cap : nat) (es : gmap bytes bytes) (h : bytes)
  (X : gset bytes) :
  (size (dom es ∪ ({[h]} ∪ X)) <= cap)%nat -> takes cap es h.
Proof.
  intros Hroom. destruct (es !! h) as [v |] eqn:E; [left; eauto |].
  right. apply not_elem_of_dom in E.
  assert (Hsub : dom es ∪ {[h]} ⊆ dom es ∪ ({[h]} ∪ X))
    by (rewrite (assoc_L (∪)); apply union_subseteq_l).
  apply subseteq_size in Hsub.
  rewrite size_union in Hsub by (apply disjoint_singleton_r, E).
  rewrite size_singleton, size_dom in Hsub. lia.
Qed.

(** Seeding with 4-byte addresses completes when the map has room for
    them, and leaves the map [seeded]. *)
Lemma seed_allow_map_ok hosts :
  Forall (fun h => length h = 4%nat) hosts ->
  forall st cap es,
    allow_map_is st 4 4 cap es ->
    (size (dom es ∪ list_to_set hosts) <= cap)%nat ->
    exists st',
      seed_allow_map hosts st = (inl tt, st') /\
      allow_map_is st' 4 4 cap (seeded es hosts).
Proof.
  induction 1 as [| h hosts Hh Hall IH]; intros st cap es Hm Hroom.
  - exists st. rewrite seeded_nil. auto.
  - simpl. destruct (seeding_key h Hh) as (u & -> & Hkey).
    simpl in Hroom.
    destruct (map_put_allow st 4 4 cap es (ebpf.U32 u) (ebpf.U32 1) Hm
                eq_refl eq_refl) as (st1 & Hput & Hm1 & _).
    { rewrite Hkey. eapply takes_first, Hroom. }
    unfold bind. rewrite Hput. rewrite Hkey in Hm1.
    destruct (IH st1 cap _ Hm1) as (st2 & -> & Hm2).
    { rewrite dom_insert_L.
      replace ({[h]} ∪ dom es ∪ list_to_set hosts)
        with (dom es ∪ ({[h]} ∪ list_to_set hosts))
        by (rewrite (comm_L (∪) {[h]} (dom es)), (assoc_L (∪)); reflexivity).
      exact Hroom. }
    exists st2. split; [reflexivity |].
    fold marker in Hm2. rewrite seeded_cons in Hm2. exact Hm2.
Qed.

Lemma collect_In fields f i :
  In f fields -> net.ParseIP f = Some i ->
  In (net.To4 i) (parser.collect fields).
Proof.
  induction fields as [| g fields IH]; simpl; [tauto |].
  intros [-> | Hin] Hf.
  - rewrite Hf. left. reflexivity.
  - destruct (net.ParseIP g); [right |]; auto.
Qed.

Lemma collect_lengths fields :
  (forall f i, In f fields -> net.ParseIP f = Some i -> net.To4 i <> []) ->
  Forall (fun h => length h = 4%nat) (parser.collect fields).
Proof.
  induction fields as [| g fields IH]; simpl; intros H; [constructor |].
  destruct (net.ParseIP g) as [i |] eqn:E.
  - constructor; [apply To4_length; eauto | apply IH; eauto].
  - apply IH; eauto.
Qed.

Lemma collect_Permutation fields fields' :
  Permutation fields fields' ->
  Permutation (parser.collect fields) (parser.collect fields').
Proof.
  induction 1 as [| g l l' _ IH | g g' l | l l' l'' _ IH1 _ IH2]; simpl.
  - constructor.
  - destruct (net.ParseIP g); [constructor |]; exact IH.
  - destruct (net.ParseIP g), (net.ParseIP g');
      try reflexivity. constructor.
  - etransitivity; eassumption.
Qed.

Lemma parseAllowedIPAddr_lengths ips :
  ipv4_only ips ->
  Forall (fun h => length h = 4%nat) (parser.parseAllowedIPAddr ips).
Proof.
  intros H. unfold parser.parseAllowedIPAddr.
  apply Forall_app. split; [apply collect_lengths, H |].
  repeat constructor.
Qed.

End Seeding.

(** C8, as the code has it. For every comma-separated list whose fields
    that parse are IPv4 addresses (the empty list too), and every allow map
    of 4-byte keys and values that has room for the keys it holds together
    with the addresses of the list and the three fixed ones, seeding with
    what [parseAllowedIPAddr] makes of the list completes; after it every
    field that parses and the three fixed addresses are in the allow
    map with the marker, the keys of the map are the keys it had and these
    addresses, each once whatever its number of occurrences, every other
    entry is as it was, and a list with the same fields in another order
    leaves the same entries. *)
Theorem seeding_writes_every_address ips st cap es :
  ipv4_only ips ->
  allow_map_is st 4 4 cap es ->
  (size (dom es ∪ list_to_set (parser.parseAllowedIPAddr ips)) <= cap)%nat ->
  exists st' es',
    seed_allow_map (parser.parseAllowedIPAddr ips) st = (inl tt, st') /\
    allow_map_is st' 4 4 cap es' /\
    (forall f i, In f (strings.Split ips ","%char) ->
                 net.ParseIP f = Some i -> es' !! net.To4 i = Some marker) /\
    es' !! [x7f; x00; x00; x01] = Some marker /\
    es' !! [xa9; xfe; xa9; xfe] = Some marker /\
    es' !! [xa8; x3f; x81; x10] = Some marker /\
    dom es' = list_to_set (parser.parseAllowedIPAddr ips) ∪ dom es /\
    (forall k, ~ In k (parser.parseAllowedIPAddr ips) -> es' !! k = es !! k) /\
    (forall ips',
        Permutation (strings.Split ips ","%char)
                    (strings.Split ips' ","%char) ->
        exists st'',
          seed_allow_map (parser.parseAllowedIPAddr ips') st = (inl tt, st'') /\
          allow_map_is st'' 4 4 cap es').
Proof.
  intros Hv4 Hm Hroom.
  destruct (seed_allow_map_ok _ (parseAllowedIPAddr_lengths ips Hv4)
              st cap es Hm Hroom) as (st' & Hseed & Hm').
  exists st', (seeded es (parser.parseAllowedIPAddr ips)).
  split; [exact Hseed |]. split; [exact Hm' |].
  assert (Hin : forall k, In k (parser.parseAllowedIPAddr ips) ->
                          seeded es (parser.parseAllowedIPAddr ips) !! k
                          = Some marker).
  { intros k Hk. rewrite lookup_seeded.
    rewrite bool_decide_eq_true_2; [reflexivity |].
    apply list_elem_of_In, Hk. }
  split.
  { intros f i Hf Hi. apply Hin. unfold parser.parseAllowedIPAddr.
    apply in_or_app. left. eapply collect_In; eassumption. }
  split.
  { apply Hin. apply in_or_app. right. left. reflexivity. }
  split.
  { apply Hin. apply in_or_app. right. right. left. reflexivity. }
  split.
  { apply Hin. apply in_or_app. right. right. right. left. reflexivity. }
  split; [apply dom_seeded |].
  split.
  { intros k Hk. rewrite lookup_seeded.
    rewrite bool_decide_eq_false_2; [reflexivity |].
    rewrite list_elem_of_In. exact Hk. }
  intros ips' Hperm.
  assert (Hperm' : Permutation (parser.parseAllowedIPAddr ips)
                               (parser.parseAllowedIPAddr ips')).
  { unfold parser.parseAllowedIPAddr.
    apply Permutation_app_tail, collect_Permutation, Hperm. }
  assert (Hset : list_to_set (C := gset bytes) (parser.parseAllowedIPAddr ips')
                 = list_to_set (parser.parseAllowedIPAddr ips)).
  { apply list_to_set_perm_L. symmetry. exact Hperm'. }
  assert (Hv4' : ipv4_only ips').
  { intros f i Hf. apply Hv4. eapply Permutation_in; [| exact Hf].
    symmetry. exact Hperm. }
  destruct (seed_allow_map_ok _ (parseAllowedIPAddr_lengths ips' Hv4')
              st cap es Hm) as (st'' & Hseed' & Hm'').
  { rewrite Hset. exact Hroom. }
  exists st''. split; [exact Hseed' |].
  unfold seeded in *. rewrite Hset in Hm''. exact Hm''.
Qed.

(** A list with a repeated address, an empty field and a field that does
    not parse. *)
Lemma seeding_writes_every_address_witness :
  exists st' es',
    seed_allow_map (parser.parseAllowedIPAddr "10.0.0.1,,10.0.0.1,x")
                   sample.loaded = (inl tt, st') /\
    allow_map_is st' 4 4 256 es' /\
    (forall f i, In f (strings.Split "10.0.0.1,,10.0.0.1,x" ","%char) ->
                 net.ParseIP f = Some i -> es' !! net.To4 i = Some marker) /\
    es' !! [x7f; x00; x00; x01] = Some marker /\
    es' !! [xa9; xfe; xa9; xfe] = Some marker /\
    es' !! [xa8; x3f; x81; x10] = Some marker /\
    dom es' = list_to_set (parser.parseAllowedIPAddr "10.0.0.1,,10.0.0.1,x")
              ∪ dom (∅ : gmap bytes bytes) /\
    (forall k, ~ In k (parser.parseAllowedIPAddr "10.0.0.1,,10.0.0.1,x") ->
               es' !! k = (∅ : gmap bytes bytes) !! k) /\
    (forall ips',
        Permutation (strings.Split "10.0.0.1,,10.0.0.1,x" ","%char)
                    (strings.Split ips' ","%char) ->
        exists st'',
          seed_allow_map (parser.parseAllowedIPAddr ips') sample.loaded
          = (inl tt, st'') /\
          allow_map_is st'' 4 4 256 es').
Proof.
  apply (seeding_writes_every_address "10.0.0.1,,10.0.0.1,x"
           sample.loaded 256 ∅).
  - intros f i Hf Hi. simpl in Hf.
    destruct Hf as [<- | [<- | [<- | [<- | []]]]];
      vm_compute in Hi; try discriminate Hi;
      injection Hi as <-; vm_compute; discriminate.
  - exists sample.loaded_collection. split; reflexivity.
  - vm_compute. lia.
Defined.

(** C8 as stated fails on an IPv6 literal: it parses, [To4] makes the nil
    address of it, and the seeding loop panics on that before it writes
    anything: seeding does not complete, and none of the addresses, the
    three fixed ones included, is in the allow map. *)
Lemma seeding_panics_on_ipv6 :
  net.ParseIP "::1" = Some (replicate 15 x00 ++ [x01]) /\
  ~ (exists st',
        seed_allow_map (parser.parseAllowedIPAddr "::1") sample.loaded
        = (inl tt, st')) /\
  exists st,
    kntrl.Run (sample.world_of true []) 1 (parser.parseAllowedIPAddr "::1")
    = (Panicked (IndexOutOfRange 3 0), st) /\
    allow_keys st = ∅.
Proof.
  split; [reflexivity |]. split.
  - intros [st' H]. vm_compute in H. discriminate H.
  - eexists. split; [vm_compute; reflexivity |]. vm_compute. reflexivity.
Qed.

(** Without room the seeding does not complete either: on a fresh map
    with room for two entries the empty flag gives the three fixed addresses,
    the third write is refused and the process exits, 168.63.129.16 not in
    the map; [kntrl.Run] exits so. *)
Lemma seeding_exits_without_room :
  ipv4_only "" /\
  allow_map_is scenario.small 4 4 2 ∅ /\
  seed_allow_map (parser.parseAllowedIPAddr "") scenario.small
  = (inr Exit,
     mkState [MapPut AllowMap [x7f; x00; x00; x01] marker;
              MapPut AllowMap [xa9; xfe; xa9; xfe] marker;
              Log Fatal (MsgPutFailed AllowMap ebpf.E2BIG)]
             []
             (Some (ebpf.mkCollection
                      (sample.empty_map 1)
                      (ebpf.mkMap 4 4 2
                         (<[ [xa9; xfe; xa9; xfe] := marker ]>
                            (<[ [x7f; x00; x00; x01] := marker ]> ∅)))))) /\
  (kntrl.Run (mkWorld true true (Some sample.programs)
                      (Some scenario.small_collection)
                      (fun _ => true) true (fun _ => true) true [])
             1 (parser.parseAllowedIPAddr "")).1 = Exited.
Proof.
  split.
  { intros f i Hf Hi. simpl in Hf. destruct Hf as [<- | []].
    vm_compute in Hi. discriminate Hi. }
  split; [exists scenario.small_collection; split; reflexivity |].
  split; vm_compute; reflexivity.
Qed.

(* ===================================================================== *)
(** * The allow map only grows *)
(* ===================================================================== *)

Section Tracking.

Lemma allow_puts_app t1 t2 :
  allow_puts (t1 ++ t2) = allow_puts t1 ++ allow_puts t2.
Proof.
  induction t1 as [| e t1 IH]; [reflexivity |].
  destruct e as [| | | | | | | [] | | | | | | | | | ]; simpl; congruence.
Qed.

Lemma tracks_ret {A} (a : A) : tracks (ret a).
Proof.
  intros st r st' [= <- <-]. exists []. rewrite app_nil_r. split; [reflexivity |].
  simpl. symmetry. apply union_empty_r_L.
Qed.

Lemma tracks_halt {A} s : tracks (@halt A s).
Proof.
  intros st r st' [= <- <-]. exists []. rewrite app_nil_r. split; [reflexivity |].
  simpl. symmetry. apply union_empty_r_L.
Qed.

Lemma tracks_bind {A B} (m : M A) (k : A -> M B) :
  tracks m -> (forall a, tracks (k a)) -> tracks (bind m k).
Proof.
  intros Hm Hk st r st' H. unfold bind in H.
  destruct (m st) as [[a | s] st1] eqn:E.
  - destruct (Hm _ _ _ E) as (t1 & Ht1 & Hk1).
    destruct (Hk a _ _ _ H) as (t2 & Ht2 & Hk2).
    exists (t1 ++ t2). rewrite Ht2, Ht1, app_assoc. split; [reflexivity |].
    rewrite Hk2, Hk1, allow_puts_app, list_to_set_app_L.
    symmetry. apply (assoc_L (∪)).
  - injection H as <- <-. apply (Hm _ _ _ E).
Qed.

(** A call that is not a write to the allow map. *)
Lemma tracks_emit e : allow_puts [e] = [] -> tracks (emit e).
Proof.
  intros He st r st' [= <- <-]. exists [e]. split; [reflexivity |].
  rewrite He. unfold allow_keys. simpl. symmetry. apply union_empty_r_L.
Qed.

Lemma tracks_defer d : tracks (defer d).
Proof.
  intros st r st' [= <- <-]. exists []. simpl. rewrite app_nil_r.
  split; [reflexivity |]. unfold allow_keys. simpl.
  symmetry. apply union_empty_r_L.
Qed.

Lemma tracks_Fatalf {A} msg : tracks (@Fatalf A msg).
Proof.
  apply tracks_bind; [apply tracks_emit; reflexivity |].
  intros _. apply tracks_halt.
Qed.

Lemma tracks_map_put n key value : tracks (map_put n key value).
Proof.
  intros st r st' H. unfold map_put in H.
  destruct (collection st) as [c |] eqn:Hc.
  - destruct (ebpf.Put (get_map n c) key value) as [e | m'] eqn:E.
    + apply (tracks_Fatalf (A := unit) _ _ _ _ H).
    + injection H as <- <-. eexists. split; [reflexivity |].
      unfold allow_keys. simpl. rewrite Hc.
      apply Put_grows in E as (E & _).
      destruct n; simpl in *.
      * symmetry. apply union_empty_r_L.
      * rewrite E, dom_insert_L, union_empty_r_L. apply (comm_L (∪)).
  - injection H as <- <-. exists []. rewrite app_nil_r.
    split; [reflexivity |]. simpl. symmetry. apply union_empty_r_L.
Qed.

Lemma tracks_if {A} (b : bool) (m1 m2 : M A) :
  tracks m1 -> tracks m2 -> tracks (if b then m1 else m2).
Proof. destruct b; auto. Qed.

Lemma tracks_return_if c e : tracks (return_if c e).
Proof. apply tracks_if; [apply tracks_halt | apply tracks_ret]. Qed.

End Tracking.

Create HintDb tracks.

#[local] Hint Resolve tracks_ret tracks_halt tracks_defer tracks_Fatalf
  tracks_map_put tracks_return_if : tracks.

(** Takes a computation apart at its binds and its tests, and closes the
    parts with the lemmas at hand. *)
Ltac track :=
  repeat first
    [ solve [auto 1 with tracks nocore]
    | apply tracks_emit; reflexivity
    | apply tracks_if
    | apply tracks_bind; [| intros ?] ].

Lemma tracks_link_program w p : tracks (link_program w p).
Proof. unfold link_program. destruct (ebpf.Type_ p); track. Qed.

#[local] Hint Resolve tracks_link_program : tracks.

Lemma tracks_link_programs w ps : tracks (link_programs w ps).
Proof. induction ps as [| p ps IH]; simpl; track. Qed.

Lemma tracks_seed_allow_map hosts : tracks (seed_allow_map hosts).
Proof.
  induction hosts as [| h hosts IH]; simpl; [track |].
  destruct (LittleEndian.Uint32 h); track.
Qed.

Lemma tracks_open_reader w r : tracks (open_reader w r).
Proof. unfold open_reader. track. Qed.

Lemma tracks_match_names allowed i d domain :
  tracks (match_names allowed i d domain).
Proof.
  induction domain as [| name domain IH]; simpl; [track |].
  destruct (allowed !! i); track.
Qed.

#[local] Hint Resolve tracks_match_names : tracks.

Lemma tracks_match_suffixes left i allowed d domain :
  tracks (match_suffixes left i allowed d domain).
Proof.
  revert i. induction left as [| left IH]; intros i; simpl; track.
Qed.

#[local] Hint Resolve tracks_match_suffixes : tracks.

Lemma tracks_iteration bound allowed rd : tracks (iteration bound allowed rd).
Proof.
  destruct rd as [r lk]. unfold iteration.
  destruct r as [raw | |]; [| track |].
  - destruct (binary_Read raw); track.
  - destruct (binary_Read []); track.
Qed.

#[local] Hint Resolve tracks_iteration : tracks.

Lemma tracks_event_loop bound allowed rs : tracks (event_loop bound allowed rs).
Proof.
  induction rs as [| rd rs IH]; simpl; [track |].
  apply tracks_bind; [track |].
  intros [|]; track.
Qed.

Lemma tracks_exit_path : tracks exit_path.
Proof. unfold exit_path. track. Qed.

#[local] Hint Resolve tracks_link_programs tracks_seed_allow_map
  tracks_open_reader tracks_event_loop tracks_exit_path : tracks.

Lemma tracks_kntrl_after_load w mode hosts spec :
  tracks (kntrl_after_load w mode hosts spec).
Proof. unfold kntrl_after_load. track. Qed.

Lemma tracks_tracer_after_load cfg w mode hosts ips spec :
  tracks (tracer_after_load cfg w mode hosts ips spec).
Proof. unfold tracer_after_load, tracer.set_mode. track. Qed.

Section Keeping.

Lemma run_deferred_keeps d st :
  exists t,
    trace (run_deferred d st).2 = trace st ++ t /\
    allow_puts t = [] /\
    collection (run_deferred d st).2 = collection st.
Proof.
  destruct d; simpl; try (eexists [_]; repeat split; reflexivity).
  unfold ebpfProgram.clean. destruct (collection st) eqn:Hc.
  - exists [CollectionClose]. simpl. auto.
  - exists []. rewrite app_nil_r. auto.
Qed.

(** The deferred calls write nothing. *)
Lemma run_all_deferred_keeps ds o st :
  exists t,
    trace (run_all_deferred ds o st).2 = trace st ++ t /\
    allow_puts t = [] /\
    collection (run_all_deferred ds o st).2 = collection st.
Proof.
  revert o st. induction ds as [| d ds IH]; intros o st; simpl.
  - exists []. rewrite app_nil_r. auto.
  - destruct (run_deferred_keeps d st) as (t1 & Ht1 & Hp1 & Hc1).
    destruct (run_deferred d st) as [r st1]. simpl in *.
    assert (Hgo : forall o',
               exists t,
                 trace (run_all_deferred ds o' st1).2 = trace st ++ t /\
                 allow_puts t = [] /\
                 collection (run_all_deferred ds o' st1).2 = collection st).
    { intros o'. destruct (IH o' st1) as (t2 & Ht2 & Hp2 & Hc2).
      exists (t1 ++ t2). rewrite Ht2, Ht1, app_assoc, allow_puts_app, Hp1, Hp2.
      split; [reflexivity |]. split; [reflexivity | congruence]. }
    destruct r as [u | [e | | p |]]; apply Hgo.
Qed.

(** The end of a run writes nothing. *)
Lemma finish_keeps r :
  exists t,
    trace (finish r).2 = trace r.2 ++ t /\
    allow_puts t = [] /\
    collection (finish r).2 = collection r.2.
Proof.
  destruct r as [r st].
  assert (Hsame : exists t, trace st = trace st ++ t /\ allow_puts t = [] /\
                            collection st = collection st).
  { exists []. rewrite app_nil_r. auto. }
  unfold finish.
  destruct r as [[] | [e | | p |]]; simpl;
    try apply run_all_deferred_keeps; exact Hsame.
Qed.

Lemma finish_allow_keys r : allow_keys (finish r).2 = allow_keys r.2.
Proof.
  destruct (finish_keeps r) as (_ & _ & _ & Hc).
  unfold allow_keys. rewrite Hc. reflexivity.
Qed.

(** ** More reads, no fewer keys *)

Lemma below_bind {A} (m : M A) (k1 k2 : A -> M unit) :
  (forall a, below (k1 a) (k2 a)) -> below (bind m k1) (bind m k2).
Proof.
  intros H st. unfold bind. destruct (m st) as [[a | s] st1]; [apply H |].
  reflexivity.
Qed.

Lemma tracks_grows {A} (m : M A) st :
  tracks m -> allow_keys st ⊆ allow_keys (m st).2.
Proof.
  intros Hm. destruct (m st) as [r st'] eqn:E.
  destruct (Hm _ _ _ E) as (t & _ & Hk). simpl. rewrite Hk.
  apply union_subseteq_l.
Qed.

Lemma bind_bind {A B C} (m : M A) (f : A -> M B) (g : B -> M C) st :
  bind (bind m f) g st
  = match m st with
    | (inl a, st1) => bind (f a) g st1
    | (inr s, st1) => (inr s, st1)
    end.
Proof. unfold bind. destruct (m st) as [[a | s] st1]; reflexivity. Qed.

Lemma event_loop_prefix bound allowed rs1 rs2 (k : M unit) :
  tracks k ->
  below (bind (event_loop bound allowed rs1) (fun _ => k))
        (bind (event_loop bound allowed (rs1 ++ rs2)) (fun _ => k)).
Proof.
  intros Hk. induction rs1 as [| rd rs1 IH]; intros st.
  - simpl app. change (bind (event_loop bound allowed []) (fun _ => k) st)
      with (@inr unit stop Block, st).
    apply tracks_grows.
    apply tracks_bind; [apply tracks_event_loop | intros _; exact Hk].
  - simpl. rewrite !bind_bind.
    destruct (iteration bound allowed rd st) as [[[|] | s] st1];
      [apply IH | reflexivity | reflexivity].
Qed.

(** The body of [kntrl.Run] either stops before it has a collection, or
    loads one and goes on from there. *)
Lemma kntrl_body_cases w mode hosts :
  collection (kntrl.body w mode hosts initial).2 = None \/
  exists spec c0,
    NewCollection_res w = Some c0 /\
    kntrl.body w mode hosts initial
    = kntrl_after_load w mode hosts spec
        (mkState [ReporterNew; RemoveMemlock; LoadArtifact] [DClean]
                 (Some c0)).
Proof.
  unfold kntrl.body, ebpfProgram.load.
  destruct (IsRoot w); [| left; reflexivity].
  destruct (RemoveMemlock_ok w); [| left; reflexivity].
  destruct (LoadCollectionSpec_res w) as [spec |]; [| left; reflexivity].
  destruct (NewCollection_res w) as [c0 |]; [| left; reflexivity].
  right. exists spec, c0. split; reflexivity.
Qed.

(** ** The reads to come matter to the main loop only *)

Lemma link_programs_with_reads w rs ps :
  link_programs (with_reads w rs) ps = link_programs w ps.
Proof.
  induction ps as [| p ps IH]; [reflexivity |].
  simpl. rewrite IH. reflexivity.
Qed.

Lemma below_bind_ext {A} (m1 m2 : M A) (k1 k2 : A -> M unit) :
  (forall st, m1 st = m2 st) ->
  (forall a, below (k1 a) (k2 a)) -> below (bind m1 k1) (bind m2 k2).
Proof.
  intros Hm H st. unfold bind. rewrite Hm.
  destruct (m2 st) as [[a | s] st1]; [apply H |]. reflexivity.
Qed.

End Keeping.

(** C9. In package kntrl, take the run as far as its first [n] reads (it
    then waits for the next one, unless it has ended before). If it has
    loaded the collection, the keys of the allow map are then the keys the
    map was loaded with and the keys of the writes made so far, every one of
    them; and a run taken further, to [m] reads, has no fewer keys. *)
Theorem allow_map_never_shrinks w mode hosts n m :
  (n <= m)%nat ->
  let run k :=
    (kntrl.Run (with_reads w (take k (reads w))) mode hosts).2 in
  (forall c, collection (run n) = Some c ->
             exists c0,
               NewCollection_res w = Some c0 /\
               allow_keys (run n)
               = dom (ebpf.entries (ebpf.allow_map c0))
                 ∪ list_to_set (allow_puts (trace (run n)))) /\
  allow_keys (run n) ⊆ allow_keys (run m).
Proof.
  intros Hnm run. subst run. cbv beta. split.
  - intros c. unfold kntrl.Run.
    destruct (finish_keeps
                (kntrl.body (with_reads w (take n (reads w))) mode hosts
                            initial)) as (tf & Htf & Hpf & Hcf).
    rewrite finish_allow_keys, Htf, allow_puts_app, Hpf, app_nil_r, Hcf.
    clear Htf Hpf Hcf tf.
    destruct (kntrl_body_cases (with_reads w (take n (reads w))) mode hosts)
      as [-> | (spec & c0 & Hc0 & ->)]; [discriminate |].
    intros _. exists c0. split; [exact Hc0 |].
    destruct (kntrl_after_load _ mode hosts spec _) as [r st'] eqn:E.
    destruct (tracks_kntrl_after_load _ _ _ _ _ _ _ E) as (t' & Ht' & Hk').
    simpl in *. rewrite Hk', Ht'. reflexivity.
  - unfold kntrl.Run. rewrite !finish_allow_keys.
    unfold kntrl.body.
    do 6 (apply below_bind_ext; [reflexivity | intros ?]).
    apply below_bind_ext;
      [intros st; rewrite !link_programs_with_reads; reflexivity | intros ?].
    do 5 (apply below_bind_ext; [reflexivity | intros ?]).
    simpl reads.
    rewrite <- (take_drop n (take m (reads w))).
    rewrite take_take, Nat.min_l by lia.
    apply event_loop_prefix, tracks_exit_path.
Qed.

(** A run with two reads to come, after one read and after both. *)
Lemma allow_map_never_shrinks_witness :
  let w := sample.world_of true
             [(ReadOk (encode_IP4Event sample.event), sample.github);
              (ReadErrOther, sample.no_name)] in
  let run k :=
    (kntrl.Run (with_reads w (take k (reads w))) 1
               (parser.parseAllowedIPAddr "10.0.0.1")).2 in
  (forall c, collection (run 1%nat) = Some c ->
             exists c0,
               NewCollection_res w = Some c0 /\
               allow_keys (run 1%nat)
               = dom (ebpf.entries (ebpf.allow_map c0))
                 ∪ list_to_set (allow_puts (trace (run 1%nat)))) /\
  allow_keys (run 1%nat) ⊆ allow_keys (run 2%nat).
Proof.
  intros w.
  apply (allow_map_never_shrinks w 1 (parser.parseAllowedIPAddr "10.0.0.1")
           1 2).
  lia.
Defined.

(* ===================================================================== *)
(** * The order of the relaxation and the load *)
(* ===================================================================== *)

Section Order.

Lemma tracks_trace {A} (m : M A) st :
  tracks m -> exists t, trace (m st).2 = trace st ++ t.
Proof.
  intros Hm. destruct (m st) as [r st'] eqn:E.
  destruct (Hm _ _ _ E) as (t & Ht & _). eauto.
Qed.

(** The trace of a run whose body goes on with the tracked [m] from
    [st]. *)
Lemma finish_tracked_trace (m : M unit) st :
  tracks m -> exists t, trace (finish (m st)).2 = trace st ++ t.
Proof.
  intros Hm. destruct (finish_keeps (m st)) as (tf & -> & _).
  destruct (tracks_trace m st Hm) as (t & ->).
  exists (t ++ tf). apply eq_sym, app_assoc.
Qed.

(** Where the first [LoadArtifact] of a trace is. *)
Lemma first_load pre post t0 t :
  pre ++ LoadArtifact :: post = t0 ++ LoadArtifact :: t ->
  ~ In LoadArtifact pre -> ~ In LoadArtifact t0 -> pre = t0.
Proof.
  revert t0. induction pre as [| e pre IH]; intros [| e0 t0]; simpl;
    intros Heq Hpre Ht0.
  - reflexivity.
  - injection Heq as <- _. tauto.
  - injection Heq as -> _. tauto.
  - injection Heq as <- Heq. f_equal. apply IH; tauto.
Qed.

Lemma no_load_in t pre post :
  t = pre ++ LoadArtifact :: post -> ~ In LoadArtifact t -> False.
Proof. intros -> H. apply H, in_elt. Qed.

(** The trace of a run of package kntrl: it ends before the load, or has
    the relaxation right before it. *)
Lemma kntrl_Run_trace w mode hosts :
  ~ In LoadArtifact (trace (kntrl.Run w mode hosts).2) \/
  exists t,
    trace (kntrl.Run w mode hosts).2
    = [ReporterNew; RemoveMemlock] ++ LoadArtifact :: t.
Proof.
  unfold kntrl.Run.
  destruct (IsRoot w) eqn:Hroot.
  2:{ left. unfold kntrl.body. rewrite Hroot. simpl. intuition discriminate. }
  destruct (RemoveMemlock_ok w) eqn:Hmem.
  2:{ left. unfold kntrl.body. rewrite Hroot, Hmem. simpl.
      intuition discriminate. }
  right.
  destruct (LoadCollectionSpec_res w) as [spec |] eqn:Hspec.
  2:{ unfold kntrl.body, ebpfProgram.load. rewrite Hroot, Hmem, Hspec.
      eexists. reflexivity. }
  destruct (NewCollection_res w) as [c0 |] eqn:Hcoll.
  2:{ unfold kntrl.body, ebpfProgram.load. rewrite Hroot, Hmem, Hspec, Hcoll.
      eexists. reflexivity. }
  destruct (finish_tracked_trace
              (kntrl_after_load w mode hosts spec)
              (mkState [ReporterNew; RemoveMemlock; LoadArtifact] [DClean]
                       (Some c0))
              (tracks_kntrl_after_load _ _ _ _)) as [t Ht].
  exists t. etransitivity; [| exact Ht]. f_equal. f_equal.
  unfold kntrl.body, ebpfProgram.load. rewrite Hroot, Hmem, Hspec, Hcoll.
  reflexivity.
Qed.

(** In package kntrl the limit is lifted before the artifact is loaded,
    in every run that loads it. *)
Lemma kntrl_memlock_before_load w mode hosts pre post :
  trace (kntrl.Run w mode hosts).2 = pre ++ LoadArtifact :: post ->
  ~ In LoadArtifact pre ->
  In RemoveMemlock pre.
Proof.
  intros Heq Hpre.
  destruct (kntrl_Run_trace w mode hosts) as [Hno | [t Ht]].
  - exfalso. eapply no_load_in; eassumption.
  - rewrite Ht in Heq. symmetry in Heq.
    apply first_load in Heq; [| exact Hpre | simpl; intuition discriminate].
    subst pre. simpl. auto.
Qed.

(** The trace of a run of package tracer: what comes before the load is
    at most the line on the missing hosts. *)
Lemma tracer_Run_trace cfg w mode hosts :
  exists t0,
    (t0 = [] \/ t0 = [Log Debug MsgNoHosts]) /\
    (trace (tracer.Run cfg w mode hosts).2 = t0 \/
     exists t,
       trace (tracer.Run cfg w mode hosts).2 = t0 ++ LoadArtifact :: t).
Proof.
  unfold tracer.Run.
  destruct (String.eqb mode "") eqn:Hempty.
  { exists []. split; [auto |]. left. unfold tracer.body.
    rewrite Hempty. reflexivity. }
  destruct (negb (String.eqb mode (tracer.TracerModeMonitor cfg)) &&
            negb (String.eqb mode (tracer.TracerModeTrace cfg))) eqn:Hbad.
  { exists []. split; [auto |]. left. unfold tracer.body.
    rewrite Hempty, Hbad. reflexivity. }
  exists (if String.eqb hosts "" then [Log Debug MsgNoHosts] else []).
  split; [destruct (String.eqb hosts ""); auto |].
  destruct (tracer.ParseHosts cfg hosts) as [ips |] eqn:Hips.
  2:{ left. unfold tracer.body. rewrite Hempty, Hbad, Hips.
      destruct (String.eqb hosts ""); reflexivity. }
  destruct (IsRoot w) eqn:Hroot.
  2:{ left. unfold tracer.body. rewrite Hempty, Hbad, Hips, Hroot.
      destruct (String.eqb hosts ""); reflexivity. }
  right.
  destruct (LoadCollectionSpec_res w) as [spec |] eqn:Hspec.
  2:{ unfold tracer.body, ebpfman.Load.
      rewrite Hempty, Hbad, Hips, Hroot, Hspec.
      destruct (String.eqb hosts ""); eexists; reflexivity. }
  destruct (NewCollection_res w) as [c0 |] eqn:Hcoll.
  2:{ unfold tracer.body, ebpfman.Load.
      rewrite Hempty, Hbad, Hips, Hroot, Hspec, Hcoll.
      destruct (String.eqb hosts ""); eexists; reflexivity. }
  destruct (finish_tracked_trace
              (tracer_after_load cfg w mode hosts ips spec)
              (mkState ((if String.eqb hosts ""
                         then [Log Debug MsgNoHosts] else [])
                        ++ [LoadArtifact]) [] (Some c0))
              (tracks_tracer_after_load _ _ _ _ _ _)) as [t Ht].
  exists t. cbn [trace] in Ht. rewrite <- app_assoc in Ht.
  etransitivity; [| exact Ht]. f_equal. f_equal.
  unfold tracer.body, ebpfman.Load.
  rewrite Hempty, Hbad, Hips, Hroot, Hspec, Hcoll.
  destruct (String.eqb hosts ""); reflexivity.
Qed.

(** In package tracer the limit has never been lifted when the artifact
    is loaded. *)
Lemma tracer_no_memlock_before_load cfg w mode hosts pre post :
  trace (tracer.Run cfg w mode hosts).2 = pre ++ LoadArtifact :: post ->
  ~ In LoadArtifact pre ->
  ~ In RemoveMemlock pre.
Proof.
  intros Heq Hpre.
  destruct (tracer_Run_trace cfg w mode hosts) as (t0 & Ht0 & [Ht | [t Ht]]).
  - exfalso. eapply no_load_in; [exact Heq |]. rewrite Ht.
    destruct Ht0 as [-> | ->]; simpl; intuition discriminate.
  - rewrite Ht in Heq. symmetry in Heq.
    apply first_load in Heq;
      [| exact Hpre | destruct Ht0 as [-> | ->]; simpl; intuition discriminate].
    subst pre. destruct Ht0 as [-> | ->]; simpl; intuition discriminate.
Qed.

End Order.

(* ===================================================================== *)
(** * Decoding, the other way round *)
(* ===================================================================== *)

Section DecodeEncode.

Lemma PutUint16_Uint16 a b rest v :
  LittleEndian.Uint16 (a :: b :: rest) = Some v ->
  LittleEndian.PutUint16 v = [a; b].
Proof.
  unfold LittleEndian.Uint16, LittleEndian.PutUint16.
  intros [= <-].
  repeat f_equal; apply byte_of_Z_eq; intros n Hn;
    rewrite ?Z.shiftr_spec by lia; rewrite !Z.lor_spec;
    rewrite <- (Z.shiftl_0_r (byte_to_Z a));
    try (rewrite <- (Z.add_0_r n) at 1 2);
    rewrite !byte_shifted_bit by lia; simpl;
    rewrite ?Z.add_0_r;
    repeat match goal with
      | |- context [Z.ltb ?x 0] => destruct (Z.ltb_spec x 0); try lia
      | |- context [Z.testbit (byte_to_Z ?y) (?k - ?j)] =>
          rewrite (byte_testbit_high y (k - j)) by lia
      end;
    rewrite ?orb_false_r, ?orb_false_l; reflexivity.
Qed.

Lemma PutUint64_Uint64 b0 b1 b2 b3 b4 b5 b6 b7 rest v :
  LittleEndian.Uint64 (b0 :: b1 :: b2 :: b3 :: b4 :: b5 :: b6 :: b7 :: rest)
  = Some v ->
  LittleEndian.PutUint64 v = [b0; b1; b2; b3; b4; b5; b6; b7].
Proof.
  unfold LittleEndian.Uint64, LittleEndian.PutUint64.
  intros [= <-].
  repeat f_equal; apply byte_of_Z_eq; intros n Hn;
    rewrite ?Z.shiftr_spec by lia; rewrite !Z.lor_spec;
    rewrite <- (Z.shiftl_0_r (byte_to_Z b0));
    try (rewrite <- (Z.add_0_r n) at 1 2 3 4 5 6 7 8);
    rewrite !byte_shifted_bit by lia; simpl;
    rewrite ?Z.add_0_r;
    repeat match goal with
      | |- context [Z.ltb ?x 0] => destruct (Z.ltb_spec x 0); try lia
      | |- context [Z.testbit (byte_to_Z ?y) (?k - ?j)] =>
          rewrite (byte_testbit_high y (k - j)) by lia
      end;
    rewrite ?orb_false_r, ?orb_false_l; reflexivity.
Qed.

Lemma Uint16_range a b rest v :
  LittleEndian.Uint16 (a :: b :: rest) = Some v -> is_uint16 v.
Proof.
  intros H. pose proof (PutUint16_Uint16 a b rest v H) as Hput.
  pose proof (Uint16_PutUint16 v) as Hget. rewrite Hput in Hget.
  simpl in H, Hget. rewrite H in Hget. injection Hget as Hv.
  unfold is_uint16. rewrite Hv. apply Z.mod_pos_bound. lia.
Qed.

Lemma Uint32_range a b c d rest v :
  LittleEndian.Uint32 (a :: b :: c :: d :: rest) = Some v -> is_uint32 v.
Proof.
  intros H. pose proof (PutUint32_Uint32 a b c d rest v H) as Hput.
  pose proof (Uint32_PutUint32 v) as Hget. rewrite Hput in Hget.
  simpl in H, Hget. rewrite H in Hget. injection Hget as Hv.
  unfold is_uint32. rewrite Hv. apply Z.mod_pos_bound. lia.
Qed.

Lemma Uint64_range b0 b1 b2 b3 b4 b5 b6 b7 rest v :
  LittleEndian.Uint64 (b0 :: b1 :: b2 :: b3 :: b4 :: b5 :: b6 :: b7 :: rest)
  = Some v -> is_uint64 v.
Proof.
  intros H.
  pose proof (PutUint64_Uint64 b0 b1 b2 b3 b4 b5 b6 b7 rest v H) as Hput.
  pose proof (Uint64_PutUint64 v) as Hget. rewrite Hput in Hget.
  simpl in H, Hget. rewrite H in Hget. injection Hget as Hv.
  unfold is_uint64. rewrite Hv. apply Z.mod_pos_bound. lia.
Qed.

Lemma length_36 {A} (l : list A) :
  length l = 36%nat ->
  exists h1 h2 h3 t h4 h5 : list A,
    l = h1 ++ h2 ++ h3 ++ t ++ h4 ++ h5 /\
    length h1 = 8%nat /\ length h2 = 4%nat /\ length h3 = 2%nat /\
    length t = 16%nat /\ length h4 = 4%nat /\ length h5 = 2%nat.
Proof.
  intros H.
  exists (take 8 l), (take 4 (drop 8 l)), (take 2 (drop 12 l)),
    (take 16 (drop 14 l)), (take 4 (drop 30 l)), (drop 34 l).
  rewrite !length_take, !length_drop.
  split; [| lia].
  rewrite <- (take_drop 8 l) at 1. f_equal.
  rewrite <- (take_drop 4 (drop 8 l)) at 1. f_equal.
  rewrite drop_drop.
  rewrite <- (take_drop 2 (drop (8 + 4) l)) at 1. f_equal.
  rewrite drop_drop.
  rewrite <- (take_drop 16 (drop (8 + 4 + 2) l)) at 1. f_equal.
  rewrite drop_drop.
  rewrite <- (take_drop 4 (drop (8 + 4 + 2 + 16) l)) at 1. f_equal.
  rewrite drop_drop. reflexivity.
Qed.

End DecodeEncode.

(** X1. A record of 36 bytes or more always decodes, to an event whose fields
    are within their widths; written back in the layout, the event gives the
    first 36 bytes of the record: the decoder loses nothing of them. *)
Theorem binary_Read_then_encode raw :
  (IP4Event_size <= length raw)%nat ->
  exists ev,
    binary_Read raw = inr ev /\
    wf_IP4Event ev /\
    encode_IP4Event ev = take IP4Event_size raw.
Proof.
  intros H. rewrite binary_Read_enough by exact H.
  assert (Hbs : length (take IP4Event_size raw) = 36%nat)
    by (rewrite length_take; unfold IP4Event_size in *; lia).
  destruct (length_36 _ Hbs)
    as (h1 & h2 & h3 & t & h4 & h5 & -> & H1 & H2 & H3 & Ht & H4 & H5).
  do 8 (destruct h1 as [| ? h1]; [discriminate H1 |]).
  destruct h1; [| discriminate H1].
  do 4 (destruct h2 as [| ? h2]; [discriminate H2 |]).
  destruct h2; [| discriminate H2].
  do 2 (destruct h3 as [| ? h3]; [discriminate H3 |]).
  destruct h3; [| discriminate H3].
  destruct (length_16 t Ht)
    as (x0 & x1 & x2 & x3 & x4 & x5 & x6 & x7 & x8 & x9 & xa & xb & xc
        & xd & xe & xf & ->).
  do 4 (destruct h4 as [| ? h4]; [discriminate H4 |]).
  destruct h4; [| discriminate H4].
  do 2 (destruct h5 as [| ? h5]; [discriminate H5 |]).
  destruct h5; [| discriminate H5].
  unfold decode_IP4Event.
  cbn [app slice take drop firstn skipn].
  destruct (LittleEndian.Uint64 [b; b0; b1; b2; b3; b4; b5; b6]) as [ts |] eqn:Ets;
    [| discriminate Ets].
  destruct (LittleEndian.Uint32 [b7; b8; b9; b10]) as [pid |] eqn:Epid;
    [| discriminate Epid].
  destruct (LittleEndian.Uint16 [b11; b12]) as [af |] eqn:Eaf;
    [| discriminate Eaf].
  destruct (LittleEndian.Uint32 [b13; b14; b15; b16]) as [daddr |] eqn:Edaddr;
    [| discriminate Edaddr].
  destruct (LittleEndian.Uint16 [b17; b18]) as [dport |] eqn:Edport;
    [| discriminate Edport].
  eexists. split; [reflexivity |]. split.
  - unfold wf_IP4Event. simpl.
    repeat split;
      eauto using Uint16_range, Uint32_range, Uint64_range;
      try (eapply Uint64_range; eassumption);
      try (eapply Uint32_range; eassumption);
      try (eapply Uint16_range; eassumption).
  - unfold encode_IP4Event. cbn [Header TsUs Pid Af Task Daddr Dport].
    rewrite (PutUint64_Uint64 _ _ _ _ _ _ _ _ _ _ Ets),
      (PutUint32_Uint32 _ _ _ _ _ _ Epid),
      (PutUint16_Uint16 _ _ _ _ Eaf),
      (PutUint32_Uint32 _ _ _ _ _ _ Edaddr),
      (PutUint16_Uint16 _ _ _ _ Edport).
    reflexivity.
Qed.

(** A record of 40 bytes: the first 36 make the event. *)
Lemma binary_Read_then_encode_witness :
  exists ev,
    binary_Read (replicate 40 x07) = inr ev /\ wf_IP4Event ev /\
    encode_IP4Event ev = take IP4Event_size (replicate 40 x07).
Proof.
  apply (binary_Read_then_encode (replicate 40 x07)).
  simpl. unfold IP4Event_size. lia.
Defined.

(* ===================================================================== *)
(** * The link loop *)
(* ===================================================================== *)

Section Linking.

Variable w : world.

Lemma link_program_ok p st :
  attachable w p = true ->
  link_program w p st
  = (inl tt, mkState (trace st ++ link_trace p)
                     (closes_of p ++ deferred st) (collection st)).
Proof.
  unfold attachable, link_program, link_trace, closes_of.
  destruct (ebpf.Type_ p); intros H;
    try (apply andb_prop in H as [Ho Ha]; rewrite Ho);
    unfold bind, emit, defer, ret; simpl; rewrite ?H, ?Ha; simpl;
    rewrite <- ?app_assoc; reflexivity.
Qed.

Lemma link_program_fails p st :
  attachable w p = false ->
  link_program w p st
  = (inr (Return (Some (link_failure w p).2)),
     mkState (trace st ++ (link_failure w p).1) (deferred st)
             (collection st)).
Proof.
  unfold attachable, link_program, link_failure.
  destruct (ebpf.Type_ p); intros H; try discriminate H;
    try (destruct (cgroup_open_ok w); simpl in H);
    unfold bind, emit, defer, ret, halt; simpl; rewrite ?H; simpl;
    rewrite <- ?app_assoc; reflexivity.
Qed.

Lemma link_programs_ok ps :
  forallb (attachable w) ps = true ->
  forall st,
    link_programs w ps st
    = (inl tt, mkState (trace st ++ flat_map link_trace ps)
                       (flat_map closes_of (rev ps) ++ deferred st)
                       (collection st)).
Proof.
  induction ps as [| p ps IH]; intros H st.
  - simpl. rewrite app_nil_r. destruct st; reflexivity.
  - simpl in H. apply andb_prop in H as [Hp Hps].
    simpl. unfold bind. rewrite (link_program_ok p st Hp).
    rewrite (IH Hps). simpl.
    rewrite flat_map_app. simpl. rewrite app_nil_r, <- !app_assoc.
    reflexivity.
Qed.

Lemma link_programs_fails ps1 p ps2 :
  forallb (attachable w) ps1 = true ->
  attachable w p = false ->
  forall st,
    link_programs w (ps1 ++ p :: ps2) st
    = (inr (Return (Some (link_failure w p).2)),
       mkState (trace st ++ flat_map link_trace ps1 ++ (link_failure w p).1)
               (flat_map closes_of (rev ps1) ++ deferred st)
               (collection st)).
Proof.
  induction ps1 as [| q ps1 IH]; intros H Hp st.
  - simpl. unfold bind. rewrite (link_program_fails p st Hp). reflexivity.
  - simpl in H. apply andb_prop in H as [Hq Hps].
    simpl. unfold bind. rewrite (link_program_ok q st Hq).
    rewrite (IH Hps Hp). simpl.
    rewrite flat_map_app. simpl. rewrite app_nil_r, <- !app_assoc.
    reflexivity.
Qed.

(** The loop goes through only when every program can be linked. *)
Lemma link_programs_inl ps st st' :
  link_programs w ps st = (inl tt, st') ->
  forallb (attachable w) ps = true.
Proof.
  revert st. induction ps as [| p ps IH]; intros st H; [reflexivity |].
  simpl in *. unfold bind in H.
  destruct (attachable w p) eqn:Hp.
  - rewrite (link_program_ok p st Hp) in H. simpl. eapply IH, H.
  - rewrite (link_program_fails p st Hp) in H. discriminate H.
Qed.

Lemma attached_app t1 t2 : attached (t1 ++ t2) = attached t1 ++ attached t2.
Proof.
  induction t1 as [| e t1 IH]; [reflexivity |].
  destruct e; simpl; congruence.
Qed.

Lemma warned_app t1 t2 : warned (t1 ++ t2) = warned t1 ++ warned t2.
Proof.
  induction t1 as [| e t1 IH]; [reflexivity |].
  destruct e as [| | | | | | | | | | | | | | | | [] []]; simpl; congruence.
Qed.

Lemma attached_link_trace ps :
  attached (flat_map link_trace ps)
  = map ebpf.Name (List.filter recognized ps).
Proof.
  induction ps as [| p ps IH]; [reflexivity |].
  change (flat_map link_trace (p :: ps))
    with (link_trace p ++ flat_map link_trace ps).
  rewrite attached_app, IH. unfold link_trace, recognized. simpl.
  destruct (ebpf.Type_ p); reflexivity.
Qed.

Lemma warned_link_trace ps :
  warned (flat_map link_trace ps)
  = map ebpf.Name (List.filter (fun p => negb (recognized p)) ps).
Proof.
  induction ps as [| p ps IH]; [reflexivity |].
  change (flat_map link_trace (p :: ps))
    with (link_trace p ++ flat_map link_trace ps).
  rewrite warned_app, IH. unfold link_trace, recognized. simpl.
  destruct (ebpf.Type_ p); reflexivity.
Qed.

End Linking.

(** With a loaded collection the deferred calls run one after the other,
    the latest first, each making its release; none panics. *)
Lemma run_all_deferred_release ds o st c :
  collection st = Some c ->
  run_all_deferred ds o st
  = (o, mkState (trace st ++ map release ds) (deferred st) (Some c)).
Proof.
  revert st. induction ds as [| d ds IH]; intros st Hc.
  - simpl. rewrite app_nil_r, <- Hc. destruct st; reflexivity.
  - simpl.
    assert (Hd : run_deferred d st
                 = (inl tt, mkState (trace st ++ [release d]) (deferred st)
                                    (Some c))).
    { destruct d; simpl; unfold ebpfProgram.clean, ebpfman.Clean, emit;
        rewrite ?Hc; reflexivity. }
    rewrite Hd.
    rewrite (IH (mkState (trace st ++ [release d]) (deferred st) (Some c))
                eq_refl).
    simpl. rewrite <- app_assoc. reflexivity.
Qed.

(** X2. When every program can be linked, the link loop attaches the programs
    of the four kinds it knows, each once and in the order of the loop, warns
    about every other program and attaches none of those, and defers a close
    for every attachment (and for the control group opened for it), so that
    the closes run in the reverse order of the attachments. *)
Theorem link_loop_attaches_all w ps st :
  forallb (attachable w) ps = true ->
  exists t,
    link_programs w ps st
    = (inl tt, mkState (trace st ++ t)
                       (flat_map closes_of (rev ps) ++ deferred st)
                       (collection st)) /\
    attached t = map ebpf.Name (List.filter recognized ps) /\
    warned t = map ebpf.Name (List.filter (fun p => negb (recognized p)) ps).
Proof.
  intros H. exists (flat_map link_trace ps).
  split; [apply link_programs_ok, H |].
  split; [apply attached_link_trace | apply warned_link_trace].
Qed.

(** The three programs of the sample: a probe, a control-group program
    and one of another kind. *)
Lemma link_loop_attaches_all_witness :
  exists t,
    link_programs (sample.world_of true []) sample.programs sample.loaded
    = (inl tt,
       mkState (trace sample.loaded ++ t)
               (flat_map closes_of (rev sample.programs)
                  ++ deferred sample.loaded)
               (collection sample.loaded)) /\
    attached t = map ebpf.Name (List.filter recognized sample.programs) /\
    warned t = map ebpf.Name
                   (List.filter (fun p => negb (recognized p))
                                sample.programs).
Proof.
  apply (link_loop_attaches_all (sample.world_of true []) sample.programs
           sample.loaded).
  reflexivity.
Defined.

(* ===================================================================== *)
(** * What the parts of a run leave alone, and how they stop *)
(* ===================================================================== *)

Section Keeps.

Context {X : Type} (f : state -> X).

Lemma keeps_ret {A} (a : A) : keeps f (ret a).
Proof. intros st r st' [= <- <-]. reflexivity. Qed.

Lemma keeps_halt {A} s : keeps f (@halt A s).
Proof. intros st r st' [= <- <-]. reflexivity. Qed.

Lemma keeps_bind {A B} (m : M A) (k : A -> M B) :
  keeps f m -> (forall a, keeps f (k a)) -> keeps f (bind m k).
Proof.
  intros Hm Hk st r st' H. unfold bind in H.
  destruct (m st) as [[a | s] st1] eqn:E.
  - rewrite (Hk a _ _ _ H). apply (Hm _ _ _ E).
  - injection H as <- <-. apply (Hm _ _ _ E).
Qed.

Lemma keeps_if {A} (b : bool) (m1 m2 : M A) :
  keeps f m1 -> keeps f m2 -> keeps f (if b then m1 else m2).
Proof. destruct b; auto. Qed.

End Keeps.

Section Frame.

Lemma frame_emit e : keeps frame (emit e).
Proof. intros st r st' [= <- <-]. reflexivity. Qed.

Lemma frame_return_if c e : keeps frame (return_if c e).
Proof. apply keeps_if; [apply keeps_halt | apply keeps_ret]. Qed.

Lemma frame_Fatalf {A} msg : keeps frame (@Fatalf A msg).
Proof.
  apply keeps_bind; [apply frame_emit | intros _; apply keeps_halt].
Qed.

Lemma frame_map_put_allow key value :
  keeps frame (map_put AllowMap key value).
Proof.
  intros st r st' H. unfold map_put in H.
  destruct (collection st) as [c |] eqn:Hc.
  - destruct (ebpf.Put (get_map AllowMap c) key value) as [e | m'].
    + apply (frame_Fatalf (A := unit) _ _ _ _ H).
    + injection H as <- <-. unfold frame. simpl. rewrite Hc. reflexivity.
  - injection H as <- <-. reflexivity.
Qed.

End Frame.

Create HintDb frame.

#[local] Hint Resolve keeps_ret keeps_halt frame_emit frame_return_if
  frame_Fatalf frame_map_put_allow : frame.

(** Takes a computation apart as [track] does, for what it keeps. *)
Ltac framed :=
  repeat first
    [ solve [auto 1 with frame nocore]
    | apply keeps_if
    | apply keeps_bind; [| intros ?] ].

Lemma frame_seed_allow_map hosts : keeps frame (seed_allow_map hosts).
Proof.
  induction hosts as [| h hosts IH]; simpl; [framed |].
  destruct (LittleEndian.Uint32 h); framed.
Qed.

Lemma frame_match_names allowed i d domain :
  keeps frame (match_names allowed i d domain).
Proof.
  induction domain as [| name domain IH]; simpl; [framed |].
  destruct (allowed !! i); framed.
Qed.

#[local] Hint Resolve frame_match_names : frame.

Lemma frame_match_suffixes left i allowed d domain :
  keeps frame (match_suffixes left i allowed d domain).
Proof.
  revert i. induction left as [| left IH]; intros i; simpl; framed.
Qed.

#[local] Hint Resolve frame_match_suffixes : frame.

Lemma frame_iteration bound allowed rd :
  keeps frame (iteration bound allowed rd).
Proof.
  destruct rd as [r lk]. unfold iteration.
  destruct r as [raw | |]; [| framed |].
  - destruct (binary_Read raw); framed.
  - destruct (binary_Read []); framed.
Qed.

#[local] Hint Resolve frame_iteration : frame.

Lemma frame_event_loop bound allowed rs :
  keeps frame (event_loop bound allowed rs).
Proof.
  induction rs as [| rd rs IH]; simpl; [framed |].
  apply keeps_bind; [framed |].
  intros [|]; framed.
Qed.

Lemma frame_exit_path : keeps frame exit_path.
Proof. unfold exit_path. framed. Qed.

#[local] Hint Resolve frame_seed_allow_map frame_event_loop frame_exit_path
  : frame.

Section Stops.

Variable S : stop -> Prop.

Lemma stops_in_ret {A} (a : A) : stops_in S (ret a).
Proof. intros st s st' [=]. Qed.

Lemma stops_in_emit e : stops_in S (emit e).
Proof. intros st s st' [=]. Qed.

Lemma stops_in_defer d : stops_in S (defer d).
Proof. intros st s st' [=]. Qed.

Lemma stops_in_halt {A} s : S s -> stops_in S (@halt A s).
Proof. intros Hs st s' st' [= <- <-]. exact Hs. Qed.

Lemma stops_in_bind {A B} (m : M A) (k : A -> M B) :
  stops_in S m -> (forall a, stops_in S (k a)) -> stops_in S (bind m k).
Proof.
  intros Hm Hk st s st' H. unfold bind in H.
  destruct (m st) as [[a | s1] st1] eqn:E.
  - apply (Hk a _ _ _ H).
  - injection H as <- <-. apply (Hm _ _ _ E).
Qed.

Lemma stops_in_if {A} (b : bool) (m1 m2 : M A) :
  stops_in S m1 -> stops_in S m2 -> stops_in S (if b then m1 else m2).
Proof. destruct b; auto. Qed.

Lemma stops_in_Fatalf {A} msg : S Exit -> stops_in S (@Fatalf A msg).
Proof.
  intros HS. apply stops_in_bind; [apply stops_in_emit |].
  intros _. apply stops_in_halt, HS.
Qed.

Lemma stops_in_map_put n key value :
  S Exit -> S (Panic NilDereference) -> stops_in S (map_put n key value).
Proof.
  intros HE HP st s st' H. unfold map_put in H.
  destruct (collection st) as [c |].
  - destruct (ebpf.Put (get_map n c) key value); [| discriminate H].
    apply (stops_in_Fatalf (A := unit) _ HE _ _ _ H).
  - injection H as <- <-. exact HP.
Qed.

End Stops.

Lemma stops_in_weaken {A} (S S' : stop -> Prop) (m : M A) :
  (forall s, S s -> S' s) -> stops_in S m -> stops_in S' m.
Proof. intros HS Hm st s st' H. apply HS, (Hm _ _ _ H). Qed.

(** Takes a computation apart for the ways it stops; what is left is to
    show the stops themselves allowed. *)
Ltac stopping :=
  repeat first
    [ apply stops_in_ret
    | apply stops_in_emit
    | apply stops_in_defer
    | apply stops_in_halt
    | apply stops_in_Fatalf
    | apply stops_in_map_put
    | apply stops_in_if
    | apply stops_in_bind; [| intros ?] ];
  try exact I.

Lemma stops_seed_allow_map hosts : stops_in fatal (seed_allow_map hosts).
Proof.
  induction hosts as [| h hosts IH]; simpl; [stopping |].
  destruct (LittleEndian.Uint32 h); [| stopping].
  apply stops_in_bind; [stopping | intros _; exact IH].
Qed.

Lemma stops_match_names allowed i d domain :
  stops_in fatal (match_names allowed i d domain).
Proof.
  induction domain as [| name domain IH]; simpl; [stopping |].
  destruct (allowed !! i); [| stopping].
  apply stops_in_bind; [stopping | intros _; exact IH].
Qed.

Lemma stops_match_suffixes left i allowed d domain :
  stops_in fatal (match_suffixes left i allowed d domain).
Proof.
  revert i. induction left as [| left IH]; intros i; simpl; [stopping |].
  apply stops_in_bind; [apply stops_match_names | intros _; apply IH].
Qed.

Lemma stops_iteration bound allowed rd :
  stops_in fatal (iteration bound allowed rd).
Proof.
  destruct rd as [r lk]. unfold iteration.
  destruct r as [raw | |]; [| stopping |].
  - apply stops_in_bind; [stopping | intros _].
    destruct (binary_Read raw); [stopping |].
    apply stops_in_bind; [apply stops_match_suffixes | intros _; stopping].
  - apply stops_in_bind; [stopping | intros _].
    destruct (binary_Read []); [stopping |].
    apply stops_in_bind; [apply stops_match_suffixes | intros _; stopping].
Qed.

(** The main loop stops by ending the process or by waiting for a read. *)
Lemma stops_event_loop bound allowed rs :
  stops_in (fun s => fatal s \/ s = Block) (event_loop bound allowed rs).
Proof.
  induction rs as [| rd rs IH]; simpl; [stopping; auto |].
  apply stops_in_bind.
  - eapply stops_in_weaken; [| apply stops_iteration]. auto.
  - intros [|]; [exact IH | stopping].
Qed.

Lemma stops_open_reader w r : stops_in fatal (open_reader w r).
Proof. unfold open_reader. stopping. Qed.

Lemma stops_link_program w p :
  stops_in (fun s => exists e, s = Return (Some e) /\ link_error e)
           (link_program w p).
Proof.
  unfold link_program.
  destruct (ebpf.Type_ p); stopping; eexists; (split; [reflexivity |]);
    unfold link_error; eauto.
Qed.

Lemma stops_link_programs w ps :
  stops_in (fun s => exists e, s = Return (Some e) /\ link_error e)
           (link_programs w ps).
Proof.
  induction ps as [| p ps IH]; simpl; [stopping |].
  apply stops_in_bind; [apply stops_link_program | intros _; exact IH].
Qed.

(** Once the collection is loaded, [kntrl.Run] stops by ending the
    process, by waiting, by returning nil or by returning an error of the
    link loop. *)
Lemma stops_kntrl_after_load w mode hosts spec :
  stops_in kntrl_stop (kntrl_after_load w mode hosts spec).
Proof.
  unfold kntrl_after_load.
  apply stops_in_bind.
  { eapply stops_in_weaken; [| apply stops_link_programs].
    intros s (e & -> & He). exact He. }
  intros _. apply stops_in_bind; [stopping | intros _].
  apply stops_in_bind.
  { eapply stops_in_weaken; [| apply stops_seed_allow_map].
    intros [[e |] | | |]; simpl; tauto. }
  intros _. apply stops_in_bind.
  { eapply stops_in_weaken; [| apply stops_open_reader].
    intros [[e |] | | |]; simpl; tauto. }
  intros _. apply stops_in_bind.
  { eapply stops_in_weaken; [| apply stops_open_reader].
    intros [[e |] | | |]; simpl; tauto. }
  intros _. apply stops_in_bind; [stopping | intros _].
  apply stops_in_bind.
  { eapply stops_in_weaken; [| apply stops_event_loop].
    intros [[e |] | | |]; simpl; intros [H | H]; try tauto; discriminate H. }
  intros _. unfold exit_path. stopping.
Qed.

(* ===================================================================== *)
(** * Runs of package kntrl, from the load to the end *)
(* ===================================================================== *)

Section KntrlRuns.

Lemma bind_inr {A B} (m : M A) (k : A -> M B) st s st' :
  bind m k st = (inr s, st') ->
  m st = (inr s, st') \/
  exists a st1, m st = (inl a, st1) /\ k a st1 = (inr s, st').
Proof.
  unfold bind. destruct (m st) as [[a | s1] st1]; intros H.
  - right. exists a, st1. split; [reflexivity | exact H].
  - left. injection H as <- <-. reflexivity.
Qed.

(** A step that cannot stop with [s] has gone through when the whole
    stops with [s]. *)
Lemma bind_passes {A B} (S : stop -> Prop) (m : M A) (k : A -> M B)
      st s st' :
  stops_in S m -> ~ S s ->
  bind m k st = (inr s, st') ->
  exists a st1, m st = (inl a, st1) /\ k a st1 = (inr s, st').
Proof.
  intros Hm Hs H. apply bind_inr in H as [H | H]; [| exact H].
  destruct Hs. apply (Hm _ _ _ H).
Qed.

(** With the user root, the memory limit lifted and the collection
    loaded, the body of [kntrl.Run] goes on from [kntrl_loaded]. *)
Lemma kntrl_body_loaded w mode hosts spec c0 :
  IsRoot w = true -> RemoveMemlock_ok w = true ->
  LoadCollectionSpec_res w = Some spec -> NewCollection_res w = Some c0 ->
  kntrl.body w mode hosts initial
  = kntrl_after_load w mode hosts spec (kntrl_loaded c0).
Proof.
  intros Hr Hm Hs Hc. unfold kntrl.body, ebpfProgram.load.
  rewrite Hr, Hm, Hs, Hc. reflexivity.
Qed.

(** How a run of [kntrl.Run] can go before it has a collection. *)
Lemma kntrl_Run_unloaded w mode hosts :
  (IsRoot w && RemoveMemlock_ok w)%bool = false \/
  LoadCollectionSpec_res w = None \/ NewCollection_res w = None ->
  (kntrl.Run w mode hosts).1 = Panicked NilDereference \/
  (kntrl.Run w mode hosts).1 = Exited.
Proof.
  unfold kntrl.Run, kntrl.body, ebpfProgram.load.
  destruct (IsRoot w); [| left; reflexivity].
  destruct (RemoveMemlock_ok w); [| left; reflexivity].
  destruct (LoadCollectionSpec_res w); [| right; reflexivity].
  destruct (NewCollection_res w); [| right; reflexivity].
  intros [H | [H | H]]; discriminate H.
Qed.

(** A run either never has a collection, and then panics or exits, or
    goes on from [kntrl_loaded]. *)
Lemma kntrl_Run_cases w mode hosts :
  ((kntrl.Run w mode hosts).1 = Panicked NilDereference \/
   (kntrl.Run w mode hosts).1 = Exited) \/
  exists spec c0,
    LoadCollectionSpec_res w = Some spec /\ NewCollection_res w = Some c0 /\
    kntrl.Run w mode hosts
    = finish (kntrl_after_load w mode hosts spec (kntrl_loaded c0)).
Proof.
  destruct (IsRoot w) eqn:Hr;
    [| left; apply kntrl_Run_unloaded; left; rewrite Hr; reflexivity].
  destruct (RemoveMemlock_ok w) eqn:Hm;
    [| left; apply kntrl_Run_unloaded; left; rewrite Hr, Hm; reflexivity].
  destruct (LoadCollectionSpec_res w) as [spec |] eqn:Hs;
    [| left; apply kntrl_Run_unloaded; auto].
  destruct (NewCollection_res w) as [c0 |] eqn:Hc;
    [| left; apply kntrl_Run_unloaded; auto].
  right. exists spec, c0. split; [reflexivity |]. split; [reflexivity |].
  unfold kntrl.Run. rewrite (kntrl_body_loaded w mode hosts spec c0); auto.
Qed.

Lemma cgroup_opens_app t1 t2 :
  cgroup_opens (t1 ++ t2) = (cgroup_opens t1 + cgroup_opens t2)%nat.
Proof.
  induction t1 as [| e t1 IH]; [reflexivity |].
  destruct e; simpl; rewrite IH; reflexivity.
Qed.

Lemma cgroup_closes_app t1 t2 :
  cgroup_closes (t1 ++ t2) = (cgroup_closes t1 + cgroup_closes t2)%nat.
Proof.
  induction t1 as [| e t1 IH]; [reflexivity |].
  destruct e; simpl; rewrite IH; reflexivity.
Qed.

(** The link loop closes nothing. *)
Lemma cgroup_closes_link_trace ps :
  cgroup_closes (flat_map link_trace ps) = 0%nat.
Proof.
  induction ps as [| p ps IH]; [reflexivity |].
  change (flat_map link_trace (p :: ps))
    with (link_trace p ++ flat_map link_trace ps).
  rewrite cgroup_closes_app, IH. unfold link_trace.
  destruct (ebpf.Type_ p); reflexivity.
Qed.

(** The deferred calls open nothing. *)
Lemma cgroup_opens_release ds : cgroup_opens (map release ds) = 0%nat.
Proof.
  induction ds as [| d ds IH]; [reflexivity |].
  destruct d; simpl; exact IH.
Qed.

(** Every control group the link loop has opened in turns that went
    through has its close among the deferred calls. *)
Lemma cgroup_balance ps :
  cgroup_closes (map release (flat_map closes_of (rev ps)))
  = cgroup_opens (flat_map link_trace ps).
Proof.
  induction ps as [| p ps IH]; [reflexivity |].
  change (flat_map link_trace (p :: ps))
    with (link_trace p ++ flat_map link_trace ps).
  simpl rev. rewrite flat_map_app, map_app, cgroup_closes_app,
    cgroup_opens_app, IH. simpl. rewrite app_nil_r.
  unfold closes_of, link_trace.
  destruct (ebpf.Type_ p); simpl; lia.
Qed.

Lemma bind_inl {A B} (m : M A) (k : A -> M B) st b st' :
  bind m k st = (inl b, st') ->
  exists a st1, m st = (inl a, st1) /\ k a st1 = (inl b, st').
Proof.
  unfold bind. destruct (m st) as [[a | s1] st1]; intros H.
  - exists a, st1. split; [reflexivity | exact H].
  - discriminate H.
Qed.

(** A turn of the main loop goes to [EXIT] only when its read fails
    with the reader closed. *)
Lemma iteration_GotoExit bound allowed r lk st st' :
  iteration bound allowed (r, lk) st = (inl GotoExit, st') ->
  r = ReadErrClosed.
Proof.
  destruct r as [raw | |]; [| reflexivity |]; unfold iteration; intros H;
    apply bind_inl in H as ([] & st1 & _ & H).
  - destruct (binary_Read raw).
    + apply bind_inl in H as ([] & st2 & _ & H). discriminate H.
    + apply bind_inl in H as ([] & st2 & _ & H).
      apply bind_inl in H as ([] & st3 & _ & H). discriminate H.
  - destruct (binary_Read []).
    + apply bind_inl in H as ([] & st2 & _ & H). discriminate H.
    + apply bind_inl in H as ([] & st2 & _ & H).
      apply bind_inl in H as ([] & st3 & _ & H). discriminate H.
Qed.

(** The main loop is left for [EXIT] only by a read that fails with
    the reader closed. *)
Lemma event_loop_inl bound allowed rs st st' :
  event_loop bound allowed rs st = (inl tt, st') ->
  exists rs1 lk rs2,
    rs = rs1 ++ (ReadErrClosed, lk) :: rs2 /\
    Forall (fun rd => rd.1 <> ReadErrClosed) rs1.
Proof.
  revert st. induction rs as [| [r lk] rs IH]; intros st H;
    [discriminate H |].
  change (event_loop bound allowed ((r, lk) :: rs))
    with (bind (iteration bound allowed (r, lk))
               (fun n => match n with
                         | GotoExit => ret tt
                         | Continue => event_loop bound allowed rs
                         end)) in H.
  apply bind_inl in H as (n & st1 & E & H).
  destruct n.
  - destruct (IH _ H) as (rs1 & lk' & rs2 & -> & Hrs1).
    exists ((r, lk) :: rs1), lk', rs2.
    split; [reflexivity |]. constructor; [| exact Hrs1].
    simpl. intros ->. discriminate E.
  - apply iteration_GotoExit in E as ->.
    exists [], lk, rs. split; [reflexivity | constructor].
Qed.

Lemma exit_path_eq st :
  exit_path st
  = (inr (Return None),
     mkState (trace st ++ exit_calls) (deferred st) (collection st)).
Proof.
  unfold exit_path, bind, emit, halt, exit_calls. simpl.
  rewrite <- !app_assoc. reflexivity.
Qed.

Lemma open_reader_inl w r st st' :
  open_reader w r st = (inl tt, st') ->
  NewReader_ok w r = true /\
  st' = mkState (trace st ++ [ReaderOpen r]) (DReaderClose r :: deferred st)
                (collection st).
Proof.
  unfold open_reader, bind, emit. destruct (NewReader_ok w r).
  - intros [= <-]. split; reflexivity.
  - discriminate.
Qed.

Lemma map_put_inl n key value st st' :
  map_put n key value st = (inl tt, st') ->
  exists c m',
    collection st = Some c /\ ebpf.Put (get_map n c) key value = inr m' /\
    st' = mkState (trace st ++
                     [MapPut n (ebpf.marshal key) (ebpf.marshal value)])
                  (deferred st) (Some (set_map n m' c)).
Proof.
  unfold map_put. destruct (collection st) as [c |]; [| discriminate].
  destruct (ebpf.Put (get_map n c) key value) as [e | m'] eqn:E.
  - discriminate.
  - intros [= <-]. exists c, m'. auto.
Qed.

Lemma frame_loaded st st' :
  frame st' = frame st -> is_Some (collection st) ->
  is_Some (collection st').
Proof.
  unfold frame. intros [= _ H] [c Hc]. rewrite Hc in H.
  destruct (collection st'); [eauto | discriminate H].
Qed.

(** The way of a run that has come to the main loop: the link loop went
    through, the mode was written, the addresses were seeded and the two
    readers opened. *)
Lemma kntrl_reaches_loop w mode hosts spec st s st' :
  is_Some (collection st) ->
  s = Return None \/ s = Block ->
  kntrl_after_load w mode hosts spec st = (inr s, st') ->
  forallb (attachable w) spec = true /\
  exists st1,
    deferred st1
    = [DReaderClose ClosedEvents; DReaderClose OpenedEvents]
        ++ flat_map closes_of (rev spec) ++ deferred st /\
    is_Some (collection st1) /\
    (exists t, trace st1 = trace st ++ t) /\
    (event_loop (length kntrl.allowedHosts) kntrl.allowedHosts (reads w) ;;
     exit_path) st1 = (inr s, st').
Proof.
  intros Hc Hs H. unfold kntrl_after_load in H.
  apply (bind_passes _ _ _ _ _ _ (stops_link_programs w spec)) in H
    as ([] & st1 & E1 & H);
    [| intros (e & -> & _); destruct Hs; discriminate].
  pose proof (link_programs_inl _ _ _ _ E1) as Hall.
  rewrite (link_programs_ok w spec Hall) in E1. injection E1 as <-.
  split; [exact Hall |].
  eapply (bind_passes fatal) in H as ([] & st2 & E2 & H);
    [| stopping | intros F; destruct Hs; subst s; exact F].
  apply map_put_inl in E2 as (c & m' & Hc2 & _ & ->).
  eapply (bind_passes fatal) in H as ([] & st3 & E3 & H);
    [| apply stops_seed_allow_map
     | intros F; destruct Hs; subst s; exact F].
  pose proof (frame_seed_allow_map _ _ _ _ E3) as F3.
  destruct (tracks_seed_allow_map hosts _ _ _ E3) as (t3 & Ht3 & _).
  eapply (bind_passes fatal) in H as ([] & st4 & E4 & H);
    [| apply stops_open_reader
     | intros F; destruct Hs; subst s; exact F].
  apply open_reader_inl in E4 as [_ ->].
  eapply (bind_passes fatal) in H as ([] & st5 & E5 & H);
    [| apply stops_open_reader
     | intros F; destruct Hs; subst s; exact F].
  apply open_reader_inl in E5 as [_ ->].
  unfold bind at 1, emit at 1 in H. simpl in H.
  eexists. split; [| split; [| split; [| exact H]]].
  - simpl. injection F3 as -> _. reflexivity.
  - simpl. eapply frame_loaded; [exact F3 | simpl; eauto].
  - simpl. rewrite Ht3. simpl. rewrite <- !app_assoc. eauto.
Qed.

End KntrlRuns.

(* ===================================================================== *)
(** * The calls a part of a run adds *)
(* ===================================================================== *)

Section Adds.

Variable P : effect -> Prop.

Lemma adds_ret {A} (a : A) : adds P (ret a).
Proof.
  intros st r st' [= <- <-]. exists []. rewrite app_nil_r. auto.
Qed.

Lemma adds_halt {A} s : adds P (@halt A s).
Proof.
  intros st r st' [= <- <-]. exists []. rewrite app_nil_r. auto.
Qed.

Lemma adds_defer d : adds P (defer d).
Proof.
  intros st r st' [= <- <-]. exists []. simpl. rewrite app_nil_r. auto.
Qed.

Lemma adds_set_collection c : adds P (set_collection c).
Proof.
  intros st r st' [= <- <-]. exists []. simpl. rewrite app_nil_r. auto.
Qed.

Lemma adds_emit e : P e -> adds P (emit e).
Proof. intros He st r st' [= <- <-]. exists [e]. simpl. auto. Qed.

Lemma adds_bind {A B} (m : M A) (k : A -> M B) :
  adds P m -> (forall a, adds P (k a)) -> adds P (bind m k).
Proof.
  intros Hm Hk st r st' H. unfold bind in H.
  destruct (m st) as [[a | s] st1] eqn:E.
  - destruct (Hm _ _ _ E) as (t1 & Ht1 & HP1).
    destruct (Hk a _ _ _ H) as (t2 & Ht2 & HP2).
    exists (t1 ++ t2). rewrite Ht2, Ht1, <- app_assoc.
    split; [reflexivity | apply Forall_app; auto].
  - injection H as <- <-. apply (Hm _ _ _ E).
Qed.

Lemma adds_if {A} (b : bool) (m1 m2 : M A) :
  adds P m1 -> adds P m2 -> adds P (if b then m1 else m2).
Proof. destruct b; auto. Qed.

Lemma adds_return_if c e : adds P (return_if c e).
Proof. apply adds_if; [apply adds_halt | apply adds_ret]. Qed.

Hypothesis P_Log : forall l m, P (Log l m).

Lemma adds_Fatalf {A} msg : adds P (@Fatalf A msg).
Proof.
  apply adds_bind; [apply adds_emit, P_Log | intros _; apply adds_halt].
Qed.

Lemma adds_map_put n key value :
  P (MapPut n (ebpf.marshal key) (ebpf.marshal value)) ->
  adds P (map_put n key value).
Proof.
  intros HP st r st' H. unfold map_put in H.
  destruct (collection st) as [c |].
  - destruct (ebpf.Put (get_map n c) key value) as [e | m'].
    + apply (adds_Fatalf (A := unit) _ _ _ _ H).
    + injection H as <- <-. eexists [_]. simpl. auto.
  - injection H as <- <-. exists []. rewrite app_nil_r. auto.
Qed.

Lemma adds_open_reader w r : P (ReaderOpen r) -> adds P (open_reader w r).
Proof.
  intros HP. apply adds_bind; [apply adds_emit, HP | intros _].
  apply adds_if; [apply adds_defer | apply adds_Fatalf].
Qed.

Lemma adds_load w :
  P LoadArtifact -> adds P (ebpfProgram.load w).
Proof.
  intros HP. unfold ebpfProgram.load.
  apply adds_bind; [apply adds_emit, HP | intros _].
  destruct (LoadCollectionSpec_res w); [| apply adds_Fatalf].
  destruct (NewCollection_res w); [| apply adds_Fatalf].
  apply adds_bind; [apply adds_set_collection | intros _; apply adds_ret].
Qed.

Lemma adds_Load w :
  P LoadArtifact -> adds P (ebpfman.Load w).
Proof.
  intros HP. unfold ebpfman.Load.
  apply adds_bind; [apply adds_emit, HP | intros _].
  destruct (LoadCollectionSpec_res w); [| apply adds_Fatalf].
  destruct (NewCollection_res w); [| apply adds_Fatalf].
  apply adds_bind; [apply adds_set_collection | intros _; apply adds_ret].
Qed.

Lemma adds_exit_path :
  P WaitDone -> (forall s, P (Println s)) -> P ReporterPrint ->
  P ReporterClean -> adds P exit_path.
Proof.
  intros H1 H2 H3 H4. unfold exit_path.
  repeat (apply adds_bind; [apply adds_emit; auto | intros _]).
  apply adds_halt.
Qed.

Section Attaching.

Hypothesis P_Attach : forall name, P (Attach name).
Hypothesis P_CgroupOpen : P CgroupOpen.

Lemma adds_link_program w p : adds P (link_program w p).
Proof.
  unfold link_program.
  destruct (ebpf.Type_ p);
    repeat first
      [ apply adds_emit; auto
      | apply adds_defer
      | apply adds_halt
      | apply adds_if
      | apply adds_bind; [| intros _] ].
Qed.

Lemma adds_link_programs w ps : adds P (link_programs w ps).
Proof.
  induction ps as [| p ps IH]; simpl; [apply adds_ret |].
  apply adds_bind; [apply adds_link_program | intros _; exact IH].
Qed.

End Attaching.

Section Marking.

Hypothesis P_mark :
  forall key, P (MapPut AllowMap key (LittleEndian.PutUint32 1)).

Lemma adds_seed_allow_map hosts : adds P (seed_allow_map hosts).
Proof.
  induction hosts as [| h hosts IH]; simpl; [apply adds_ret |].
  destruct (LittleEndian.Uint32 h); [| apply adds_halt].
  apply adds_bind; [apply adds_map_put, P_mark | intros _; exact IH].
Qed.

Lemma adds_match_names allowed i d domain :
  adds P (match_names allowed i d domain).
Proof.
  induction domain as [| name domain IH]; simpl; [apply adds_ret |].
  destruct (allowed !! i); [| apply adds_halt].
  apply adds_bind; [| intros _; exact IH].
  apply adds_if; [| apply adds_ret].
  apply adds_bind; [apply adds_map_put, P_mark | intros _].
  apply adds_emit, P_Log.
Qed.

Lemma adds_match_suffixes left i allowed d domain :
  adds P (match_suffixes left i allowed d domain).
Proof.
  revert i. induction left as [| left IH]; intros i; simpl;
    [apply adds_ret |].
  apply adds_bind; [apply adds_match_names | intros _; apply IH].
Qed.

Lemma adds_iteration bound allowed rd :
  adds P (iteration bound allowed rd).
Proof.
  destruct rd as [r lk]. unfold iteration.
  assert (Hrest : forall raw,
             adds P
               match binary_Read raw with
               | inl e => emit (Log Print (MsgParseError e)) ;; ret Continue
               | inr event =>
                   match_suffixes bound 0 allowed (Daddr event)
                                  (resolved lk) ;;
                   emit (Log Info (MsgEvent event (resolved lk))) ;;
                   ret Continue
               end).
  { intros raw. destruct (binary_Read raw).
    - apply adds_bind; [apply adds_emit, P_Log | intros _; apply adds_ret].
    - apply adds_bind; [apply adds_match_suffixes | intros _].
      apply adds_bind; [apply adds_emit, P_Log | intros _; apply adds_ret]. }
  destruct r as [raw | |]; [| apply adds_ret |].
  - apply adds_bind; [apply adds_ret | intros _; apply Hrest].
  - apply adds_bind; [apply adds_emit, P_Log | intros _; apply Hrest].
Qed.

Lemma adds_event_loop bound allowed rs :
  adds P (event_loop bound allowed rs).
Proof.
  induction rs as [| rd rs IH]; simpl; [apply adds_halt |].
  apply adds_bind; [apply adds_iteration |].
  intros [|]; [exact IH | apply adds_ret].
Qed.

End Marking.

End Adds.

Lemma adds_weaken {A} (P Q : effect -> Prop) (m : M A) :
  (forall e, P e -> Q e) -> adds P m -> adds Q m.
Proof.
  intros HPQ Hm st r st' H. destruct (Hm _ _ _ H) as (t & Ht & HP).
  exists t. split; [exact Ht |]. eapply Forall_impl; [exact HP | exact HPQ].
Qed.

(* ===================================================================== *)
(** * How a run ends *)
(* ===================================================================== *)

Section Ending.

(** The deferred calls change the outcome only by a panic. *)
Lemma run_all_deferred_outcome ds o st :
  (run_all_deferred ds o st).1 = o \/
  exists p, (run_all_deferred ds o st).1 = Panicked p.
Proof.
  revert o st. induction ds as [| d ds IH]; intros o st; simpl; [auto |].
  destruct (run_deferred d st) as [[[] | [e | | p |]] st1]; try apply IH.
  right. destruct (IH (Panicked p) st1) as [H | H]; eauto.
Qed.

Lemma finish_Returned r st e st' :
  finish (r, st) = (Returned e, st') ->
  r = inr (Return e) \/ (r = inl tt /\ e = None).
Proof.
  intros H. assert (H1 : (finish (r, st)).1 = Returned e) by (rewrite H; auto).
  clear H. unfold finish in H1.
  destruct r as [[] | [e' | | p |]]; try discriminate H1.
  - destruct (run_all_deferred_outcome (deferred st) (Returned None) st)
      as [H | [p H]]; rewrite H in H1; [| discriminate H1].
    injection H1 as <-. auto.
  - destruct (run_all_deferred_outcome (deferred st) (Returned e') st)
      as [H | [p H]]; rewrite H in H1; [| discriminate H1].
    injection H1 as <-. auto.
  - destruct (run_all_deferred_outcome (deferred st) (Panicked p) st)
      as [H | [p' H]]; rewrite H in H1; discriminate H1.
Qed.

Lemma finish_Exited r st st' :
  finish (r, st) = (Exited, st') -> r = inr Exit /\ st' = st.
Proof.
  intros H. unfold finish in H.
  destruct r as [[] | [e' | | p |]]; try discriminate H.
  - destruct (run_all_deferred_outcome (deferred st) (Returned None) st)
      as [H1 | [p H1]]; rewrite H in H1; discriminate H1.
  - destruct (run_all_deferred_outcome (deferred st) (Returned e') st)
      as [H1 | [p H1]]; rewrite H in H1; discriminate H1.
  - injection H as <-. auto.
  - destruct (run_all_deferred_outcome (deferred st) (Panicked p) st)
      as [H1 | [p' H1]]; rewrite H in H1; discriminate H1.
Qed.

(** The body of [kntrl.Run] does not fall off its end. *)
Lemma kntrl_after_load_stops w mode hosts spec st st' :
  kntrl_after_load w mode hosts spec st <> (inl tt, st').
Proof.
  unfold kntrl_after_load. intros H.
  do 7 apply bind_inl in H as (? & ? & _ & H).
  rewrite exit_path_eq in H. discriminate H.
Qed.

(** A run of [kntrl.Run] that returns an error has stopped in the link
    loop. *)
Lemma kntrl_after_load_error w mode hosts spec st e st' :
  kntrl_after_load w mode hosts spec st = (inr (Return (Some e)), st') ->
  link_programs w spec st = (inr (Return (Some e)), st').
Proof.
  unfold kntrl_after_load. intros H.
  apply bind_inr in H as [H | ([] & st1 & _ & H)]; [exact H |].
  exfalso.
  eapply (bind_passes fatal) in H as ([] & ? & _ & H);
    [| stopping | intros F; exact F].
  eapply (bind_passes fatal) in H as ([] & ? & _ & H);
    [| apply stops_seed_allow_map | intros F; exact F].
  eapply (bind_passes fatal) in H as ([] & ? & _ & H);
    [| apply stops_open_reader | intros F; exact F].
  eapply (bind_passes fatal) in H as ([] & ? & _ & H);
    [| apply stops_open_reader | intros F; exact F].
  eapply (bind_passes fatal) in H as ([] & ? & _ & H);
    [| stopping | intros F; exact F].
  eapply bind_passes in H as ([] & ? & _ & H);
    [| apply stops_event_loop | intros [F | F]; [exact F | discriminate F]].
  rewrite exit_path_eq in H. discriminate H.
Qed.

(** The first program of the loop that cannot be linked. *)
Lemma first_unattachable w ps :
  forallb (attachable w) ps = false ->
  exists ps1 p ps2,
    ps = ps1 ++ p :: ps2 /\
    forallb (attachable w) ps1 = true /\ attachable w p = false.
Proof.
  induction ps as [| q ps IH]; [discriminate |].
  simpl. destruct (attachable w q) eqn:Hq; simpl.
  - intros H. destruct (IH H) as (ps1 & p & ps2 & -> & H1 & Hp).
    exists (q :: ps1), p, ps2. simpl. rewrite Hq. auto.
  - intros _. exists [], q, ps. auto.
Qed.

(** A run of [kntrl.Run] in which the link loop fails at [p]. *)
Lemma kntrl_Run_link_failure w mode hosts ps1 p ps2 c0 :
  IsRoot w = true -> RemoveMemlock_ok w = true ->
  LoadCollectionSpec_res w = Some (ps1 ++ p :: ps2) ->
  NewCollection_res w = Some c0 ->
  forallb (attachable w) ps1 = true -> attachable w p = false ->
  kntrl.Run w mode hosts
  = (Returned (Some (link_failure w p).2),
     mkState ([ReporterNew; RemoveMemlock; LoadArtifact]
                ++ flat_map link_trace ps1 ++ (link_failure w p).1
                ++ map release (flat_map closes_of (rev ps1))
                ++ [CollectionClose])
             (flat_map closes_of (rev ps1) ++ [DClean]) (Some c0)).
Proof.
  intros Hr Hm Hs Hc H1 Hp. unfold kntrl.Run.
  rewrite (kntrl_body_loaded w mode hosts _ c0 Hr Hm Hs Hc).
  unfold kntrl_after_load, bind.
  rewrite (link_programs_fails w ps1 p ps2 H1 Hp). unfold finish.
  erewrite run_all_deferred_release by reflexivity.
  simpl. rewrite map_app. simpl. rewrite <- !app_assoc. reflexivity.
Qed.

End Ending.

(* ===================================================================== *)
(** * Runs of package kntrl: failures of the link loop *)
(* ===================================================================== *)

(** X3. When the link loop of [kntrl.Run] meets a program it cannot link,
    after programs it could, the run returns the error of that attachment.
    The programs after it are not touched and no map is written. The
    attachments made before are closed, the latest first, and the
    collection is closed last. *)
Theorem attach_failure_unwinds w mode hosts ps1 p ps2 c0 :
  IsRoot w = true -> RemoveMemlock_ok w = true ->
  LoadCollectionSpec_res w = Some (ps1 ++ p :: ps2) ->
  NewCollection_res w = Some c0 ->
  forallb (attachable w) ps1 = true -> attachable w p = false ->
  exists st,
    kntrl.Run w mode hosts = (Returned (Some (link_failure w p).2), st) /\
    trace st = [ReporterNew; RemoveMemlock; LoadArtifact]
                 ++ flat_map link_trace ps1 ++ (link_failure w p).1
                 ++ map release (flat_map closes_of (rev ps1))
                 ++ [CollectionClose] /\
    collection st = Some c0.
Proof.
  intros Hr Hm Hs Hc H1 Hp.
  rewrite (kntrl_Run_link_failure w mode hosts ps1 p ps2 c0 Hr Hm Hs Hc H1 Hp).
  eexists. split; [reflexivity |]. split; reflexivity.
Qed.

(** The program [egress] of the sample cannot be attached: the probe
    linked before it is closed, then the collection. *)
Lemma attach_failure_unwinds_witness :
  exists st,
    kntrl.Run scenario.egress_fails 1 []
    = (Returned (Some (ErrAttach "egress")), st) /\
    trace st
    = [ReporterNew; RemoveMemlock; LoadArtifact;
       Log Debug (MsgLoaded "tcp_connect");
       Log Info (MsgLinking ebpf.Kprobe "tcp_connect"); Attach "tcp_connect";
       Log Debug (MsgLoaded "egress");
       Log Info (MsgLinking ebpf.CGroupSKB "egress"); CgroupOpen;
       Attach "egress";
       LinkClose "tcp_connect"; CollectionClose] /\
    collection st = Some sample.loaded_collection.
Proof.
  apply (attach_failure_unwinds scenario.egress_fails 1 []
           [ebpf.mkProgramSpec "tcp_connect" ebpf.Kprobe "tcp_v4_connect"]
           (ebpf.mkProgramSpec "egress" ebpf.CGroupSKB "")
           [ebpf.mkProgramSpec "other" ebpf.OtherType ""]
           sample.loaded_collection); reflexivity.
Defined.

(** X4. When the control group is opened for a program of the kind CGroupSKB
    and the attachment then fails, [kntrl.Run] returns the error of the
    attachment with the control group still open: the run has opened one
    control group more than it has closed. *)
Theorem failed_cgroup_attach_leaks_cgroup w mode hosts ps1 p ps2 c0 :
  IsRoot w = true -> RemoveMemlock_ok w = true ->
  LoadCollectionSpec_res w = Some (ps1 ++ p :: ps2) ->
  NewCollection_res w = Some c0 ->
  forallb (attachable w) ps1 = true ->
  ebpf.Type_ p = ebpf.CGroupSKB ->
  cgroup_open_ok w = true -> attach_ok w (ebpf.Name p) = false ->
  exists st,
    kntrl.Run w mode hosts = (Returned (Some (ErrAttach (ebpf.Name p))), st) /\
    cgroup_opens (trace st) = S (cgroup_closes (trace st)).
Proof.
  intros Hr Hm Hs Hc H1 Ht Ho Ha.
  assert (Hp : attachable w p = false).
  { unfold attachable. rewrite Ht, Ho, Ha. reflexivity. }
  rewrite (kntrl_Run_link_failure w mode hosts ps1 p ps2 c0 Hr Hm Hs Hc H1 Hp).
  assert (Hf : link_failure w p
               = ([Log Debug (MsgLoaded (ebpf.Name p));
                   Log Info (MsgLinking ebpf.CGroupSKB (ebpf.Name p));
                   CgroupOpen; Attach (ebpf.Name p)],
                  ErrAttach (ebpf.Name p))).
  { unfold link_failure. rewrite Ht, Ho. reflexivity. }
  rewrite Hf. eexists. split; [reflexivity |]. cbn [trace fst snd].
  rewrite !cgroup_opens_app, !cgroup_closes_app, cgroup_closes_link_trace,
    cgroup_opens_release, cgroup_balance.
  simpl. lia.
Qed.

Lemma failed_cgroup_attach_leaks_cgroup_witness :
  exists st,
    kntrl.Run scenario.egress_fails 1 []
    = (Returned (Some (ErrAttach "egress")), st) /\
    cgroup_opens (trace st) = S (cgroup_closes (trace st)).
Proof.
  apply (failed_cgroup_attach_leaks_cgroup scenario.egress_fails 1 []
           [ebpf.mkProgramSpec "tcp_connect" ebpf.Kprobe "tcp_v4_connect"]
           (ebpf.mkProgramSpec "egress" ebpf.CGroupSKB "")
           [ebpf.mkProgramSpec "other" ebpf.OtherType ""]
           sample.loaded_collection); reflexivity.
Defined.

(** X5. Every error that [kntrl.Run] returns to its caller is the error of
    the link loop at the first program that cannot be linked. The errors of
    the checks before the load, for a user who is not root and for the
    memory limit, never reach the caller. *)
Theorem error_return_comes_from_link_loop w mode hosts e st :
  kntrl.Run w mode hosts = (Returned (Some e), st) ->
  exists ps1 p ps2,
    LoadCollectionSpec_res w = Some (ps1 ++ p :: ps2) /\
    forallb (attachable w) ps1 = true /\ attachable w p = false /\
    e = (link_failure w p).2 /\ link_error e.
Proof.
  intros H.
  destruct (kntrl_Run_cases w mode hosts)
    as [[Ho | Ho] | (spec & c0 & Hs & Hc & Hrun)];
    try (rewrite H in Ho; discriminate Ho).
  rewrite Hrun in H.
  destruct (kntrl_after_load w mode hosts spec (kntrl_loaded c0))
    as [r stb] eqn:E.
  apply finish_Returned in H as [-> | [_ [=]]].
  apply kntrl_after_load_error in E.
  destruct (forallb (attachable w) spec) eqn:Hall.
  - rewrite (link_programs_ok w spec Hall) in E. discriminate E.
  - destruct (first_unattachable w spec Hall) as (ps1 & p & ps2 & -> & H1 & Hp).
    rewrite (link_programs_fails w ps1 p ps2 H1 Hp) in E.
    injection E as <- _.
    exists ps1, p, ps2. repeat split; auto.
    unfold link_failure, link_error.
    destruct (ebpf.Type_ p); try destruct (cgroup_open_ok w); simpl; eauto.
Qed.

Lemma error_return_comes_from_link_loop_witness :
  exists ps1 p ps2,
    LoadCollectionSpec_res scenario.egress_fails = Some (ps1 ++ p :: ps2) /\
    forallb (attachable scenario.egress_fails) ps1 = true /\
    attachable scenario.egress_fails p = false /\
    ErrAttach "egress" = (link_failure scenario.egress_fails p).2 /\
    link_error (ErrAttach "egress").
Proof.
  apply (error_return_comes_from_link_loop scenario.egress_fails 1 []
           (ErrAttach "egress")
           (kntrl.Run scenario.egress_fails 1 []).2).
  vm_compute. reflexivity.
Defined.

(* ===================================================================== *)
(** * Runs of package kntrl: the return of nil *)
(* ===================================================================== *)

(** X6. [kntrl.Run] returns nil only when a read has failed with the reader
    closed, after reads that did not. Every program was linked then, and the
    run ends with the calls from [EXIT] on, followed by the deferred closes
    in the reverse order of their [defer]: the second reader, the first
    reader, the attachments from the latest to the first, and the
    collection. *)
Theorem nil_return_follows_closed_read w mode hosts st :
  kntrl.Run w mode hosts = (Returned None, st) ->
  (exists rs1 lk rs2,
     reads w = rs1 ++ (ReadErrClosed, lk) :: rs2 /\
     Forall (fun rd => rd.1 <> ReadErrClosed) rs1) /\
  exists spec t,
    LoadCollectionSpec_res w = Some spec /\
    forallb (attachable w) spec = true /\
    trace st = t ++ exit_calls
                 ++ [ReaderClose ClosedEvents; ReaderClose OpenedEvents]
                 ++ map release (flat_map closes_of (rev spec))
                 ++ [CollectionClose].
Proof.
  intros H.
  destruct (kntrl_Run_cases w mode hosts)
    as [[Ho | Ho] | (spec & c0 & Hs & Hc & Hrun)];
    try (rewrite H in Ho; discriminate Ho).
  rewrite Hrun in H.
  destruct (kntrl_after_load w mode hosts spec (kntrl_loaded c0))
    as [r stb] eqn:E.
  destruct (finish_Returned _ _ _ _ H) as [-> | [-> _]];
    [| destruct (kntrl_after_load_stops _ _ _ _ _ _ E)].
  apply kntrl_reaches_loop in E
    as (Hall & st1 & Hd1 & Hc1 & [t1 Ht1] & E); [| simpl; eauto | auto].
  eapply bind_passes in E as ([] & st2 & E2 & E);
    [| apply stops_event_loop
     | intros [F | F]; [exact F | discriminate F]].
  rewrite exit_path_eq in E. injection E as <-.
  split; [eapply event_loop_inl, E2 |].
  pose proof (frame_event_loop _ _ _ _ _ _ E2) as F2.
  destruct (frame_loaded _ _ F2 Hc1) as [c2 Hc2].
  destruct (tracks_event_loop _ _ _ _ _ _ E2) as (t2 & Ht2 & _).
  injection F2 as Hd2 _.
  unfold finish in H.
  erewrite run_all_deferred_release in H by (simpl; exact Hc2).
  injection H as <-. simpl.
  exists spec, (trace st1 ++ t2).
  split; [exact Hs |]. split; [exact Hall |].
  rewrite Hd2, Hd1, Ht2. simpl. rewrite !map_app. simpl.
  rewrite <- !app_assoc. reflexivity.
Qed.

Lemma nil_return_follows_closed_read_witness :
  let w := sample.world_of true
             [(ReadErrOther, sample.no_name); (ReadErrClosed, sample.no_name)] in
  (exists rs1 lk rs2,
     reads w = rs1 ++ (ReadErrClosed, lk) :: rs2 /\
     Forall (fun rd => rd.1 <> ReadErrClosed) rs1) /\
  exists spec t,
    LoadCollectionSpec_res w = Some spec /\
    forallb (attachable w) spec = true /\
    trace (kntrl.Run w 1 []).2
    = t ++ exit_calls
        ++ [ReaderClose ClosedEvents; ReaderClose OpenedEvents]
        ++ map release (flat_map closes_of (rev spec))
        ++ [CollectionClose].
Proof.
  intros w.
  apply (nil_return_follows_closed_read w 1 [] (kntrl.Run w 1 []).2).
  vm_compute. reflexivity.
Defined.

(* ===================================================================== *)
(** * The writes of a run, and what a fatal exit leaves behind *)
(* ===================================================================== *)

(** Takes a computation apart for the calls it adds; the calls themselves
    are then looked at. *)
Ltac adding :=
  repeat first
    [ apply adds_ret
    | apply adds_halt
    | apply adds_defer
    | apply adds_set_collection
    | apply adds_return_if
    | apply adds_Fatalf
    | apply adds_emit
    | apply adds_map_put
    | apply adds_open_reader
    | apply adds_load
    | apply adds_Load
    | apply adds_exit_path
    | apply adds_link_programs
    | apply adds_seed_allow_map
    | apply adds_event_loop
    | apply adds_if
    | apply adds_bind; [| intros ?] ];
  try (intros; first [exact I | reflexivity]).

Section Writes.

Lemma puts_app t1 t2 : puts (t1 ++ t2) = puts t1 ++ puts t2.
Proof.
  induction t1 as [| e t1 IH]; [reflexivity |].
  destruct e; simpl; rewrite ?IH; reflexivity.
Qed.

Lemma no_put_puts t : Forall no_put t -> puts t = [] /\ allow_puts t = [].
Proof.
  induction 1 as [| e t He _ [IH1 IH2]]; [auto |].
  destruct e; simpl; auto. destruct He.
Qed.

Lemma marks_only_puts t :
  Forall marks_only t ->
  puts t = map (fun k => (AllowMap, k, LittleEndian.PutUint32 1))
               (allow_puts t).
Proof.
  induction 1 as [| e t He _ IH]; [reflexivity |].
  destruct e as [| | | | | | | [] key value | | | | | | | | |];
    simpl in *; auto; [destruct He |].
  rewrite He, IH. reflexivity.
Qed.

Lemma releases_no_put t :
  Forall (fun e => releases e = true) t -> Forall no_put t.
Proof.
  intros H. eapply Forall_impl; [exact H |].
  intros [] He; try discriminate He; exact I.
Qed.

Lemma writes_mode_first_before key value t1 t2 :
  Forall no_put t1 -> writes_mode_first key value t2 ->
  writes_mode_first key value (t1 ++ t2).
Proof.
  intros H1 H2. apply no_put_puts in H1 as [Hp Ha].
  unfold writes_mode_first. rewrite puts_app, allow_puts_app, Hp, Ha.
  exact H2.
Qed.

Lemma writes_mode_first_after key value t1 t2 :
  writes_mode_first key value t1 -> Forall no_put t2 ->
  writes_mode_first key value (t1 ++ t2).
Proof.
  intros H1 H2. apply no_put_puts in H2 as [Hp Ha].
  unfold writes_mode_first.
  rewrite puts_app, allow_puts_app, Hp, Ha, !app_nil_r. exact H1.
Qed.

Lemma extends_before {A B} key value (m : M A) (k : A -> M B) :
  adds no_put m ->
  (forall a, extends (writes_mode_first key value) (k a)) ->
  extends (writes_mode_first key value) (bind m k).
Proof.
  intros Hm Hk st r st' H. unfold bind in H.
  destruct (m st) as [[a | s] st1] eqn:E;
    destruct (Hm _ _ _ E) as (t1 & Ht1 & H1).
  - destruct (Hk a _ _ _ H) as (t2 & Ht2 & H2).
    exists (t1 ++ t2). rewrite Ht2, Ht1, <- app_assoc.
    split; [reflexivity | apply writes_mode_first_before; auto].
  - injection H as <- <-. exists t1. split; [exact Ht1 |].
    left. apply no_put_puts, H1.
Qed.

Lemma map_put_inr n key value st s st' :
  map_put n key value st = (inr s, st') ->
  exists t, trace st' = trace st ++ t /\ Forall no_put t.
Proof.
  unfold map_put. destruct (collection st) as [c |].
  - destruct (ebpf.Put (get_map n c) key value) as [e | m'];
      [| discriminate].
    unfold Fatalf, bind, emit, halt.
    intros [= <- <-]. eexists [_]. split; [reflexivity |].
    constructor; [exact I | constructor].
  - intros [= <- <-]. exists []. rewrite app_nil_r. auto.
Qed.

Lemma extends_mode {B} key value (k : unit -> M B) :
  (forall a, adds marks_only (k a)) ->
  extends (writes_mode_first (ebpf.marshal key) (ebpf.marshal value))
          (bind (map_put ModeMap key value) k).
Proof.
  intros Hk st r st' H.
  unfold bind in H.
  destruct (map_put ModeMap key value st) as [[[] | s] st1] eqn:E.
  - apply map_put_inl in E as (c & m' & _ & _ & ->).
    destruct (Hk tt _ _ _ H) as (t2 & Ht2 & H2). simpl in Ht2.
    eexists. rewrite Ht2, <- app_assoc. split; [reflexivity |].
    right. simpl. rewrite (marks_only_puts t2 H2). reflexivity.
  - injection H as <- <-.
    destruct (map_put_inr _ _ _ _ _ _ E) as (t & Ht & Hn).
    exists t. split; [exact Ht |]. left. apply no_put_puts, Hn.
Qed.

Lemma extends_halt {A} key value s :
  extends (writes_mode_first key value) (@halt A s).
Proof.
  intros st r st' [= <- <-]. exists []. rewrite app_nil_r.
  split; [reflexivity | left; reflexivity].
Qed.

(** What the deferred calls add are releases. *)
Lemma run_all_deferred_adds ds o st :
  exists t,
    trace (run_all_deferred ds o st).2 = trace st ++ t /\
    Forall (fun e => releases e = true) t.
Proof.
  revert o st. induction ds as [| d ds IH]; intros o st; simpl.
  - exists []. rewrite app_nil_r. auto.
  - assert (Hd : exists t,
               trace (run_deferred d st).2 = trace st ++ t /\
               Forall (fun e => releases e = true) t).
    { destruct d; simpl; try (eexists [_]; split; [reflexivity | auto]).
      unfold ebpfProgram.clean. destruct (collection st).
      - eexists [_]. split; [reflexivity | auto].
      - exists []. simpl. rewrite app_nil_r. auto. }
    destruct Hd as (t1 & Ht1 & H1).
    destruct (run_deferred d st) as [r st1]. simpl in Ht1.
    assert (Hgo : forall o',
               exists t,
                 trace (run_all_deferred ds o' st1).2 = trace st ++ t /\
                 Forall (fun e => releases e = true) t).
    { intros o'. destruct (IH o' st1) as (t2 & Ht2 & H2).
      exists (t1 ++ t2). rewrite Ht2, Ht1, <- app_assoc.
      split; [reflexivity | apply Forall_app; auto]. }
    destruct r as [[] | [e | | p |]]; apply Hgo.
Qed.

Lemma finish_adds r :
  exists t,
    trace (finish r).2 = trace r.2 ++ t /\
    Forall (fun e => releases e = true) t.
Proof.
  destruct r as [r st].
  assert (Hsame : exists t, trace st = trace st ++ t /\
                            Forall (fun e => releases e = true) t).
  { exists []. rewrite app_nil_r. auto. }
  unfold finish.
  destruct r as [[] | [e | | p |]]; simpl;
    try apply run_all_deferred_adds; exact Hsame.
Qed.

(** The writes of a whole run, from those of its body. *)
Lemma finish_writes_mode_first key value (body : M unit) :
  extends (writes_mode_first key value) body ->
  writes_mode_first key value (trace (finish (body initial)).2).
Proof.
  intros Hb. destruct (finish_adds (body initial)) as (t2 & -> & H2).
  destruct (body initial) as [r st] eqn:E.
  destruct (Hb _ _ _ E) as (t1 & Ht1 & H1). simpl in *. rewrite Ht1.
  simpl. apply writes_mode_first_after; [exact H1 |].
  apply releases_no_put, H2.
Qed.

Lemma adds_marks_only_after_mode w hosts bound allowed :
  adds marks_only
       (seed_allow_map hosts ;;
        open_reader w OpenedEvents ;;
        open_reader w ClosedEvents ;;
        emit SignalNotify ;;
        event_loop bound allowed (reads w) ;;
        exit_path).
Proof. adding. Qed.

End Writes.

(** X7. In a run of [kntrl.Run] the first write to a map, if there is one, puts
    the mode at the key 0 of the mode map; every later write puts the
    marker 1 at a key of the allow map. The mode map is written once at
    most, and before any address is allowed. *)
Theorem kntrl_writes_mode_first w mode hosts :
  writes_mode_first (LittleEndian.PutUint32 0) (LittleEndian.PutUint32 mode)
                    (trace (kntrl.Run w mode hosts).2).
Proof.
  unfold kntrl.Run.
  apply (finish_writes_mode_first _ _ (kntrl.body w mode hosts)).
  unfold kntrl.body.
  do 7 (apply extends_before; [solve [adding] | intros ?]).
  apply (extends_mode (ebpf.U32 0) (ebpf.U32 mode)).
  intros _. apply adds_marks_only_after_mode.
Qed.

(** X8. In a run of [tracer.Run] the first write to a map, if there is one,
    puts the code of the mode at the key 0 of the mode map; every later
    write puts the marker 1 at a key of the allow map. *)
Theorem tracer_writes_mode_first cfg w tracerMode allowedHosts :
  writes_mode_first (LittleEndian.PutUint32 0)
                    (LittleEndian.PutUint32 (tracer_code cfg tracerMode))
                    (trace (tracer.Run cfg w tracerMode allowedHosts).2).
Proof.
  unfold tracer.Run.
  apply (finish_writes_mode_first _ _
           (tracer.body cfg w tracerMode allowedHosts)).
  unfold tracer.body.
  do 3 (apply extends_before; [solve [adding] | intros ?]).
  apply extends_before;
    [destruct (tracer.ParseHosts cfg allowedHosts); solve [adding] | intros ips].
  apply extends_before; [solve [adding] | intros _].
  apply extends_before; [solve [adding] | intros spec].
  apply extends_before; [solve [adding] | intros _].
  assert (Hrest : forall a : unit,
             adds marks_only
                  (seed_allow_map ips ;;
                   open_reader w OpenedEvents ;;
                   open_reader w ClosedEvents ;;
                   emit ReporterNew ;;
                   (if NewReporter_ok w then ret tt
                    else Fatalf MsgReporterFailed) ;;
                   emit RemoveMemlock ;;
                   return_if (negb (RemoveMemlock_ok w)) ErrMemlock ;;
                   link_programs w spec ;;
                   emit SignalNotify ;;
                   event_loop (String.length allowedHosts)
                              tracer.allowedHostsAddress (reads w) ;;
                   exit_path)).
  { intros _. adding. }
  unfold tracer.set_mode, tracer_code.
  destruct (String.eqb tracerMode (tracer.TracerModeTrace cfg)).
  - apply (extends_mode (ebpf.U32 0)
             (ebpf.U32 (uint32 (tracer.TracerModeIndexTrace cfg)))), Hrest.
  - destruct (String.eqb tracerMode (tracer.TracerModeMonitor cfg)).
    + apply (extends_mode (ebpf.U32 0)
               (ebpf.U32 (uint32 (tracer.TracerModeIndexMonitor cfg)))), Hrest.
    + intros st r st' [= <- <-]. exists []. rewrite app_nil_r.
      split; [reflexivity | left; reflexivity].
Qed.

(** X9. When [kntrl.Run] ends in [Fatalf], the process exits with everything
    the run has acquired still held: no attachment, control group, reader
    or collection has been closed. *)
Theorem kntrl_fatal_exit_releases_nothing w mode hosts st :
  kntrl.Run w mode hosts = (Exited, st) ->
  Forall (fun e => releases e = false) (trace st).
Proof.
  unfold kntrl.Run. intros H.
  destruct (kntrl.body w mode hosts initial) as [r stb] eqn:E.
  apply finish_Exited in H as [_ ->].
  assert (Ha : adds (fun e => releases e = false) (kntrl.body w mode hosts)).
  { unfold kntrl.body. adding. }
  destruct (Ha _ _ _ E) as (t & -> & Ht). exact Ht.
Qed.

(** X10. The same of [tracer.Run]. *)
Theorem tracer_fatal_exit_releases_nothing cfg w tracerMode allowedHosts st :
  tracer.Run cfg w tracerMode allowedHosts = (Exited, st) ->
  Forall (fun e => releases e = false) (trace st).
Proof.
  unfold tracer.Run. intros H.
  destruct (tracer.body cfg w tracerMode allowedHosts initial)
    as [r stb] eqn:E.
  apply finish_Exited in H as [_ ->].
  assert (Ha : adds (fun e => releases e = false)
                    (tracer.body cfg w tracerMode allowedHosts)).
  { unfold tracer.body, tracer.set_mode.
    destruct (tracer.ParseHosts cfg allowedHosts); adding. }
  destruct (Ha _ _ _ E) as (t & -> & Ht). exact Ht.
Qed.

(** The second reader cannot be opened: the run exits with the programs
    attached and the first reader open. *)
Lemma kntrl_fatal_exit_releases_nothing_witness :
  Forall (fun e => releases e = false)
         (trace (kntrl.Run scenario.reader_fails 1 []).2).
Proof.
  apply (kntrl_fatal_exit_releases_nothing scenario.reader_fails 1 []
           (kntrl.Run scenario.reader_fails 1 []).2).
  vm_compute. reflexivity.
Defined.

Lemma tracer_fatal_exit_releases_nothing_witness :
  Forall (fun e => releases e = false)
         (trace (tracer.Run sample.cfg scenario.reader_fails "trace" "").2).
Proof.
  apply (tracer_fatal_exit_releases_nothing sample.cfg scenario.reader_fails
           "trace" ""
           (tracer.Run sample.cfg scenario.reader_fails "trace" "").2).
  vm_compute. reflexivity.
Defined.

(* ===================================================================== *)
(** * The matching loops: events that do not match, writes that fail *)
(* ===================================================================== *)

Section Missing.

Lemma match_names_miss allowed i suffix d domain st :
  allowed !! i = Some suffix ->
  hits suffix domain = false ->
  match_names allowed i d domain st = (inl tt, st).
Proof.
  intros Hi. induction domain as [| name domain IH]; intros H;
    [reflexivity |].
  simpl in H. apply orb_false_elim in H as [Hn Hd].
  simpl. rewrite Hi, Hn. unfold bind, ret. apply IH, Hd.
Qed.

Lemma match_suffixes_miss allowed d domain st left :
  forall i,
    (i + left <= length allowed)%nat ->
    (forall suffix, In suffix (take left (drop i allowed)) ->
                    hits suffix domain = false) ->
    match_suffixes left i allowed d domain st = (inl tt, st).
Proof.
  induction left as [| left IH]; intros i Hlen H; [reflexivity |].
  destruct (lookup_lt_is_Some_2 allowed i) as [suffix Hi]; [lia |].
  rewrite (drop_S _ _ _ Hi) in H. simpl in H.
  simpl. unfold bind.
  rewrite (match_names_miss allowed i suffix d domain st Hi)
    by (apply H; left; reflexivity).
  apply IH; [lia |]. intros s Hs. apply H. right. exact Hs.
Qed.

(** A write to the allow map that the map refuses. *)
Lemma map_put_refused st c key value e :
  collection st = Some c ->
  ebpf.Put (ebpf.allow_map c) key value = inl e ->
  map_put AllowMap key value st
  = (inr Exit,
     mkState (trace st ++ [Log Fatal (MsgPutFailed AllowMap e)])
             (deferred st) (collection st)).
Proof.
  intros Hc He. unfold map_put. rewrite Hc. simpl. rewrite He.
  unfold Fatalf, bind, emit, halt. simpl. rewrite Hc. reflexivity.
Qed.

Lemma match_names_refused allowed i suffix d domain st c e :
  allowed !! i = Some suffix ->
  collection st = Some c ->
  ebpf.Put (ebpf.allow_map c) (ebpf.IPBytes (utils.IntToIP d)) (ebpf.U32 1)
  = inl e ->
  match_names allowed i d domain st
  = if hits suffix domain
    then (inr Exit,
          mkState (trace st ++ [Log Fatal (MsgPutFailed AllowMap e)])
                  (deferred st) (collection st))
    else (inl tt, st).
Proof.
  intros Hi Hc He. induction domain as [| name domain IH]; [reflexivity |].
  simpl. rewrite Hi. unfold bind.
  destruct (strings.Contains name suffix); simpl.
  - rewrite (map_put_refused st c _ _ e Hc He). reflexivity.
  - exact IH.
Qed.

Lemma match_suffixes_refused allowed d domain st c e left :
  collection st = Some c ->
  ebpf.Put (ebpf.allow_map c) (ebpf.IPBytes (utils.IntToIP d)) (ebpf.U32 1)
  = inl e ->
  forall i,
    (i + left <= length allowed)%nat ->
    match_suffixes left i allowed d domain st
    = if existsb (fun suffix => hits suffix domain)
                 (take left (drop i allowed))
      then (inr Exit,
            mkState (trace st ++ [Log Fatal (MsgPutFailed AllowMap e)])
                    (deferred st) (collection st))
      else (inl tt, st).
Proof.
  intros Hc He. induction left as [| left IH]; intros i Hlen;
    [reflexivity |].
  destruct (lookup_lt_is_Some_2 allowed i) as [suffix Hi]; [lia |].
  rewrite (drop_S _ _ _ Hi). simpl. unfold bind.
  rewrite (match_names_refused allowed i suffix d domain st c e Hi Hc He).
  destruct (hits suffix domain); simpl; [reflexivity |].
  apply IH. lia.
Qed.

Lemma match_names_ext allowed allowed' i suffix d domain :
  allowed !! i = Some suffix -> allowed' !! i = Some suffix ->
  forall st,
    match_names allowed i d domain st = match_names allowed' i d domain st.
Proof.
  intros Hi Hi'. induction domain as [| name domain IH]; intros st;
    [reflexivity |].
  simpl. rewrite Hi, Hi'. unfold bind.
  match goal with
  | |- context [match ?m st with _ => _ end] =>
      destruct (m st) as [[[] | s] st1]
  end; [apply IH | reflexivity].
Qed.

Lemma match_suffixes_take allowed n d domain left :
  (n <= length allowed)%nat ->
  forall i st,
    (i + left <= n)%nat ->
    match_suffixes left i allowed d domain st
    = match_suffixes left i (take n allowed) d domain st.
Proof.
  intros Hn. induction left as [| left IH]; intros i st Hlen;
    [reflexivity |].
  destruct (lookup_lt_is_Some_2 allowed i) as [suffix Hi]; [lia |].
  simpl. unfold bind.
  rewrite (match_names_ext allowed (take n allowed) i suffix d domain Hi)
    by (rewrite lookup_take_lt by lia; exact Hi).
  destruct (match_names (take n allowed) i d domain st) as [[[] | s] st1];
    [apply IH; lia | reflexivity].
Qed.

End Missing.

(** X11. A decoded event none of whose resolved names contains a suffix of the
    matching loop changes nothing but the log: the turn writes to no map,
    whatever the state of the run, and goes on to the next read. The loop
    bound is within the list of suffixes. *)
Theorem unmatched_event_writes_nothing bound allowed raw ev lk st :
  binary_Read raw = inr ev ->
  (bound <= length allowed)%nat ->
  (forall suffix, In suffix (take bound allowed) ->
                  hits suffix (resolved lk) = false) ->
  iteration bound allowed (ReadOk raw, lk) st
  = (inl Continue,
     mkState (trace st ++ [Log Info (MsgEvent ev (resolved lk))])
             (deferred st) (collection st)).
Proof.
  intros Hraw Hb Hmiss. unfold iteration. rewrite Hraw. unfold bind, ret.
  rewrite (match_suffixes_miss allowed (Daddr ev) (resolved lk) st bound 0)
    by (rewrite ?drop_0; auto).
  reflexivity.
Qed.

(** The resolver fails: the name is ".", which no suffix of package kntrl
    matches. *)
Lemma unmatched_event_writes_nothing_witness :
  iteration 2 kntrl.allowedHosts
            (ReadOk (encode_IP4Event sample.event), sample.no_name)
            sample.loaded
  = (inl Continue,
     mkState (trace sample.loaded
                ++ [Log Info (MsgEvent sample.event
                                       (resolved sample.no_name))])
             (deferred sample.loaded) (collection sample.loaded)).
Proof.
  apply (unmatched_event_writes_nothing 2 kntrl.allowedHosts
           (encode_IP4Event sample.event) sample.event sample.no_name
           sample.loaded).
  - vm_compute. reflexivity.
  - simpl. lia.
  - intros suffix [<- | [<- | []]]; vm_compute; reflexivity.
Defined.

(** X12. When the allow map refuses the write for an event that matches, the
    run ends there: the refusal is logged and the process exits. The event
    is not logged, the reads to come are not made, and no deferred call
    runs. *)
Theorem refused_write_ends_the_process bound allowed raw ev lk rest st c e :
  binary_Read raw = inr ev ->
  (bound <= length allowed)%nat ->
  existsb (fun suffix => hits suffix (resolved lk)) (take bound allowed)
  = true ->
  collection st = Some c ->
  ebpf.Put (ebpf.allow_map c) (ebpf.IPBytes (utils.IntToIP (Daddr ev)))
           (ebpf.U32 1) = inl e ->
  finish ((event_loop bound allowed ((ReadOk raw, lk) :: rest) ;; exit_path)
            st)
  = (Exited,
     mkState (trace st ++ [Log Fatal (MsgPutFailed AllowMap e)])
             (deferred st) (collection st)).
Proof.
  intros Hraw Hb Hhit Hc He.
  simpl. unfold iteration. rewrite Hraw. unfold bind at 1 2 3 4, ret.
  rewrite (match_suffixes_refused allowed (Daddr ev) (resolved lk) st c e
             bound Hc He 0) by lia.
  rewrite drop_0, Hhit. reflexivity.
Qed.

(** The allow map is full and the address is new to it. *)
Lemma refused_write_ends_the_process_witness :
  finish ((event_loop 2 kntrl.allowedHosts
                      [(ReadOk (encode_IP4Event sample.event), sample.github);
                       (ReadErrClosed, sample.no_name)] ;;
           exit_path) scenario.full)
  = (Exited,
     mkState (trace scenario.full
                ++ [Log Fatal (MsgPutFailed AllowMap ebpf.E2BIG)])
             (deferred scenario.full) (collection scenario.full)).
Proof.
  apply (refused_write_ends_the_process 2 kntrl.allowedHosts
           (encode_IP4Event sample.event) sample.event sample.github
           [(ReadErrClosed, sample.no_name)] scenario.full
           scenario.full_collection ebpf.E2BIG).
  - vm_compute. reflexivity.
  - simpl. lia.
  - vm_compute. reflexivity.
  - reflexivity.
  - vm_compute. reflexivity.
Defined.

(** X13. The matching loop of [tracer.Run] runs as many turns as the hosts
    flag has bytes. For a flag of no more bytes than there are suffixes, a
    turn of the main loop is the turn of a loop over that many of the
    suffixes, the first ones: with the empty flag no suffix is consulted,
    with a flag of one byte the first suffix only. *)
Theorem tracer_flag_length_selects_suffixes allowedHosts rd st :
  (String.length allowedHosts <= length tracer.allowedHostsAddress)%nat ->
  let suffixes := take (String.length allowedHosts)
                       tracer.allowedHostsAddress in
  iteration (String.length allowedHosts) tracer.allowedHostsAddress rd st
  = iteration (length suffixes) suffixes rd st.
Proof.
  intros Hn suffixes. subst suffixes.
  rewrite length_take, Nat.min_l by exact Hn.
  destruct rd as [r lk]. unfold iteration.
  destruct r as [raw | |]; [| reflexivity |].
  - unfold bind at 1 5. simpl.
    destruct (binary_Read raw) as [err | ev]; [reflexivity |].
    unfold bind.
    rewrite (match_suffixes_take tracer.allowedHostsAddress
               (String.length allowedHosts)) by lia.
    reflexivity.
  - unfold bind at 1 5. simpl. reflexivity.
Qed.

(** A flag of one byte: the event is matched against ".github.com" and
    not against ".kondukto.io". *)
Lemma tracer_flag_length_selects_suffixes_witness :
  iteration (String.length "x") tracer.allowedHostsAddress
            (ReadOk (encode_IP4Event sample.event), sample.github)
            sample.loaded
  = iteration 1 [".github.com"%string]
              (ReadOk (encode_IP4Event sample.event), sample.github)
              sample.loaded.
Proof.
  apply (tracer_flag_length_selects_suffixes "x"
           (ReadOk (encode_IP4Event sample.event), sample.github)
           sample.loaded).
  simpl. lia.
Defined.

(* ===================================================================== *)
(** * What [net.ParseIP] gives *)
(* ===================================================================== *)

Section Parsed.

Lemma length_IPv4 a b c d : length (net.IPv4 a b c d) = 16%nat.
Proof. reflexivity. Qed.

Lemma parseIPv4_length s ip : net.parseIPv4 s = Some ip -> length ip = 16%nat.
Proof.
  unfold net.parseIPv4.
  destruct (net.parseIPv4_octets net.IPv4len true s)
    as [[[| a [| b [| c [| d [| x p]]]]] [| c0 r]] |]; try discriminate.
  intros [= <-]. reflexivity.
Qed.

(** The IPv4 form [parseIPv4] gives begins with ten zero bytes. *)
Lemma parseIPv4_mapped s ip :
  net.parseIPv4 s = Some ip -> exists a b c d, ip = net.IPv4 a b c d.
Proof.
  unfold net.parseIPv4.
  destruct (net.parseIPv4_octets net.IPv4len true s)
    as [[[| a [| b [| c [| d [| x p]]]]] [| c0 r]] |]; try discriminate.
  intros [= <-]. eauto.
Qed.

Lemma parseIPv6_loop_length fuel :
  forall ip i s el ip' i' s' el',
    length ip = 16%nat ->
    (forall e, el = Some e -> (e <= i)%nat) ->
    net.parseIPv6_loop fuel ip i s el = Some (ip', i', s', el') ->
    length ip' = 16%nat /\ (forall e, el' = Some e -> (e <= i')%nat).
Proof.
  induction fuel as [| fuel IH]; intros ip i s el ip' i' s' el' Hl He H.
  - simpl in H. injection H as <- <- <- <-. auto.
  - cbn [net.parseIPv6_loop] in H.
    destruct (net.IPv6len <=? i)%nat; [injection H as <- <- <- <-; auto |].
    destruct (net.xtoi s) as [[n c] ok].
    destruct (negb ok || (65535 <? n)); [discriminate H |].
    match type of H with
    | (if ?b then _ else _) = _ => destruct b
    end.
    + match type of H with
      | (if ?b then _ else _) = _ => destruct b; [discriminate H |]
      end.
      destruct (Nat.ltb_spec net.IPv6len (i + net.IPv4len)) as [Hi | Hi];
        [discriminate H |].
      destruct (net.parseIPv4 s) as [ip4 |] eqn:E4; [| discriminate H].
      injection H as <- <- <- <-.
      apply parseIPv4_length in E4. unfold net.IPv6len, net.IPv4len in *.
      split.
      * rewrite !length_app, length_take, !length_drop. lia.
      * intros e Hel. specialize (He e Hel). lia.
    + set (ip2 := <[S i := byte_of_Z n]>
                    (<[i := byte_of_Z (Z.shiftr n 8)]> ip)) in H.
      assert (Hl2 : length ip2 = 16%nat)
        by (unfold ip2; rewrite !length_insert; exact Hl).
      assert (He2 : forall e, el = Some e -> (e <= i + 2)%nat)
        by (intros e Hel; specialize (He e Hel); lia).
      destruct (net.string_drop c s) as [| c1 [| c2 r2]];
        [injection H as <- <- <- <-; auto | discriminate H |].
      destruct (negb (Ascii.eqb c1 ":")); [discriminate H |].
      destruct (Ascii.eqb c2 ":").
      * destruct el as [e0 |]; [discriminate H |].
        destruct r2 as [| c3 r3].
        -- injection H as <- <- <- <-. split; [exact Hl2 |].
           intros e [= <-]. lia.
        -- eapply IH in H; [exact H | exact Hl2 |].
           intros e [= <-]. lia.
      * eapply IH in H; [exact H | exact Hl2 | exact He2].
Qed.

Lemma parseIPv6_start s :
  let start :=
    match s with
    | String ":" (String ":" r) => (r, Some 0%nat)
    | _ => (s, None)
    end in
  start.2 = None \/ start.2 = Some 0%nat.
Proof.
  destruct s as [| [[] [] [] [] [] [] [] []] s1]; try (left; reflexivity).
  destruct s1 as [| [[] [] [] [] [] [] [] []] r]; simpl; auto.
Qed.

Lemma parseIPv6_length s ip : net.parseIPv6 s = Some ip -> length ip = 16%nat.
Proof.
  unfold net.parseIPv6. pose proof (parseIPv6_start s) as Hs. simpl in Hs.
  destruct (match s with
            | String ":" (String ":" r) => (r, Some 0%nat)
            | _ => (s, None)
            end) as [s0 el0].
  simpl in Hs.
  assert (He0 : forall e, el0 = Some e -> (e <= 0)%nat).
  { intros e Hel. destruct Hs as [-> | ->]; [discriminate |].
    injection Hel as <-. lia. }
  assert (Hgo : match net.parseIPv6_loop 8 (replicate net.IPv6len x00) 0 s0 el0 with
                | None => None
                | Some (ip, i, rest, ellipsis) =>
                    match rest with
                    | String _ _ => None
                    | EmptyString =>
                        if (i <? net.IPv6len)%nat then
                          match ellipsis with
                          | None => None
                          | Some e =>
                              Some (take e ip ++ replicate (net.IPv6len - i) x00 ++
                                    take (i - e) (drop e ip))
                          end
                        else
                          match ellipsis with
                          | Some _ => None
                          | None => Some ip
                          end
                    end
                end = Some ip -> length ip = 16%nat).
  { destruct (net.parseIPv6_loop 8 (replicate net.IPv6len x00) 0 s0 el0)
      as [[[[ip1 i1] rest] el1] |] eqn:E; [| discriminate].
    apply parseIPv6_loop_length in E as [Hl1 He1]; [| reflexivity | exact He0].
    destruct rest; [| discriminate].
    unfold net.IPv6len in *.
    destruct (Nat.ltb_spec i1 16) as [Hi | Hi].
    - destruct el1 as [e |]; [| discriminate].
      intros [= <-]. specialize (He1 e eq_refl).
      rewrite !length_app, !length_take, length_replicate, length_drop. lia.
    - destruct el1; [discriminate |]. intros [= <-]. exact Hl1. }
  destruct s0 as [| c0 r0]; [| exact Hgo].
  destruct el0 as [e0 |]; [| exact Hgo].
  intros [= <-]. reflexivity.
Qed.

Lemma ParseIP_scan_cases whole s :
  net.ParseIP_scan whole s = None \/
  net.ParseIP_scan whole s = net.parseIPv4 whole \/
  net.ParseIP_scan whole s = net.parseIPv6 whole.
Proof.
  induction s as [| c s IH]; simpl; [auto |].
  destruct (Ascii.eqb c "."); [auto |].
  destruct (Ascii.eqb c ":"); auto.
Qed.

(** A parsed address has 16 bytes. *)
Lemma ParseIP_length s ip : net.ParseIP s = Some ip -> length ip = 16%nat.
Proof.
  unfold net.ParseIP.
  destruct (ParseIP_scan_cases s s) as [-> | [-> | ->]];
    [discriminate | apply parseIPv4_length | apply parseIPv6_length].
Qed.

(** A string that begins with a character that is neither a hexadecimal
    digit nor a colon does not parse. *)
Lemma ParseIP_bad_start c s :
  net.hex_digit c = None -> c <> ":"%char ->
  net.ParseIP (String c s) = None.
Proof.
  intros Hhex Hc. unfold net.ParseIP.
  destruct (ParseIP_scan_cases (String c s) (String c s)) as [-> | [-> | ->]];
    [reflexivity | |].
  - unfold net.parseIPv4, net.parseIPv4_octets, net.IPv4len, net.dtoi,
      net.dtoi_from.
    unfold net.hex_digit in Hhex.
    destruct ((48 <=? net.char_code c) && (net.char_code c <=? 57));
      [discriminate Hhex |].
    reflexivity.
  - destruct c as [[] [] [] [] [] [] [] []];
      try (vm_compute in Hhex; discriminate Hhex);
      try (destruct Hc; reflexivity);
      reflexivity.
Qed.

End Parsed.

(* ===================================================================== *)
(** * The parsers of the flags (pkg/parser/flag.go) *)
(* ===================================================================== *)

Section Flags.

Lemma split_from_app sep s2 s1 :
  forall cur,
    strings.split_from sep cur (s1 ++ String sep s2)
    = strings.split_from sep cur s1 ++ strings.split_from sep EmptyString s2.
Proof.
  induction s1 as [| c s1 IH]; intros cur; simpl.
  - rewrite Ascii.eqb_refl. reflexivity.
  - destruct (Ascii.eqb c sep); [rewrite IH; reflexivity | apply IH].
Qed.

Lemma append_empty (a : string) : (a ++ "")%string = a.
Proof.
  induction a as [| x a IH]; [reflexivity |].
  exact (f_equal (String x) IH).
Qed.

Lemma append_char (a : string) c (b : string) :
  ((a ++ String c "") ++ b)%string = (a ++ String c b)%string.
Proof.
  induction a as [| x a IH]; [reflexivity |].
  exact (f_equal (String x) IH).
Qed.

Lemma split_from_whole sep s :
  (forall x, In x (list_ascii_of_string s) -> x <> sep) ->
  forall cur, strings.split_from sep cur s = [(cur ++ s)%string].
Proof.
  induction s as [| c s IH]; intros H cur; simpl.
  - rewrite append_empty. reflexivity.
  - destruct (Ascii.eqb_spec c sep) as [-> | _];
      [destruct (H sep); [left |]; reflexivity |].
    rewrite IH by (intros x Hx; apply H; right; exact Hx).
    rewrite append_char. reflexivity.
Qed.

Lemma length_split_from sep s :
  forall cur,
    length (strings.split_from sep cur s)
    = S (length (List.filter (fun x => Ascii.eqb x sep)
                             (list_ascii_of_string s))).
Proof.
  induction s as [| c s IH]; intros cur; simpl; [reflexivity |].
  destruct (Ascii.eqb c sep); simpl; rewrite IH; reflexivity.
Qed.

Lemma commas_filter s :
  commas s = length (List.filter (fun x => Ascii.eqb x ",")
                                 (list_ascii_of_string s)).
Proof.
  induction s as [| c s IH]; simpl; [reflexivity |].
  destruct (Ascii.eqb c ","); simpl; rewrite IH; reflexivity.
Qed.

Lemma length_Split s : length (strings.Split s ",") = S (commas s).
Proof. unfold strings.Split. rewrite length_split_from, commas_filter. auto. Qed.

Lemma collect_app l1 l2 :
  parser.collect (l1 ++ l2) = parser.collect l1 ++ parser.collect l2.
Proof.
  induction l1 as [| f l1 IH]; simpl; [reflexivity |].
  destruct (net.ParseIP f); simpl; rewrite IH; reflexivity.
Qed.

Lemma length_collect l : (length (parser.collect l) <= length l)%nat.
Proof.
  induction l as [| f l IH]; simpl; [lia |].
  destruct (net.ParseIP f); simpl; lia.
Qed.

(** The loop of [parseAllowedIPAddr] gives [To4] of the fields that
    parse, in their order. *)
Lemma collect_omap l :
  parser.collect l = net.To4 <$> omap net.ParseIP l.
Proof.
  induction l as [| f l IH]; [reflexivity |].
  cbn [parser.collect omap list_omap].
  destruct (net.ParseIP f); cbn [fmap list_fmap]; rewrite IH; reflexivity.
Qed.

Lemma To4_length_or_nil ip : length (net.To4 ip) = 4%nat \/ net.To4 ip = [].
Proof.
  destruct (net.To4 ip) as [| b r] eqn:E; [auto |].
  left. rewrite <- E. apply To4_length. rewrite E. discriminate.
Qed.

Lemma collect_widths l :
  Forall (fun ip => length ip = 4%nat \/ ip = []) (parser.collect l).
Proof.
  induction l as [| f l IH]; simpl; [constructor |].
  destruct (net.ParseIP f); [constructor |]; auto using To4_length_or_nil.
Qed.

Lemma fixed_addresses_eq :
  [parser.ParseIP_To4 parser.localLoopback;
   parser.ParseIP_To4 parser.linkLocal;
   parser.ParseIP_To4 parser.azureMeta] = fixed_addresses.
Proof. vm_compute. reflexivity. Qed.

Lemma scan_line_eq line hs ips :
  flag.scan_line line (hs, ips)
  = (hs ++ List.filter unparsed (omap nameserver_of [line]),
     ips ++ omap net.ParseIP (omap nameserver_of [line])).
Proof.
  unfold flag.scan_line. cbn [omap list_omap]. unfold nameserver_of.
  destruct (strings_space.Fields line) as [| f0 [| f1 fs]];
    try (simpl; rewrite !app_nil_r; reflexivity).
  destruct (String.eqb f0 "nameserver");
    [| simpl; rewrite !app_nil_r; reflexivity].
  cbn [List.filter omap list_omap]. unfold unparsed.
  destruct (net.ParseIP f1) as [ip |]; rewrite ?app_nil_r; reflexivity.
Qed.

(** The loop of [getDNSServers] sorts the name servers it meets. *)
Lemma scan_lines lines :
  forall hs ips,
    fold_left (fun acc line => flag.scan_line line acc) lines (hs, ips)
    = (hs ++ List.filter unparsed (omap nameserver_of lines),
       ips ++ omap net.ParseIP (omap nameserver_of lines)).
Proof.
  induction lines as [| line lines IH]; intros hs ips.
  - simpl. rewrite !app_nil_r. reflexivity.
  - cbn [fold_left]. rewrite scan_line_eq, IH.
    change (line :: lines) with ([line] ++ lines).
    rewrite (omap_app nameserver_of [line] lines), List.filter_app,
      omap_app, <- !app_assoc.
    reflexivity.
Qed.

Lemma omap_ParseIP_lengths l :
  Forall (fun ip => length ip = 16%nat) (omap net.ParseIP l).
Proof.
  induction l as [| f l IH]; simpl; [constructor |].
  destruct (net.ParseIP f) as [ip |] eqn:E; [| exact IH].
  constructor; [eapply ParseIP_length, E | exact IH].
Qed.

Lemma getDNSServers_lengths f :
  Forall (fun ip => length ip = 16%nat) (flag.getDNSServers f).2.
Proof.
  destruct f as [| lines [|]]; simpl; try constructor.
  rewrite scan_lines. simpl. apply omap_ParseIP_lengths.
Qed.

End Flags.

(** X14. Whatever the flag, [parseAllowedIPAddr] ends its list with the three
    fixed addresses 127.0.0.1, 169.254.169.254 and 168.63.129.16, in this
    order and in the 4-byte form. Before them come the fields of the flag that
    parse, at most one for each field: each in the 4-byte form, or nil when
    the field is an IPv6 address. *)
Theorem fixed_addresses_close_the_list ips :
  exists pre,
    parser.parseAllowedIPAddr ips = pre ++ fixed_addresses /\
    Forall (fun ip => length ip = 4%nat \/ ip = []) pre /\
    (length pre <= S (commas ips))%nat.
Proof.
  exists (parser.collect (strings.Split ips ",")).
  unfold parser.parseAllowedIPAddr. rewrite fixed_addresses_eq.
  split; [reflexivity |]. split; [apply collect_widths |].
  rewrite <- length_Split. apply length_collect.
Qed.

(** X15. [parseAllowedIPAddr] does not trim its fields: a field that begins
    with a character that is neither a hexadecimal digit nor a colon, a blank
    after the comma for one, is left out without a word. *)
Theorem field_with_bad_start_is_dropped s1 c s2 :
  net.hex_digit c = None -> c <> ":"%char ->
  (forall x, In x (list_ascii_of_string (String c s2)) -> x <> ","%char) ->
  parser.parseAllowedIPAddr (s1 ++ String "," (String c s2))
  = parser.parseAllowedIPAddr s1.
Proof.
  intros Hhex Hc Hs2. unfold parser.parseAllowedIPAddr, strings.Split.
  rewrite split_from_app, collect_app.
  rewrite (split_from_whole "," (String c s2) Hs2).
  change (EmptyString ++ String c s2)%string with (String c s2).
  cbn [parser.collect].
  rewrite (ParseIP_bad_start c s2 Hhex Hc). rewrite app_nil_r. reflexivity.
Qed.

(** The second address of "10.0.0.1, 10.0.0.2" is left out. *)
Lemma field_with_bad_start_is_dropped_witness :
  parser.parseAllowedIPAddr ("10.0.0.1" ++ String "," (String " " "10.0.0.2"))
  = parser.parseAllowedIPAddr "10.0.0.1".
Proof.
  apply (field_with_bad_start_is_dropped "10.0.0.1" " " "10.0.0.2").
  - reflexivity.
  - discriminate.
  - intros x Hx. simpl in Hx.
    repeat (destruct Hx as [<- | Hx]; [discriminate |]). destruct Hx.
Defined.

(** X16. [getDNSServers] gives nothing when the file cannot be opened or the
    scanner ends with an error, whatever was read before. Otherwise it goes
    through the lines that name a name server, in their order: the ones that
    parse as an address it gives as addresses, in the 16-byte form that
    [net.ParseIP] returns, and the others as hosts. *)
Theorem getDNSServers_sorts_nameservers f :
  match f with
  | flag.Scanned lines false =>
      flag.getDNSServers f
      = (List.filter unparsed (omap nameserver_of lines),
         omap net.ParseIP (omap nameserver_of lines))
  | _ => flag.getDNSServers f = ([], [])
  end /\
  Forall (fun ip => length ip = 16%nat) (flag.getDNSServers f).2.
Proof.
  split; [| apply getDNSServers_lengths].
  destruct f as [| lines [|]]; try reflexivity.
  simpl. apply scan_lines.
Qed.

(** X17. [ToDataJson] hands the two switches on as they are. Its hosts are
    the name servers of resolv.conf that do not parse as an address, in
    their order, and then the fields of the hosts flag, each trimmed, in
    their order: one more than the flag has commas, so that the empty flag
    gives one empty host. Its addresses are the name servers that parse, in
    their order and in 16 bytes each, then [To4] of every field of the
    addresses flag that parses, in their order and of 4 bytes each or nil, and
    last the three fixed addresses. *)
Theorem ToDataJson_lists f allowed_hosts allowed_ips ghrange localrange :
  let d := flag.ToDataJson f allowed_hosts allowed_ips ghrange localrange in
  let flag_ips := net.To4 <$> omap net.ParseIP (strings.Split allowed_ips ",") in
  domain.AllowedHosts d
  = List.filter unparsed (nameservers f)
      ++ (strings_space.TrimSpace <$> strings.Split allowed_hosts ",") /\
  domain.AllowedIPs d
  = omap net.ParseIP (nameservers f) ++ flag_ips ++ fixed_addresses /\
  Forall (fun ip => length ip = 16%nat) (omap net.ParseIP (nameservers f)) /\
  Forall (fun ip => length ip = 4%nat \/ ip = []) flag_ips /\
  length (domain.AllowedHosts d)
  = (length (List.filter unparsed (nameservers f))
     + S (commas allowed_hosts))%nat /\
  domain.AllowGithubMeta d = ghrange /\
  domain.AllowLocalIPRanges d = localrange.
Proof.
  intros d flag_ips. subst d flag_ips.
  rewrite <- collect_omap.
  assert (Hdns : flag.getDNSServers f
                 = (List.filter unparsed (nameservers f),
                    omap net.ParseIP (nameservers f))).
  { destruct f as [| lines [|]]; try reflexivity. simpl. apply scan_lines. }
  unfold flag.ToDataJson. rewrite Hdns. cbn [domain.AllowedHosts
    domain.AllowedIPs domain.AllowGithubMeta domain.AllowLocalIPRanges].
  unfold parser.parseAllowedIPAddr, flag.parseAllowedHosts.
  rewrite fixed_addresses_eq.
  split; [reflexivity |]. split; [reflexivity |].
  split; [apply omap_ParseIP_lengths |].
  split; [apply collect_widths |].
  split; [| split; reflexivity].
  rewrite length_app. f_equal.
  change (length (strings_space.TrimSpace <$> strings.Split allowed_hosts ","))
    with (length (map strings_space.TrimSpace (strings.Split allowed_hosts ","))).
  rewrite length_map. apply length_Split.
Qed.

(* ===================================================================== *)
(** * Trimmed hosts *)
(* ===================================================================== *)

Section Trimming.

Lemma trim_left_width s :
  forall skip,
    unicode.space_width (strings_space.trim_left skip s) = 0%nat.
Proof.
  induction s as [| c r IH]; intros skip; [reflexivity |].
  destruct skip as [| k]; [| apply IH].
  cbn [strings_space.trim_left].
  destruct (unicode.space_width (c :: r)) as [| w] eqn:E;
    [exact E | apply IH].
Qed.

Lemma trim_left_rev_width s :
  forall skip,
    unicode.space_width_rev (strings_space.trim_left_rev skip s) = 0%nat.
Proof.
  induction s as [| c r IH]; intros skip; [reflexivity |].
  destruct skip as [| k]; [| apply IH].
  cbn [strings_space.trim_left_rev].
  destruct (unicode.space_width_rev (c :: r)) as [| w] eqn:E;
    [exact E | apply IH].
Qed.

Lemma trim_left_rev_suffix s :
  forall skip, exists pre, s = pre ++ strings_space.trim_left_rev skip s.
Proof.
  induction s as [| c r IH]; intros skip; [exists []; reflexivity |].
  destruct skip as [| k].
  - cbn [strings_space.trim_left_rev].
    destruct (unicode.space_width_rev (c :: r)) as [| w];
      [exists []; reflexivity |].
    destruct (IH w) as [pre Hpre]. exists (c :: pre).
    simpl. rewrite <- Hpre. reflexivity.
  - destruct (IH k) as [pre Hpre]. exists (c :: pre).
    simpl. rewrite <- Hpre. reflexivity.
Qed.

(** Bytes that begin with no white space have no prefix that does. *)
Lemma space_width_prefix a b :
  unicode.space_width (a ++ b) = 0%nat -> unicode.space_width a = 0%nat.
Proof.
  destruct a as [| c r]; [reflexivity |].
  cbn [app unicode.space_width].
  destruct (unicode.asciiSpace c); [discriminate |].
  destruct (N_of_ascii c) as [| p]; [reflexivity |].
  do 8 (try (destruct p as [p | p |]; try reflexivity)).
  all: destruct r as [| d [| e r]]; try reflexivity; cbn [app]; auto.
Qed.

End Trimming.

Lemma TrimSpace_trimmed s :
  trimmed (list_ascii_of_string (strings_space.TrimSpace s)).
Proof.
  unfold strings_space.TrimSpace, trimmed.
  rewrite list_ascii_of_string_of_list_ascii.
  set (l1 := strings_space.trim_left 0 (list_ascii_of_string s)).
  destruct (trim_left_rev_suffix (rev l1) 0) as [pre Hpre].
  split.
  - apply (space_width_prefix _ (rev pre)).
    rewrite <- rev_app_distr, <- Hpre, rev_involutive.
    apply trim_left_width.
  - rewrite rev_involutive. apply trim_left_rev_width.
Qed.

(** X18. [parseAllowedHosts] gives one host for every field of the flag, one
    more than the flag has commas, so that the empty flag gives one host, the
    empty one. No host begins or ends with white space. *)
Theorem parseAllowedHosts_gives_trimmed_fields hosts :
  length (flag.parseAllowedHosts hosts) = S (commas hosts) /\
  Forall (fun h => trimmed (list_ascii_of_string h))
         (flag.parseAllowedHosts hosts).
Proof.
  unfold flag.parseAllowedHosts. split.
  - rewrite length_map. apply length_Split.
  - apply Forall_map, Forall_forall. intros f _. apply TrimSpace_trimmed.
Qed.

(* ===================================================================== *)
(** * Seeding with addresses that are not of four bytes *)
(* ===================================================================== *)

Section Widths.

Lemma Uint32_take h :
  (4 <= length h)%nat ->
  LittleEndian.Uint32 h = LittleEndian.Uint32 (take 4 h).
Proof.
  destruct h as [| a [| b [| c [| d r]]]]; simpl; try lia. reflexivity.
Qed.

Lemma seed_allow_map_take hosts :
  Forall (fun h => (4 <= length h)%nat) hosts ->
  forall st,
    seed_allow_map hosts st = seed_allow_map (take 4 <$> hosts) st.
Proof.
  induction 1 as [| h hosts Hh _ IH]; intros st; [reflexivity |].
  cbn [fmap list_fmap seed_allow_map]. rewrite <- (Uint32_take h Hh).
  destruct h as [| a [| b [| c [| d r]]]]; simpl in Hh; try lia.
  cbn [LittleEndian.Uint32].
  unfold bind. destruct (map_put AllowMap _ _ st) as [[[] | s] st1];
    [apply IH | reflexivity].
Qed.

Lemma seed_allow_map_app l1 l2 st :
  seed_allow_map (l1 ++ l2) st
  = (seed_allow_map l1 ;; seed_allow_map l2) st.
Proof.
  revert st. induction l1 as [| h l1 IH]; intros st; [reflexivity |].
  cbn [app seed_allow_map].
  destruct (LittleEndian.Uint32 h); [| reflexivity].
  rewrite bind_bind. unfold bind at 1.
  destruct (map_put AllowMap _ _ st) as [[[] | s] st1];
    [apply IH | reflexivity].
Qed.

Lemma seed_first_four hosts st cap es :
  Forall (fun h => (4 <= length h)%nat) hosts ->
  allow_map_is st 4 4 cap es ->
  (size (dom es ∪ list_to_set (take 4 <$> hosts)) <= cap)%nat ->
  exists st',
    seed_allow_map hosts st = (inl tt, st') /\
    allow_map_is st' 4 4 cap (seeded es (take 4 <$> hosts)).
Proof.
  intros Hh Hm Hroom. rewrite (seed_allow_map_take hosts Hh).
  apply seed_allow_map_ok; [| exact Hm | exact Hroom].
  apply Forall_fmap. eapply Forall_impl; [exact Hh |].
  intros h H. unfold compose. rewrite length_take. apply Nat.min_l, H.
Qed.

End Widths.

(** X19. The seeding loop reads the first four bytes of an address and no
    more: with addresses of four bytes or more, on a map with room, it
    completes and leaves under the marker the first four bytes of each. *)
Theorem seeding_keys_on_first_four_bytes hosts st cap es :
  Forall (fun h => (4 <= length h)%nat) hosts ->
  allow_map_is st 4 4 cap es ->
  (size (dom es ∪ list_to_set (take 4 <$> hosts)) <= cap)%nat ->
  exists st',
    seed_allow_map hosts st = (inl tt, st') /\
    allow_map_is st' 4 4 cap (seeded es (take 4 <$> hosts)).
Proof.
  intros Hh Hm Hroom.
  rewrite (seed_allow_map_take hosts Hh).
  apply seed_allow_map_ok; [| exact Hm | exact Hroom].
  apply Forall_fmap. eapply Forall_impl; [exact Hh |].
  intros h H. unfold compose. rewrite length_take. apply Nat.min_l, H.
Qed.

(** X20. An IPv4 address as [net.ParseIP] returns it, in 16 bytes and not
    narrowed by [To4], is seeded as 0.0.0.0: its first four bytes are
    zero. *)
Theorem unnarrowed_ipv4_is_seeded_as_zero s ip st :
  net.ParseIP s = Some ip -> net.To4 ip <> [] ->
  seed_allow_map [ip] st = seed_allow_map [[x00; x00; x00; x00]] st.
Proof.
  intros Hp H4. apply ParseIP_length in Hp.
  rewrite (seed_allow_map_take [ip]) by (constructor; [lia | constructor]).
  cbn [fmap list_fmap]. f_equal. f_equal.
  unfold net.To4, net.IPv4len, net.IPv6len in H4. rewrite Hp in H4.
  change (Nat.eqb 16 4) with false in H4.
  change (Nat.eqb 16 16) with true in H4. cbv iota in H4.
  destruct (bool_decide_reflect (take 10 ip = replicate 10 x00)) as [Hz | Hz];
    [| destruct H4; reflexivity].
  replace (take 4 ip) with (take 4 (take 10 ip))
    by (rewrite take_take; reflexivity).
  rewrite Hz. reflexivity.
Qed.

(** X21. At the first address of fewer than four bytes the seeding loop
    panics, the addresses before it written and the ones after it not. *)
Theorem seeding_stops_at_short_address hs1 h hs2 st cap es :
  Forall (fun h => (4 <= length h)%nat) hs1 ->
  (length h < 4)%nat ->
  allow_map_is st 4 4 cap es ->
  (size (dom es ∪ list_to_set (take 4 <$> hs1)) <= cap)%nat ->
  exists st',
    seed_allow_map (hs1 ++ h :: hs2) st
    = (inr (Panic (IndexOutOfRange 3 (length h))), st') /\
    allow_map_is st' 4 4 cap (seeded es (take 4 <$> hs1)).
Proof.
  intros H1 Hh Hm Hroom.
  destruct (seed_first_four hs1 st cap es H1 Hm Hroom) as (st1 & E1 & Hm1).
  exists st1. split; [| exact Hm1].
  rewrite seed_allow_map_app. unfold bind. rewrite E1.
  destruct h as [| a [| b [| c [| d r]]]]; simpl in Hh; try lia; reflexivity.
Qed.

(** The address 10.0.0.1 in 16 bytes, on a fresh map. *)
Lemma seeding_keys_on_first_four_bytes_witness :
  exists st',
    seed_allow_map [scenario.unnarrowed] sample.loaded = (inl tt, st') /\
    allow_map_is st' 4 4 256 (seeded ∅ (take 4 <$> [scenario.unnarrowed])).
Proof.
  apply (seeding_keys_on_first_four_bytes [scenario.unnarrowed]
           sample.loaded 256 ∅).
  - constructor; [simpl; lia | constructor].
  - exists sample.loaded_collection. split; reflexivity.
  - vm_compute. lia.
Defined.

Lemma unnarrowed_ipv4_is_seeded_as_zero_witness :
  seed_allow_map [scenario.unnarrowed] sample.loaded
  = seed_allow_map [[x00; x00; x00; x00]] sample.loaded.
Proof.
  apply (unnarrowed_ipv4_is_seeded_as_zero "10.0.0.1" scenario.unnarrowed
           sample.loaded).
  - vm_compute. reflexivity.
  - vm_compute. discriminate.
Defined.

(** A nil address after 10.0.0.1 and before 10.0.0.2. *)
Lemma seeding_stops_at_short_address_witness :
  exists st',
    seed_allow_map ([[x0a; x00; x00; x01]] ++ [] :: [[x0a; x00; x00; x02]])
                   sample.loaded
    = (inr (Panic (IndexOutOfRange 3 (length (@nil byte)))), st') /\
    allow_map_is st' 4 4 256 (seeded ∅ (take 4 <$> [[x0a; x00; x00; x01]])).
Proof.
  apply (seeding_stops_at_short_address [[x0a; x00; x00; x01]] []
           [[x0a; x00; x00; x02]] sample.loaded 256 ∅).
  - constructor; [simpl; lia | constructor].
  - simpl. lia.
  - exists sample.loaded_collection. split; reflexivity.
  - vm_compute. lia.
Defined.

(* ===================================================================== *)
(** * Runs of package tracer: the errors returned *)
(* ===================================================================== *)

Section TracerRuns.

(** A run of [tracer.Run] returns an error before it loads anything,
    or exits on the load, or goes on from [tracer_loaded] with a mode it
    accepts. *)
Lemma tracer_Run_cases cfg w tracerMode allowedHosts :
  (exists e t,
      before_load e /\
      Forall (fun x => x = Log Debug MsgNoHosts) t /\
      tracer.Run cfg w tracerMode allowedHosts
      = (Returned (Some e), mkState t [] None)) \/
  (tracer.Run cfg w tracerMode allowedHosts).1 = Exited \/
  exists ips spec c0,
    (String.eqb tracerMode (tracer.TracerModeTrace cfg)
     || String.eqb tracerMode (tracer.TracerModeMonitor cfg)) = true /\
    tracer.Run cfg w tracerMode allowedHosts
    = finish (tracer_after_load cfg w tracerMode allowedHosts ips spec
                                (tracer_loaded allowedHosts c0)).
Proof.
  unfold tracer.Run, tracer.body, before_load.
  destruct (String.eqb tracerMode "").
  { left. exists ErrModeRequired, []. simpl. auto. }
  destruct (String.eqb tracerMode (tracer.TracerModeMonitor cfg)) eqn:Em;
    destruct (String.eqb tracerMode (tracer.TracerModeTrace cfg)) eqn:Et;
    simpl negb; cbn [andb orb];
    try (left; exists (ErrModeInvalid tracerMode), []; simpl;
         split; [eauto | split; [constructor | reflexivity]]; fail).
  all: destruct (tracer.ParseHosts cfg allowedHosts) as [ips |];
    [| left; exists ErrParseHosts;
       destruct (String.eqb allowedHosts ""); eexists;
       (split; [auto | split; [| reflexivity]]); simpl; repeat constructor].
  all: destruct (IsRoot w);
    [| left; exists ErrNotRoot;
       destruct (String.eqb allowedHosts ""); eexists;
       (split; [auto | split; [| reflexivity]]); simpl; repeat constructor].
  all: unfold ebpfman.Load;
    destruct (LoadCollectionSpec_res w) as [spec |];
    [| right; left; destruct (String.eqb allowedHosts ""); reflexivity].
  all: destruct (NewCollection_res w) as [c0 |];
    [| right; left; destruct (String.eqb allowedHosts ""); reflexivity].
  all: right; right; exists ips, spec, c0; split; [reflexivity |];
    unfold tracer_loaded; rewrite ?Em, ?Et;
    destruct (String.eqb allowedHosts ""); reflexivity.
Qed.

(** An error returned after the load is the one of the memory limit or
    one of the link loop; the collection is still there, and the deferred
    calls end with the closes of the two readers and of the collection. *)
Lemma tracer_after_load_error cfg w tracerMode allowedHosts ips spec st e st' :
  (String.eqb tracerMode (tracer.TracerModeTrace cfg)
   || String.eqb tracerMode (tracer.TracerModeMonitor cfg)) = true ->
  is_Some (collection st) ->
  tracer_after_load cfg w tracerMode allowedHosts ips spec st
  = (inr (Return (Some e)), st') ->
  (e = ErrMemlock \/ link_error e) /\
  is_Some (collection st') /\
  exists ds,
    deferred st'
    = ds ++ [DReaderClose ClosedEvents; DReaderClose OpenedEvents;
             DClientClean] ++ deferred st.
Proof.
  intros Hmode Hc H. unfold tracer_after_load in H.
  unfold bind at 1, defer at 1 in H.
  assert (Hset : stops_in fatal (tracer.set_mode cfg tracerMode)).
  { unfold tracer.set_mode.
    destruct (String.eqb tracerMode (tracer.TracerModeTrace cfg));
      [stopping |].
    destruct (String.eqb tracerMode (tracer.TracerModeMonitor cfg));
      [stopping | discriminate Hmode]. }
  assert (Hkeep : forall st0 st1,
             tracer.set_mode cfg tracerMode st0 = (inl tt, st1) ->
             deferred st1 = deferred st0 /\ is_Some (collection st1)).
  { unfold tracer.set_mode. intros st0 st1.
    destruct (String.eqb tracerMode (tracer.TracerModeTrace cfg));
      [| destruct (String.eqb tracerMode (tracer.TracerModeMonitor cfg));
         [| discriminate]];
      intros E; apply map_put_inl in E as (c & m' & _ & _ & ->);
      simpl; eauto. }
  eapply (bind_passes fatal) in H as ([] & st2 & E2 & H);
    [| exact Hset | intros F; exact F].
  apply Hkeep in E2 as [Hd2 Hc2]. simpl in Hd2.
  eapply (bind_passes fatal) in H as ([] & st3 & E3 & H);
    [| apply stops_seed_allow_map | intros F; exact F].
  pose proof (frame_seed_allow_map _ _ _ _ E3) as F3.
  pose proof (frame_loaded _ _ F3 Hc2) as Hc3.
  injection F3 as Hd3 _.
  eapply (bind_passes fatal) in H as ([] & st4 & E4 & H);
    [| apply stops_open_reader | intros F; exact F].
  apply open_reader_inl in E4 as [_ ->].
  eapply (bind_passes fatal) in H as ([] & st5 & E5 & H);
    [| apply stops_open_reader | intros F; exact F].
  apply open_reader_inl in E5 as [_ ->].
  unfold bind at 1, emit at 1 in H. cbn [trace deferred collection] in H.
  eapply (bind_passes fatal) in H as ([] & st6 & E6 & H);
    [| stopping | intros F; exact F].
  assert (Hst6 : deferred st6
                 = [DReaderClose ClosedEvents; DReaderClose OpenedEvents;
                    DClientClean] ++ deferred st /\
                 is_Some (collection st6)).
  { destruct (NewReporter_ok w); [| discriminate E6].
    injection E6 as <-. simpl. rewrite Hd3, Hd2. auto. }
  destruct Hst6 as [Hd6 Hc6].
  unfold bind at 1, emit at 1 in H.
  apply bind_inr in H as [H | ([] & st7 & E7 & H)].
  { unfold return_if in H. destruct (negb (RemoveMemlock_ok w));
      [| discriminate H].
    injection H as <- <-. simpl.
    split; [auto |]. split; [exact Hc6 |]. exists []. exact Hd6. }
  assert (Hst7 : deferred st7 = deferred st6 /\ is_Some (collection st7)).
  { unfold return_if in E7. destruct (negb (RemoveMemlock_ok w));
      [discriminate E7 |].
    injection E7 as <-. simpl. auto. }
  destruct Hst7 as [Hd7 Hc7].
  apply bind_inr in H as [H | ([] & st8 & E8 & H)].
  { destruct (forallb (attachable w) spec) eqn:Hall.
    - rewrite (link_programs_ok w spec Hall) in H. discriminate H.
    - destruct (first_unattachable w spec Hall)
        as (ps1 & p & ps2 & -> & H1 & Hp).
      rewrite (link_programs_fails w ps1 p ps2 H1 Hp) in H.
      injection H as <- <-. simpl.
      split; [right |]. 
      + unfold link_failure, link_error.
        destruct (ebpf.Type_ p); try destruct (cgroup_open_ok w);
          simpl; eauto.
      + split; [exact Hc7 |]. eexists. rewrite Hd7, Hd6. reflexivity. }
  exfalso.
  eapply (bind_passes fatal) in H as ([] & ? & _ & H);
    [| stopping | intros F; exact F].
  eapply bind_passes in H as ([] & ? & _ & H);
    [| apply stops_event_loop | intros [F | F]; [exact F | discriminate F]].
  rewrite exit_path_eq in H. discriminate H.
Qed.

Lemma tracer_after_load_stops cfg w tracerMode allowedHosts ips spec st st' :
  tracer_after_load cfg w tracerMode allowedHosts ips spec st
  <> (inl tt, st').
Proof.
  unfold tracer_after_load. intros H.
  do 12 apply bind_inl in H as (? & ? & _ & H).
  rewrite exit_path_eq in H. discriminate H.
Qed.

End TracerRuns.

(** X22. An error that [tracer.Run] returns is of one of two kinds. Either it
    comes from the checks before the load: the mode, the hosts flag, the
    user. Then nothing was loaded and nothing is held; the run has done no
    more than log that there are no hosts. Or it is the error of the memory
    limit or of the link loop. Then the collection was loaded, and the run
    ends by closing the second reader, the first reader and the collection,
    in this order. *)
Theorem tracer_errors_precede_load_or_release cfg w tracerMode allowedHosts
        e st :
  tracer.Run cfg w tracerMode allowedHosts = (Returned (Some e), st) ->
  (before_load e /\ collection st = None /\ deferred st = [] /\
   Forall (fun x => x = Log Debug MsgNoHosts) (trace st)) \/
  ((e = ErrMemlock \/ link_error e) /\ is_Some (collection st) /\
   exists t,
     trace st = t ++ [ReaderClose ClosedEvents; ReaderClose OpenedEvents;
                      CollectionClose]).
Proof.
  intros H.
  destruct (tracer_Run_cases cfg w tracerMode allowedHosts)
    as [(e' & t & He' & Ht & Hrun) | [Ho | (ips & spec & c0 & Hmode & Hrun)]].
  - rewrite Hrun in H. injection H as <- <-. left. auto.
  - rewrite H in Ho. discriminate Ho.
  - right. rewrite Hrun in H.
    destruct (tracer_after_load cfg w tracerMode allowedHosts ips spec
                                (tracer_loaded allowedHosts c0))
      as [r stb] eqn:E.
    apply finish_Returned in H as Hr. destruct Hr as [-> | [_ [=]]].
    apply tracer_after_load_error in E as (He & [c Hc] & ds & Hds);
      [| exact Hmode | simpl; eauto].
    unfold finish in H.
    rewrite (run_all_deferred_release _ _ _ c Hc) in H.
    injection H as <-. simpl.
    split; [exact He |]. split; [eauto |].
    rewrite Hds. rewrite map_app. cbn [tracer_loaded deferred app map release].
    eexists. rewrite app_assoc. reflexivity.
Qed.

(** The memory limit cannot be lifted: the readers and the collection
    are closed. *)
Lemma tracer_errors_precede_load_or_release_witness :
  let st := (tracer.Run sample.cfg scenario.memlock_fails "trace" "").2 in
  (before_load ErrMemlock /\ collection st = None /\ deferred st = [] /\
   Forall (fun x => x = Log Debug MsgNoHosts) (trace st)) \/
  ((ErrMemlock = ErrMemlock \/ link_error ErrMemlock) /\
   is_Some (collection st) /\
   exists t,
     trace st = t ++ [ReaderClose ClosedEvents; ReaderClose OpenedEvents;
                      CollectionClose]).
Proof.
  intros st.
  apply (tracer_errors_precede_load_or_release sample.cfg
           scenario.memlock_fails "trace" "" ErrMemlock st).
  vm_compute. reflexivity.
Defined.
